(** * Runtime assertions for export constraints

    A shallow embedding of
    [torch/_export/passes/add_runtime_assertions_for_constraints_pass.py]:
    the constraint normaliser [_process_shape_constraints], the placeholder
    hooks [placeholder] and [postprocess_placeholders], the assertion
    emitters and the per-operator synthesis in [call_operator].

    Python objects are modelled as follows.
    - An [int] is a [Z]; a bound that is an [int] or [math.inf] is a [bound].
    - A [dict] is an association list in insertion order ([dict_get],
      [dict_set]); a [defaultdict(list)] is the same list with [dict_append].
    - The pass object [self] is the record [Self]; a method is a function
      in the monad [M], which threads [self] and carries a raised exception.
    - The graph under construction is the list of nodes emitted so far; the
      proxy of a node is its position in that list.
    - A [set] of dimensions is the list of its elements in the order of
      iteration.  [set(range(n))] is iterated in increasing order; the order
      of a difference [a - b] is that of the slots of its hash table, which
      the model takes as a parameter ([SetSlots]). *)

From Stdlib Require Import ZArith List String Ascii Bool DecimalString Lia.
From Stdlib Require Import Permutation Sorted.
Import ListNotations.
#[local] Set Warnings "-register-all".
Local Open Scope string_scope.
Local Open Scope list_scope.
Local Open Scope Z_scope.

(** ** Values *)

(** An [int] or [math.inf]: what [_convert_to_int] returns. *)
Inductive bound : Type :=
| Fin (z : Z)
| Inf.

(** [a <= b] on Python numbers, for an int or [math.inf] on either side. *)
Definition bound_leb (a b : bound) : bool :=
  match a, b with
  | Fin x, Fin y => x <=? y
  | _, Inf => true
  | Inf, Fin _ => false
  end.

(** [a < b] on Python numbers. *)
Definition bound_ltb (a b : bound) : bool :=
  match a, b with
  | Fin x, Fin y => x <? y
  | Fin _, Inf => true
  | Inf, _ => false
  end.

Definition bound_eqb (a b : bound) : bool :=
  match a, b with
  | Fin x, Fin y => x =? y
  | Inf, Inf => true
  | _, _ => false
  end.

(** The sympy expressions a constraint bound or a symbol identity can be. *)
Inductive sympy_expr : Type :=
| Integer (z : Z)
| oo
| NegativeInfinity
| Rational (p q : Z)
| Symbol (name : string)
| Add (a b : sympy_expr)
| Mul (a b : sympy_expr).

(** Structural equality: what a sympy expression hashes and compares by. *)
Fixpoint sympy_eqb (a b : sympy_expr) : bool :=
  match a, b with
  | Integer x, Integer y => x =? y
  | oo, oo => true
  | NegativeInfinity, NegativeInfinity => true
  | Rational p q, Rational p' q' => (p =? p') && (q =? q')
  | Symbol s, Symbol s' => String.eqb s s'
  | Add a1 a2, Add b1 b2 => sympy_eqb a1 b1 && sympy_eqb a2 b2
  | Mul a1 a2, Mul b1 b2 => sympy_eqb a1 b1 && sympy_eqb a2 b2
  | _, _ => false
  end.

(** ** Exceptions *)

Inductive exn : Type :=
| RuntimeError (msg : string)
| AssertionError
| KeyError (key : string)
| IndexError
| TypeError
| AttributeError (attr : string).

Inductive outcome (A : Type) : Type :=
| Ok (a : A)
| Raise (e : exn).
Arguments Ok {A} a.
Arguments Raise {A} e.

Definition obind {A B : Type} (x : outcome A) (f : A -> outcome B) : outcome B :=
  match x with
  | Ok a => f a
  | Raise e => Raise e
  end.

Declare Scope outcome_scope.
Delimit Scope outcome_scope with outcome.
Notation "'try!' x <- c1 ; c2" := (obind c1 (fun x => c2))
  (at level 61, x name, c1 at next level, right associativity) : outcome_scope.

(** ** Dictionaries in insertion order *)

Section Dict.
Context {K V : Type} (eqb : K -> K -> bool).

(** [d.get(k)]. *)
Fixpoint dict_get (k : K) (d : list (K * V)) : option V :=
  match d with
  | [] => None
  | (k', v) :: d' => if eqb k k' then Some v else dict_get k d'
  end.

(** [d[k] = v]: an existing key keeps its place, a new one goes last. *)
Fixpoint dict_set (k : K) (v : V) (d : list (K * V)) : list (K * V) :=
  match d with
  | [] => [(k, v)]
  | (k', v') :: d' =>
      if eqb k k' then (k, v) :: d' else (k', v') :: dict_set k v d'
  end.

(** [k in d]. *)
Definition dict_mem (k : K) (d : list (K * V)) : bool :=
  match dict_get k d with
  | Some _ => true
  | None => false
  end.
End Dict.

(** [d[k].append(x)] on a [defaultdict(list)]. *)
Definition dict_append {K X : Type} (eqb : K -> K -> bool)
    (k : K) (x : X) (d : list (K * list X)) : list (K * list X) :=
  match dict_get eqb k d with
  | Some l => dict_set eqb k (l ++ [x]) d
  | None => dict_set eqb k [x] d
  end.

(** ** Constraint specifications *)

(** [RangeConstraintSpec] and [EqualityConstraintSpec], the two subclasses of
    [ConstraintSpec]; both carry [constraint_dim]. *)
Inductive ConstraintSpec : Type :=
| RangeConstraintSpec (constraint_dim : Z) (min_val max_val : bound)
| EqualityConstraintSpec (constraint_dim : Z) (other_name : string) (other_dim : Z).

Definition constraint_dim (c : ConstraintSpec) : Z :=
  match c with
  | RangeConstraintSpec d _ _ => d
  | EqualityConstraintSpec d _ _ => d
  end.

Definition non_integer_error : exn :=
  RuntimeError "Export constraints cannot be non-integer expressions".

(** [_convert_to_int(val)] *)
Definition _convert_to_int (val : sympy_expr) : outcome bound :=
  if sympy_eqb val oo then Ok Inf
  else match val with
       | Integer z => Ok (Fin z)
       | _ => Raise non_integer_error
       end.

(** ** The constraint normaliser *)

(** One value of [input_shape_constraints]: the raw ["range"] tuples
    [(dim, min_val, max_val)] and ["equality"] tuples
    [(dim, other_name, other_dim)] of an input. *)
Record shape_constraints : Type := {
  range : list (Z * sympy_expr * sympy_expr);
  equality : list (Z * string * Z)
}.

(** One value of [input_name_to_dim_constraints]: the converted range pairs
    and the equality pairs of an input, grouped by dimension. *)
Record dim_constraints : Type := {
  dc_range : list (Z * list (bound * bound));
  dc_equality : list (Z * list (string * Z))
}.

Definition dim_table : Type := list (string * dim_constraints).
Definition constraint_table : Type := list (string * list ConstraintSpec).

(** [input_name_to_dim_constraints[name]], with the default factory. *)
Definition dim_table_get (name : string) (t : dim_table) : dim_constraints :=
  match dict_get String.eqb name t with
  | Some dc => dc
  | None => {| dc_range := []; dc_equality := [] |}
  end.

(** [input_name_to_dim_constraints[name]["range"][dim].append(v)] *)
Definition add_range (name : string) (dim : Z) (v : bound * bound)
    (t : dim_table) : dim_table :=
  let dc := dim_table_get name t in
  dict_set String.eqb name
    {| dc_range := dict_append Z.eqb dim v (dc_range dc);
       dc_equality := dc_equality dc |} t.

(** [input_name_to_dim_constraints[name]["equality"][dim].append(v)] *)
Definition add_equality (name : string) (dim : Z) (v : string * Z)
    (t : dim_table) : dim_table :=
  let dc := dim_table_get name t in
  dict_set String.eqb name
    {| dc_range := dc_range dc;
       dc_equality := dict_append Z.eqb dim v (dc_equality dc) |} t.

(** [for dim, min_val, max_val in shape_constraints["range"]: ...] *)
Fixpoint range_tuples_loop (name : string)
    (rs : list (Z * sympy_expr * sympy_expr)) (t : dim_table)
    : outcome dim_table :=
  match rs with
  | [] => Ok t
  | (dim, min_val, max_val) :: rs' =>
      (try! lo <- _convert_to_int min_val;
       try! hi <- _convert_to_int max_val;
       range_tuples_loop name rs' (add_range name dim (lo, hi) t))%outcome
  end.

(** [for dim, other_name, other_dim in shape_constraints["equality"]: ...] *)
Fixpoint equality_tuples_loop (name : string)
    (es : list (Z * string * Z)) (t : dim_table) : dim_table :=
  match es with
  | [] => t
  | (dim, other_name, other_dim) :: es' =>
      equality_tuples_loop name es' (add_equality name dim (other_name, other_dim) t)
  end.

(** [for name, shape_constraints in constraints.items(): ...] *)
Fixpoint group_loop (constraints : list (string * shape_constraints))
    (t : dim_table) : outcome dim_table :=
  match constraints with
  | [] => Ok t
  | (name, sc) :: rest =>
      (try! t1 <- range_tuples_loop name (range sc) t;
       group_loop rest (equality_tuples_loop name (equality sc) t1))%outcome
  end.

(** [sorted(l, reverse=...)], a stable insertion sort. *)
Fixpoint sorted_insert (reverse : bool) (x : bound) (l : list bound) : list bound :=
  match l with
  | [] => [x]
  | y :: l' =>
      if (if reverse then bound_leb y x else bound_leb x y)
      then x :: y :: l'
      else y :: sorted_insert reverse x l'
  end.

Definition sorted (l : list bound) (reverse : bool) : list bound :=
  fold_right (sorted_insert reverse) [] l.

(** [for dim, range_constraints in dim_constraints["range"].items(): ...] *)
Fixpoint merge_range_loop (name : string)
    (rs : list (Z * list (bound * bound))) (out : constraint_table)
    : outcome constraint_table :=
  match rs with
  | [] => Ok out
  | (dim, range_constraints) :: rs' =>
      match range_constraints with
      | [] => merge_range_loop name rs' out
      | first :: _ =>
          let (min_vals, max_vals) := split range_constraints in
          let min_val := hd (fst first) (sorted min_vals true) in
          let max_val := hd (snd first) (sorted max_vals false) in
          if bound_leb min_val max_val
          then merge_range_loop name rs'
                 (dict_append String.eqb name
                    (RangeConstraintSpec dim min_val max_val) out)
          else Raise AssertionError
      end
  end.

(** [for other_name, other_dim in eq_constraints: ...] *)
Fixpoint merge_equality_inner (name : string) (dim : Z)
    (eqs : list (string * Z)) (out : constraint_table) : constraint_table :=
  match eqs with
  | [] => out
  | (other_name, other_dim) :: eqs' =>
      merge_equality_inner name dim eqs'
        (dict_append String.eqb name
           (EqualityConstraintSpec dim other_name other_dim) out)
  end.

(** [for dim, eq_constraints in dim_constraints["equality"].items(): ...] *)
Fixpoint merge_equality_loop (name : string)
    (es : list (Z * list (string * Z))) (out : constraint_table) : constraint_table :=
  match es with
  | [] => out
  | (dim, eq_constraints) :: es' =>
      merge_equality_loop name es' (merge_equality_inner name dim eq_constraints out)
  end.

(** [for name, dim_constraints in input_name_to_dim_constraints.items(): ...] *)
Fixpoint merge_loop (t : dim_table) (out : constraint_table)
    : outcome constraint_table :=
  match t with
  | [] => Ok out
  | (name, dc) :: t' =>
      (try! out1 <- merge_range_loop name (dc_range dc) out;
       merge_loop t' (merge_equality_loop name (dc_equality dc) out1))%outcome
  end.

(** [_process_shape_constraints(self, constraints)] *)
Definition _process_shape_constraints
    (constraints : list (string * shape_constraints)) : outcome constraint_table :=
  (try! input_name_to_dim_constraints <- group_loop constraints [];
   merge_loop input_name_to_dim_constraints [])%outcome.

(** ** Graphs and the pass object *)

(** The call targets of the nodes the pass emits, and of the nodes it copies. *)
Inductive Target : Type :=
| placeholder_target (name : string)
| aten_sym_size
| operator_eq
| operator_ge
| operator_le
| aten_scalar_tensor_default
| aten__assert_async_msg
| other_target (name : string).

(** An operand: the proxy of an earlier node, a number or a message. *)
Inductive Argument : Type :=
| ArgProxy (p : nat)
| ArgNum (b : bound)
| ArgStr (s : string).

Record Node : Type := {
  target : Target;
  args : list Argument
}.

(** [meta["val"]], the computed-value descriptor of an operation: a symbolic
    scalar with its expression [val.node._expr], a tensor with its [shape],
    or any other value. *)
Inductive Val : Type :=
| SymInt (expr : sympy_expr)
| SymFloat (expr : sympy_expr)
| SymBool (expr : sympy_expr)
| Tensor (shape : list Val)
| Concrete.

(** What [get_export_meta(graph_module)] holds. An inline constraint is a
    pair [(lower, upper)] of sympy expressions. *)
Record ExportMeta : Type := {
  meta_input_shape_constraints : list (string * shape_constraints);
  meta_input_name_to_example_inputs : list (string * list Z);
  meta_inline_constraints : list (sympy_expr * (sympy_expr * sympy_expr))
}.

(** An operand of a node of the graph to rewrite: an earlier node of that
    graph, by position, or a constant. *)
Inductive fx_arg : Type :=
| FxNode (i : nat)
| FxNum (b : bound).

Inductive fx_node : Type :=
| fx_placeholder (name : string)
| fx_call_function (op : string) (fx_args : list fx_arg) (val : option Val).

Record GraphModule : Type := {
  gm_nodes : list fx_node;
  export_meta : ExportMeta
}.

(** The fields of the pass object, and the graph its tracer is building.
    An example input is kept as its concrete [shape]. *)
Record Self : Type := {
  current_gm : option GraphModule;
  constraints : constraint_table;
  input_name_to_example_inputs : list (string * list Z);
  inline_constraints : list (sympy_expr * (sympy_expr * sympy_expr));
  input_name_to_args : list (string * nat);
  graph : list Node
}.

Definition set_current_gm (v : option GraphModule) (s : Self) : Self :=
  {| current_gm := v; constraints := constraints s;
     input_name_to_example_inputs := input_name_to_example_inputs s;
     inline_constraints := inline_constraints s;
     input_name_to_args := input_name_to_args s; graph := graph s |}.

Definition set_constraints (v : constraint_table) (s : Self) : Self :=
  {| current_gm := current_gm s; constraints := v;
     input_name_to_example_inputs := input_name_to_example_inputs s;
     inline_constraints := inline_constraints s;
     input_name_to_args := input_name_to_args s; graph := graph s |}.

Definition set_input_name_to_example_inputs (v : list (string * list Z)) (s : Self) : Self :=
  {| current_gm := current_gm s; constraints := constraints s;
     input_name_to_example_inputs := v;
     inline_constraints := inline_constraints s;
     input_name_to_args := input_name_to_args s; graph := graph s |}.

Definition set_inline_constraints
    (v : list (sympy_expr * (sympy_expr * sympy_expr))) (s : Self) : Self :=
  {| current_gm := current_gm s; constraints := constraints s;
     input_name_to_example_inputs := input_name_to_example_inputs s;
     inline_constraints := v;
     input_name_to_args := input_name_to_args s; graph := graph s |}.

Definition set_input_name_to_args (v : list (string * nat)) (s : Self) : Self :=
  {| current_gm := current_gm s; constraints := constraints s;
     input_name_to_example_inputs := input_name_to_example_inputs s;
     inline_constraints := inline_constraints s;
     input_name_to_args := v; graph := graph s |}.

Definition set_graph (v : list Node) (s : Self) : Self :=
  {| current_gm := current_gm s; constraints := constraints s;
     input_name_to_example_inputs := input_name_to_example_inputs s;
     inline_constraints := inline_constraints s;
     input_name_to_args := input_name_to_args s; graph := v |}.

(** [emit nodes s]: the pass object after [nodes] were added to the graph. *)
Definition emit (nodes : list Node) (s : Self) : Self :=
  set_graph (graph s ++ nodes) s.

(** ** The monad of methods *)

(** A method reads and updates [self] and returns or raises; the state at a
    raise is kept, as the object outlives the exception. *)
Definition M (A : Type) : Type := Self -> outcome A * Self.

Definition pure {A : Type} (a : A) : M A := fun s => (Ok a, s).

Definition raise {A : Type} (e : exn) : M A := fun s => (Raise e, s).

Definition bind {A B : Type} (m : M A) (f : A -> M B) : M B :=
  fun s =>
    match m s with
    | (Ok a, s') => f a s'
    | (Raise e, s') => (Raise e, s')
    end.

Definition get_self : M Self := fun s => (Ok s, s).

Definition modify (f : Self -> Self) : M unit := fun s => (Ok tt, f s).

Definition lift {A : Type} (x : outcome A) : M A := fun s => (x, s).

Declare Scope method_scope.
Delimit Scope method_scope with method.
Notation "x <- c1 ;; c2" := (bind c1 (fun x => c2))
  (at level 61, c1 at next level, right associativity) : method_scope.
Notation "c1 ;; c2" := (bind c1 (fun _ => c2))
  (at level 61, right associativity) : method_scope.
Local Open Scope method_scope.

(** ** What the pass takes from its base class *)

(** Modelled from the spec: [ExportPassBase.call_operator], the host graph's
    node constructor, which is not part of the sources. It adds one node
    with the given target and operands to the graph being built (section 6:
    the output is the graph plus the inserted operations) and returns the
    proxy of that node. The keyword arguments and the node metadata, empty
    at every call of the pass, are left out. *)
Definition super_call_operator (op : Target) (arguments : list Argument) : M nat :=
  fun s => (Ok (List.length (graph s)),
            emit [{| target := op; args := arguments |}] s).

(** Modelled from the spec: [ExportPassBase.placeholder], which is not part
    of the sources: it copies the input node into the graph being built and
    returns its proxy. *)
Definition super_placeholder (name : string) : M nat :=
  super_call_operator (placeholder_target name) [].

(** Modelled from the spec: the text [f"{ret.node}"] of a node, the name the
    host graph gives it; here the node's position, which identifies it. *)
Definition str_int (z : Z) : string := NilZero.string_of_int (Z.to_int z).

Definition node_repr (p : nat) : string :=
  ("node_" ++ str_int (Z.of_nat p))%string.

(** [str(b)] for an int or [math.inf]. *)
Definition str_bound (b : bound) : string :=
  match b with
  | Fin z => str_int z
  | Inf => "inf"
  end.

(** [shapes[dim]] on a shape tuple. *)
Definition getitem (shapes : list Z) (dim : Z) : outcome Z :=
  let n := Z.of_nat (List.length shapes) in
  if (0 <=? dim) && (dim <? n) then Ok (nth (Z.to_nat dim) shapes 0)
  else if (- n <=? dim) && (dim <? 0) then Ok (nth (Z.to_nat (dim + n)) shapes 0)
  else Raise IndexError.

(** A set of dimensions is kept as a duplicate-free list in the order in
    which it is iterated.  CPython iterates a set by increasing slot of its
    hash table.

    [set(range(n))]: the integers 0 .. n-1 are inserted into a table that
    always has more than n slots, each into the slot of its own value, so
    this set is iterated in increasing order. *)
Definition range_set (n : nat) : list Z := map Z.of_nat (seq 0 n).

(** [s.add(d)]; the set of constrained dimensions is only subtracted from
    another set, never iterated. *)
Definition set_add (d : Z) (s : list Z) : list Z :=
  if existsb (Z.eqb d) s then s else s ++ [d].

(** The elements of [a] that are not in [b], in the order of [a]. *)
Definition not_in (a b : list Z) : list Z :=
  filter (fun d => negb (existsb (Z.eqb d) b)) a.

(** The elements of [l] by increasing slot (a stable insertion sort). *)
Fixpoint insert_by_slot (slot : Z -> Z) (d : Z) (l : list Z) : list Z :=
  match l with
  | [] => [d]
  | e :: l' =>
      if slot d <? slot e then d :: l else e :: insert_by_slot slot d l'
  end.

Definition by_slot (slot : Z -> Z) (l : list Z) : list Z :=
  fold_right (insert_by_slot slot) [] l.

(** The slots of the hash tables of the difference sets: [slot_of a b d]
    is the slot of [d] in the table of [a - b]. *)
Record SetSlots : Type := { slot_of : list Z -> list Z -> Z -> Z }.

(** The position of [d] in [l]. *)
Fixpoint index_of (d : Z) (l : list Z) : Z :=
  match l with
  | [] => 0
  | e :: l' => if d =? e then 0 else 1 + index_of d l'
  end.

(** The slots of a table that is iterated in the order of [l]. *)
Definition slots_in_order (l : list Z) : SetSlots :=
  {| slot_of := fun _ _ d => index_of d l |}.

(** Two slot assignments.  In a table with more slots than the largest
    element, every integer is in the slot of its own value.  In the table
    of eight slots that CPython gives a new set of at most four elements,
    an integer [d] without a collision is in slot [d & 7]. *)
Definition slots_of_value : SetSlots := {| slot_of := fun _ _ d => d |}.

Definition slots_of_eight : SetSlots := {| slot_of := fun _ _ d => Z.land d 7 |}.

Section SetOrder.

(** [a - b] is a new set with a hash table of its own; the slot of an
    element depends on the size of that table and on the elements inserted
    before it, so the order of iteration need not be the increasing one:
    [set(range(9)) - {0, 1, 2, 3, 4}] is iterated as 8, 5, 6, 7.  The slots
    are a parameter of the model, and every order of the elements is that
    of some slots ([every_order_has_slots]). *)
Variable slots : SetSlots.
#[local] Set Default Proof Using "Type".

(** [a - b] on sets, in the order of iteration. *)
Definition set_difference (a b : list Z) : list Z :=
  by_slot (slot_of slots a b) (not_in a b).

(** ** The assertion emitters *)

(** [_insert_assert_async(self, operator, l, r, assert_msg)] *)
Definition _insert_assert_async (operator : Target) (l r : Argument)
    (assert_msg : string) : M unit :=
  cmp <- super_call_operator operator [l; r];;
  cmp_tensor <- super_call_operator aten_scalar_tensor_default [ArgProxy cmp];;
  _ <- super_call_operator aten__assert_async_msg [ArgProxy cmp_tensor; ArgStr assert_msg];;
  pure tt.

(** [_assert_range_constraint(self, proxy, lower, upper, assert_msg, low_threshold)] *)
Definition _assert_range_constraint (proxy : nat) (lower upper : bound)
    (assert_msg : string) (low_threshold : Z) : M unit :=
  (if bound_ltb (Fin low_threshold) lower
   then _insert_assert_async operator_ge (ArgProxy proxy) (ArgNum lower) assert_msg
   else pure tt);;
  (if bound_ltb upper Inf
   then _insert_assert_async operator_le (ArgProxy proxy) (ArgNum upper) assert_msg
   else pure tt).

(** [_assert_equality_constraint(self, proxy1, proxy2, assert_msg)] *)
Definition _assert_equality_constraint (proxy1 proxy2 : nat)
    (assert_msg : string) : M unit :=
  _insert_assert_async operator_eq (ArgProxy proxy1) (ArgProxy proxy2) assert_msg.

Definition specialized_msg (name : string) (dim value : Z) : string :=
  ("Input " ++ name ++ "'s dimension #" ++ str_int dim ++ " size is "
   ++ "specialized at " ++ str_int value)%string.

Definition range_msg (name : string) (dim : Z) (min_val max_val : bound) : string :=
  ("Input " ++ name ++ "'s dimension #" ++ str_int dim ++ " size is "
   ++ "outside of specified dynamic range [" ++ str_bound min_val ++ ", "
   ++ str_bound max_val ++ "]")%string.

Definition equality_msg (name : string) (dim : Z) (other_name : string)
    (other_dim : Z) : string :=
  ("Input " ++ name ++ "'s dimension #" ++ str_int dim ++ " size is "
   ++ "not equal to input " ++ other_name ++ "'s dimension #"
   ++ str_int other_dim)%string.

(** [_insert_specialized_shapes_assert(self, arg, dims, name, current_inp)];
    [current_inp] is given by its [shape]. *)
Fixpoint _insert_specialized_shapes_assert (arg : nat) (dims : list Z)
    (name : string) (shapes : list Z) : M unit :=
  match dims with
  | [] => pure tt
  | dim :: dims' =>
      size <- lift (getitem shapes dim);;
      let assert_msg := specialized_msg name dim size in
      dim_node <- super_call_operator aten_sym_size [ArgProxy arg; ArgNum (Fin dim)];;
      eq <- super_call_operator operator_eq [ArgProxy dim_node; ArgNum (Fin size)];;
      tensor_eq <- super_call_operator aten_scalar_tensor_default [ArgProxy eq];;
      _ <- super_call_operator aten__assert_async_msg [ArgProxy tensor_eq; ArgStr assert_msg];;
      _insert_specialized_shapes_assert arg dims' name shapes
  end.

(** ** The placeholder hooks *)

(** [placeholder(self, name, arg, meta)] *)
Definition placeholder (name : string) : M nat :=
  arg <- super_placeholder name;;
  self <- get_self;;
  if negb (dict_mem String.eqb name (input_name_to_example_inputs self))
  then pure arg
  else
    modify (fun s => set_input_name_to_args
                       (dict_set String.eqb name arg (input_name_to_args s)) s);;
    pure arg.

(** A deferred equality constraint: [(constraint, name, dim)]. *)
Definition deferred : Type := ConstraintSpec * string * nat.

(** [for constraint in constraints: ...] of [postprocess_placeholders];
    returns [constrained_dims] and [equality_constraints]. *)
Fixpoint constraints_loop (name : string) (arg : nat) (cs : list ConstraintSpec)
    (constrained_dims : list Z) (equality_constraints : list deferred)
    : M (list Z * list deferred) :=
  match cs with
  | [] => pure (constrained_dims, equality_constraints)
  | constraint :: cs' =>
      let constrained_dims := set_add (constraint_dim constraint) constrained_dims in
      dim <- super_call_operator aten_sym_size
               [ArgProxy arg; ArgNum (Fin (constraint_dim constraint))];;
      match constraint with
      | RangeConstraintSpec d min_val max_val =>
          let assert_msg := range_msg name d min_val max_val in
          _assert_range_constraint dim min_val max_val assert_msg 2;;
          constraints_loop name arg cs' constrained_dims equality_constraints
      | EqualityConstraintSpec _ _ _ =>
          constraints_loop name arg cs' constrained_dims
            (equality_constraints ++ [(constraint, name, dim)])
      end
  end.

(** [for name, arg in self.input_name_to_args.items(): ...]; [inl arg] when
    the loop is left by [return arg], [inr equality_constraints] when it
    runs to its end. [name not in self.constraints] and
    [self.constraints[name]] are one lookup. *)
Fixpoint inputs_loop (items : list (string * nat))
    (equality_constraints : list deferred) : M (nat + list deferred) :=
  match items with
  | [] => pure (inr equality_constraints)
  | (name, arg) :: items' =>
      self <- get_self;;
      match dict_get String.eqb name (input_name_to_example_inputs self) with
      | None => raise (KeyError name)
      | Some current_inp =>
          let all_dims := range_set (List.length current_inp) in
          match dict_get String.eqb name (constraints self) with
          | None =>
              _insert_specialized_shapes_assert arg all_dims name current_inp;;
              pure (inl arg)
          | Some cs =>
              r <- constraints_loop name arg cs [] equality_constraints;;
              let specialized_dims := set_difference all_dims (fst r) in
              _insert_specialized_shapes_assert arg specialized_dims name current_inp;;
              inputs_loop items' (snd r)
          end
      end
  end.

(** [for constraint, name, dim in equality_constraints: ...] *)
Fixpoint equality_loop (equality_constraints : list deferred) : M unit :=
  match equality_constraints with
  | [] => pure tt
  | (constraint, name, dim) :: rest =>
      match constraint with
      | RangeConstraintSpec _ _ _ => raise (AttributeError "other_name")
      | EqualityConstraintSpec d other_name other_dim =>
          self <- get_self;;
          match dict_get String.eqb other_name (input_name_to_args self) with
          | None => raise (KeyError other_name)
          | Some other_arg =>
              other_dim_node <- super_call_operator aten_sym_size
                                  [ArgProxy other_arg; ArgNum (Fin other_dim)];;
              let assert_msg := equality_msg name d other_name other_dim in
              _assert_equality_constraint dim other_dim_node assert_msg;;
              equality_loop rest
          end
      end
  end.

(** [postprocess_placeholders(self)]: [Some arg] for [return arg], [None]
    when the body runs to its end. *)
Definition postprocess_placeholders : M (option nat) :=
  self <- get_self;;
  match current_gm self with
  | None => raise AssertionError
  | Some _ =>
      r <- inputs_loop (input_name_to_args self) [];;
      match r with
      | inl arg => pure (Some arg)
      | inr equality_constraints =>
          equality_loop equality_constraints;;
          pure None
      end
  end.

(** ** Assertions for inline constraints *)

(** A callback of [add_assertions], called as [cb(proxy=..., assert_msg=...)]. *)
Definition callback : Type := nat -> string -> M unit.

(** The names the class body binds, and the fields [__init__] and [call] set. *)
Definition class_attributes : list string :=
  ["__init__"; "_process_shape_constraints"; "call";
   "_insert_specialized_shapes_assert"; "placeholder";
   "postprocess_placeholders"; "_assert_range_constraint";
   "_assert_equality_constraint"; "_insert_assert_async"; "call_operator";
   "current_gm"; "constraints"; "input_name_to_example_inputs";
   "inline_constraints"; "input_name_to_args"].

(** [getattr(self, attr)], as the callable the pass applies to
    [(proxy, lower, upper, assert_msg, low_threshold)]. Of the attributes of
    the class only [_assert_range_constraint] takes these parameters; a name
    the class does not bind is no attribute of the object (the base class is
    the pass scaffolding, from which the pass takes [__init__], [call],
    [placeholder] and [call_operator] through [super()]). *)
Definition self_getattr (attr : string)
    : outcome (nat -> bound -> bound -> string -> Z -> M unit) :=
  if String.eqb attr "_assert_range_constraint" then Ok _assert_range_constraint
  else if existsb (String.eqb attr) class_attributes
       then Ok (fun _ _ _ _ _ => raise TypeError)
       else Raise (AttributeError attr).

Definition inline_msg (lower upper : bound) : string :=
  (" is outside of inline constraint [" ++ str_bound lower ++ ", "
   ++ str_bound upper ++ "].")%string.

(** The nested function [sym_size_cb], with [dim] fixed by [partial]. Its
    body refers to the variable [cb] of the enclosing call of
    [add_assertions], read when the callback runs. *)
Definition sym_size_cb (cb : callback) (dim : Z) : callback :=
  fun proxy assert_msg =>
    dim_proxy <- super_call_operator aten_sym_size [ArgProxy proxy; ArgNum (Fin dim)];;
    cb dim_proxy assert_msg.

(** The value of the variable [cb] once the loops of a call of
    [add_assertions] have run: the callback bound last, if any was. *)
Definition final_cb (found : list (Z * callback * string)) : option callback :=
  match rev found with
  | [] => None
  | (_, cb, _) :: _ => Some cb
  end.

(** [for i, sym in enumerate(val.shape): ...] of [add_assertions], from
    index [i] on: the callbacks and messages found for the dimensions, each
    with the index of its dimension; [add_assertions] is the recursive
    call. *)
Section ShapeLoop.
Variable add_assertions : Val -> outcome (list callback * list string).

Fixpoint shape_loop (i : Z) (shape : list Val)
    : outcome (list (Z * callback * string)) :=
  match shape with
  | [] => Ok []
  | sym :: rest =>
      (try! r <- add_assertions sym;
       try! more <- shape_loop (i + 1) rest;
       Ok (map (fun cm => (i, fst cm, snd cm)) (combine (fst r) (snd r)) ++ more))%outcome
  end.
End ShapeLoop.

(** The nested function [add_assertions(val)] of [call_operator]; [attr] is
    the name of the attribute of [self] the scalar branch takes the range
    assertion from, [inline] is [self.inline_constraints]. The callbacks
    run after the call has returned, so every [sym_size_cb] of one call
    reads the same, final, [cb]. *)
Fixpoint add_assertions (attr : string)
    (inline : list (sympy_expr * (sympy_expr * sympy_expr))) (val : Val)
    {struct val} : outcome (list callback * list string) :=
  match val with
  | SymInt expr | SymFloat expr | SymBool expr =>
      match dict_get sympy_eqb expr inline with
      | Some constraint =>
          (try! lower <- _convert_to_int (fst constraint);
           try! upper <- _convert_to_int (snd constraint);
           let assert_msg := inline_msg lower upper in
           try! method <- self_getattr attr;
           Ok ([fun proxy assert_msg => method proxy lower upper assert_msg (-1)],
               [assert_msg]))%outcome
      | None => Ok ([], [])
      end
  | Tensor shape =>
      (try! found <- shape_loop (add_assertions attr inline) 0 shape;
       match final_cb found with
       | None => Ok ([], [])
       | Some cb =>
           Ok (map (fun f => sym_size_cb cb (fst (fst f))) found,
               map (fun f => (".shape[" ++ str_int (fst (fst f)) ++ "]" ++ snd f)%string)
                   found)
       end)%outcome
  | Concrete => Ok ([], [])
  end.

(** [for cb, msg in zip(callbacks, messages): cb(proxy=ret, assert_msg=...)] *)
Fixpoint fire_callbacks (ret : nat) (cbs : list (callback * string)) : M unit :=
  match cbs with
  | [] => pure tt
  | (cb, msg) :: rest =>
      cb ret (node_repr ret ++ msg)%string;;
      fire_callbacks ret rest
  end.

(** [call_operator(self, op, args, kwargs, meta)], with the attribute name of
    line 247 as a parameter; [meta_val] is [meta["val"]], if present. *)
Definition call_operator_at (attr : string) (op : Target)
    (arguments : list Argument) (meta_val : option Val) : M nat :=
  ret <- super_call_operator op arguments;;
  match meta_val with
  | Some val =>
      self <- get_self;;
      r <- lift (add_assertions attr (inline_constraints self) val);;
      fire_callbacks ret (combine (fst r) (snd r));;
      pure ret
  | None => pure ret
  end.

(** [call_operator] as the source has it: the scalar branch of
    [add_assertions] reads [self._assert_constraint]. *)
Definition call_operator : Target -> list Argument -> option Val -> M nat :=
  call_operator_at "_assert_constraint".

(** ** The pass *)

Record PassResult : Type := {
  graph_module : list Node;
  modified : bool
}.

Definition map_arg (env : list nat) (a : fx_arg) : Argument :=
  match a with
  | FxNode i => ArgProxy (nth i env 0%nat)
  | FxNum b => ArgNum b
  end.

(** Modelled from the spec: the traversal of [ExportPassBase.call], which is
    not part of the sources (section 4.4): every node after the inputs goes
    through the hook of its kind, in graph order; [env] gives the proxy of
    each node visited so far. *)
Fixpoint run_nodes (nodes : list fx_node) (env : list nat) : M unit :=
  match nodes with
  | [] => pure tt
  | fx_placeholder name :: rest =>
      p <- placeholder name;;
      run_nodes rest (env ++ [p])
  | fx_call_function op fx_args val :: rest =>
      p <- call_operator (other_target op) (map (map_arg env) fx_args) val;;
      run_nodes rest (env ++ [p])
  end.

(** Modelled from the spec: the input phase of [ExportPassBase.call]
    (section 4.4): the input nodes go through [placeholder] in declaration
    order, then [postprocess_placeholders] runs once, then the operations
    follow. *)
Fixpoint run_inputs (nodes : list fx_node) (env : list nat) : M unit :=
  match nodes with
  | fx_placeholder name :: rest =>
      p <- placeholder name;;
      run_inputs rest (env ++ [p])
  | _ =>
      postprocess_placeholders;;
      run_nodes nodes env
  end.

(** Modelled from the spec: [ExportPassBase.call], which is not part of the
    sources: it builds a new graph by the traversal above and returns it
    with the flag that tells a modification. *)
Definition super_call (gm : GraphModule) : M PassResult :=
  modify (set_graph []);;
  run_inputs (gm_nodes gm) [];;
  self <- get_self;;
  pure {| graph_module := graph self; modified := true |}.

(** [call(self, graph_module)] *)
Definition call (gm : GraphModule) : M PassResult :=
  modify (set_current_gm (Some gm));;
  cs <- lift (_process_shape_constraints
                (meta_input_shape_constraints (export_meta gm)));;
  modify (set_constraints cs);;
  modify (set_input_name_to_example_inputs
            (meta_input_name_to_example_inputs (export_meta gm)));;
  modify (set_inline_constraints (meta_inline_constraints (export_meta gm)));;
  modify (set_input_name_to_args []);;
  super_call gm.

(** The pass object after [__init__]. *)
Definition init_self : Self :=
  {| current_gm := None; constraints := [];
     input_name_to_example_inputs := []; inline_constraints := [];
     input_name_to_args := []; graph := [] |}.

(** ** Vocabulary of the statements *)

(** The raw range tuples declared for dimension [dim] of input [name], as
    pairs [(min_val, max_val)], in declaration order. *)
Definition declared_ranges (name : string) (dim : Z)
    (cs : list (string * shape_constraints)) : list (sympy_expr * sympy_expr) :=
  flat_map
    (fun entry =>
       if String.eqb name (fst entry)
       then flat_map
              (fun t => if Z.eqb dim (fst (fst t)) then [(snd (fst t), snd t)] else [])
              (range (snd entry))
       else [])
    cs.

(** [bs] are the converted forms of the raw pairs [es]. *)
Definition converted (es : list (sympy_expr * sympy_expr))
    (bs : list (bound * bound)) : Prop :=
  Forall2
    (fun e b => _convert_to_int (fst e) = Ok (fst b)
                /\ _convert_to_int (snd e) = Ok (snd b))
    es bs.

Definition is_maximum (m : bound) (l : list bound) : Prop :=
  In m l /\ Forall (fun x => bound_leb x m = true) l.

Definition is_minimum (m : bound) (l : list bound) : Prop :=
  In m l /\ Forall (fun x => bound_leb m x = true) l.

(** [table[name]], empty for a missing name. *)
Definition table_get (name : string) (t : constraint_table) : list ConstraintSpec :=
  match dict_get String.eqb name t with
  | Some l => l
  | None => []
  end.

(** The range specifications of a list that govern dimension [dim]. *)
Definition range_specs_on (dim : Z) (cs : list ConstraintSpec) : list ConstraintSpec :=
  filter
    (fun c => match c with
              | RangeConstraintSpec d _ _ => Z.eqb d dim
              | EqualityConstraintSpec _ _ _ => false
              end)
    cs.

(** The converted range pairs grouped under [(name, dim)]. *)
Definition group_get (name : string) (dim : Z) (t : dim_table) : list (bound * bound) :=
  match dict_get Z.eqb dim (dc_range (dim_table_get name t)) with
  | Some l => l
  | None => []
  end.

(** A sympy expression that is neither an [Integer] nor [oo]. *)
Definition non_integer (v : sympy_expr) : Prop :=
  (forall z, v <> Integer z) /\ v <> oo.

(** *** The nodes a method adds to the graph *)

Definition mk_node (t : Target) (a : list Argument) : Node :=
  {| target := t; args := a |}.

(** Comparison, conversion to a scalar tensor, assertion with a message;
    [base] is the proxy of the comparison. *)
Definition assert_async_nodes (base : nat) (operator : Target)
    (l r : Argument) (assert_msg : string) : list Node :=
  [mk_node operator [l; r];
   mk_node aten_scalar_tensor_default [ArgProxy base];
   mk_node aten__assert_async_msg [ArgProxy (S base); ArgStr assert_msg]].

Definition range_nodes (base proxy : nat) (lower upper : bound)
    (assert_msg : string) (low_threshold : Z) : list Node :=
  let lo := if bound_ltb (Fin low_threshold) lower
            then assert_async_nodes base operator_ge (ArgProxy proxy) (ArgNum lower) assert_msg
            else [] in
  lo ++ (if bound_ltb upper Inf
         then assert_async_nodes (base + List.length lo) operator_le
                (ArgProxy proxy) (ArgNum upper) assert_msg
         else []).

(** The specialization assertion of dimension [dim] of the input [arg]:
    the size read, at proxy [base], and its comparison with [size]. *)
Definition specialization_chain (base arg : nat) (name : string)
    (dim size : Z) : list Node :=
  mk_node aten_sym_size [ArgProxy arg; ArgNum (Fin dim)]
  :: assert_async_nodes (S base) operator_eq (ArgProxy base) (ArgNum (Fin size))
       (specialized_msg name dim size).

Fixpoint specialized_nodes (base arg : nat) (dims : list Z) (name : string)
    (shapes : list Z) : list Node :=
  match dims with
  | [] => []
  | dim :: dims' =>
      specialization_chain base arg name dim (nth (Z.to_nat dim) shapes 0)
      ++ specialized_nodes (base + 4) arg dims' name shapes
  end.

(** The nodes of one round of the loop over the constraints of an input. *)
Definition constraint_nodes (base arg : nat) (name : string)
    (c : ConstraintSpec) : list Node :=
  mk_node aten_sym_size [ArgProxy arg; ArgNum (Fin (constraint_dim c))]
  :: match c with
     | RangeConstraintSpec d min_val max_val =>
         range_nodes (S base) base min_val max_val (range_msg name d min_val max_val) 2
     | EqualityConstraintSpec _ _ _ => []
     end.

Fixpoint constraints_nodes (base arg : nat) (name : string)
    (cs : list ConstraintSpec) : list Node :=
  match cs with
  | [] => []
  | c :: cs' =>
      constraint_nodes base arg name c
      ++ constraints_nodes (base + List.length (constraint_nodes base arg name c))
           arg name cs'
  end.

(** The equality constraints the loop over the constraints defers. *)
Fixpoint deferred_of (base arg : nat) (name : string)
    (cs : list ConstraintSpec) : list deferred :=
  match cs with
  | [] => []
  | c :: cs' =>
      match c with
      | RangeConstraintSpec _ _ _ => []
      | EqualityConstraintSpec _ _ _ => [(c, name, base)]
      end
      ++ deferred_of (base + List.length (constraint_nodes base arg name c))
           arg name cs'
  end.

Definition constrained_dims_of (cs : list ConstraintSpec) (init : list Z) : list Z :=
  fold_left (fun acc c => set_add (constraint_dim c) acc) cs init.

(** The nodes of one round of the loop over the inputs, for an input with an
    entry [cs] in the constraint table and the example shape [shapes]: the
    nodes of the constraints, then the specialization assertions of the
    other dimensions, in the order in which their set is iterated. *)
Definition input_nodes (base arg : nat) (name : string)
    (cs : list ConstraintSpec) (shapes : list Z) : list Node :=
  let cn := constraints_nodes base arg name cs in
  cn ++ specialized_nodes (base + List.length cn) arg
          (set_difference (range_set (List.length shapes)) (constrained_dims_of cs []))
          name shapes.

(** The nodes and the deferred equalities of the loop over [items], as long
    as every input has a constraint entry and an example. *)
Fixpoint inputs_nodes (table : constraint_table) (examples : list (string * list Z))
    (base : nat) (items : list (string * nat)) : list Node :=
  match items with
  | [] => []
  | (name, arg) :: rest =>
      match dict_get String.eqb name table, dict_get String.eqb name examples with
      | Some cs, Some shapes =>
          input_nodes base arg name cs shapes
          ++ inputs_nodes table examples
               (base + List.length (input_nodes base arg name cs shapes)) rest
      | _, _ => []
      end
  end.

Fixpoint inputs_deferred (table : constraint_table) (examples : list (string * list Z))
    (base : nat) (items : list (string * nat)) : list deferred :=
  match items with
  | [] => []
  | (name, arg) :: rest =>
      match dict_get String.eqb name table, dict_get String.eqb name examples with
      | Some cs, Some shapes =>
          deferred_of base arg name cs
          ++ inputs_deferred table examples
               (base + List.length (input_nodes base arg name cs shapes)) rest
      | _, _ => []
      end
  end.

(** Every input of [items] has a constraint entry and an example. *)
Definition all_constrained (table : constraint_table)
    (examples : list (string * list Z)) (items : list (string * nat)) : Prop :=
  Forall
    (fun item => dict_get String.eqb (fst item) table <> None
                 /\ dict_get String.eqb (fst item) examples <> None)
    items.

(** A comparison of two size reads: the shape of an equality assertion. *)
Definition is_proxy_equality (n : Node) : bool :=
  match target n, args n with
  | operator_eq, [ArgProxy _; ArgProxy _] => true
  | _, _ => false
  end.

Definition target_eqb (a b : Target) : bool :=
  match a, b with
  | placeholder_target x, placeholder_target y => String.eqb x y
  | aten_sym_size, aten_sym_size => true
  | operator_eq, operator_eq => true
  | operator_ge, operator_ge => true
  | operator_le, operator_le => true
  | aten_scalar_tensor_default, aten_scalar_tensor_default => true
  | aten__assert_async_msg, aten__assert_async_msg => true
  | other_target x, other_target y => String.eqb x y
  | _, _ => false
  end.

(** The number of nodes with target [t]. *)
Definition count_target (t : Target) (nodes : list Node) : nat :=
  List.length (filter (fun n => target_eqb (target n) t) nodes).

(** A node reads proxy [p]. *)
Definition reads (p : nat) (n : Node) : Prop := In (ArgProxy p) (args n).

(** The order [sorted] sorts by: [x] comes no later than [y]. *)
Definition before (reverse : bool) (x y : bound) : bool :=
  if reverse then bound_leb y x else bound_leb x y.

(** The head of a list comes no later than each of its elements. *)
Definition head_first (reverse : bool) (l : list bound) : Prop :=
  match l with
  | [] => True
  | h :: _ => Forall (fun y => before reverse h y = true) l
  end.

(** The keys of a grouped table are distinct, as are the dimensions of
    each of its range groups. *)
Definition wf_dim_table (t : dim_table) : Prop :=
  NoDup (map fst t) /\ Forall (fun e => NoDup (map fst (dc_range (snd e)))) t.

(** The range specifications the merge makes of the groups [rs]. *)
Fixpoint merged_range_specs (rs : list (Z * list (bound * bound))) : list ConstraintSpec :=
  match rs with
  | [] => []
  | (dim, rcs) :: rs' =>
      match rcs with
      | [] => merged_range_specs rs'
      | first :: _ =>
          RangeConstraintSpec dim
            (hd (fst first) (sorted (map fst rcs) true))
            (hd (snd first) (sorted (map snd rcs) false))
          :: merged_range_specs rs'
      end
  end.

(** The equality specifications the merge makes of the groups [es]. *)
Definition equality_specs (es : list (Z * list (string * Z))) : list ConstraintSpec :=
  flat_map
    (fun g => map (fun e => EqualityConstraintSpec (fst g) (fst e) (snd e)) (snd g))
    es.

(** The specifications of one entry of the grouped table. *)
Definition entry_specs (dc : dim_constraints) : list ConstraintSpec :=
  merged_range_specs (dc_range dc) ++ equality_specs (dc_equality dc).

(** A range specification whose bounds are in order; any equality one. *)
Definition spec_consistent (c : ConstraintSpec) : Prop :=
  match c with
  | RangeConstraintSpec _ min_val max_val => bound_leb min_val max_val = true
  | EqualityConstraintSpec _ _ _ => True
  end.

(** [l[k]] on a [defaultdict(list)], without the insertion. *)
Definition list_get {K X : Type} (eqb : K -> K -> bool) (k : K)
    (d : list (K * list X)) : list X :=
  match dict_get eqb k d with
  | Some l => l
  | None => []
  end.

(** The nodes of the loop over the deferred equalities, as long as every
    [other_name] is a registered input; [registered] is
    [self.input_name_to_args]. *)
Fixpoint equality_nodes (registered : list (string * nat)) (base : nat)
    (eqs : list deferred) : list Node :=
  match eqs with
  | [] => []
  | (EqualityConstraintSpec d other_name other_dim, name, dim) :: rest =>
      match dict_get String.eqb other_name registered with
      | Some other_arg =>
          mk_node aten_sym_size [ArgProxy other_arg; ArgNum (Fin other_dim)]
          :: assert_async_nodes (S base) operator_eq (ArgProxy dim) (ArgProxy base)
               (equality_msg name d other_name other_dim)
          ++ equality_nodes registered (base + 4) rest
      | None => []
      end
  | (RangeConstraintSpec _ _ _, _, _) :: _ => []
  end.

(** Every deferred constraint is an equality with a registered input. *)
Definition resolvable (registered : list (string * nat)) (eqs : list deferred) : Prop :=
  Forall
    (fun e => match fst (fst e) with
              | EqualityConstraintSpec _ other_name _ =>
                  dict_get String.eqb other_name registered <> None
              | RangeConstraintSpec _ _ _ => False
              end)
    eqs.

(** *** The pass object in the scenarios *)

Definition no_meta : ExportMeta :=
  {| meta_input_shape_constraints := [];
     meta_input_name_to_example_inputs := [];
     meta_inline_constraints := [] |}.

(** The pass object once [call] has set its fields and the inputs
    [registered] have gone through [placeholder], each a node of [g]. *)
Definition at_postprocess (table : constraint_table)
    (examples : list (string * list Z)) (registered : list (string * nat))
    (g : list Node) : Self :=
  {| current_gm := Some {| gm_nodes := []; export_meta := no_meta |};
     constraints := table;
     input_name_to_example_inputs := examples;
     inline_constraints := [];
     input_name_to_args := registered;
     graph := g |}.

(** Scenario A with a second input: [x] has no constraints and the example
    shape [(3, 4)]; [y] has a range constraint on dimension 0. *)
Definition scenario_A : Self :=
  at_postprocess
    [("y", [RangeConstraintSpec 0 (Fin 3) (Fin 10)])]
    [("x", [3; 4]); ("y", [5; 6])]
    [("x", 0%nat); ("y", 1%nat)]
    [mk_node (placeholder_target "x") []; mk_node (placeholder_target "y") []].

(** Scenario C: [x] is constrained to equal [y] on dimension 0; [y] has no
    constraints of its own. *)
Definition scenario_C : Self :=
  at_postprocess
    [("x", [EqualityConstraintSpec 0 "y" 0])]
    [("x", [3; 4]); ("y", [3])]
    [("x", 0%nat); ("y", 1%nat)]
    [mk_node (placeholder_target "x") []; mk_node (placeholder_target "y") []].

(** Scenario D: the inline-constraint table gives the symbol [i0] the bounds
    [[1, 10]]; an operation returns a tensor whose dimension 2 is [i0]. *)
Definition scenario_D : Self :=
  set_inline_constraints [(Symbol "i0", (Integer 1, Integer 10))] init_self.

Definition scenario_D_val : Val := Tensor [Concrete; Concrete; SymInt (Symbol "i0")].

(** [b > t] for an int or [math.inf] [b] and an int [t]. *)
Definition exceeds (b : bound) (t : Z) : Prop :=
  match b with
  | Fin z => t < z
  | Inf => True
  end.

(** [b] is an int, not [math.inf]. *)
Definition finite (b : bound) : Prop := exists z, b = Fin z.

(** Every registered input has an example and is a node of the graph: what
    [placeholder] keeps true of the pass object. *)
Definition registered_ok (s : Self) : Prop :=
  Forall
    (fun item =>
       dict_get String.eqb (fst item) (input_name_to_example_inputs s) <> None
       /\ (snd item < List.length (graph s))%nat)
    (input_name_to_args s).

(** One input [x] with the example shape [(3, 4)] has gone through
    [placeholder]; [w] is an input without an example. *)
Definition scenario_no_example : Self :=
  at_postprocess [] [("x", [3; 4])] [("x", 0%nat)]
    [mk_node (placeholder_target "x") []].

(** An inline constraint whose lower bound is a symbol, not an integer. *)
Definition scenario_bad_inline : Self :=
  set_inline_constraints [(Symbol "i0", (Symbol "s0", Integer 10))] init_self.

(** A graph whose input [x] has the ranges [[2, 4]] and [[5, 10]] declared
    for dimension 0. *)
Definition scenario_inverted : GraphModule :=
  {| gm_nodes := [fx_placeholder "x"];
     export_meta :=
       {| meta_input_shape_constraints :=
            [("x", {| range := [(0, Integer 2, Integer 4); (0, Integer 5, Integer 10)];
                      equality := [] |})];
          meta_input_name_to_example_inputs := [("x", [3; 4])];
          meta_inline_constraints := [] |} |}.

(** A graph with an input [x] without constraints and an operation whose
    value is a symbol with a non-integer inline bound. *)
Definition scenario_bad_inline_graph : GraphModule :=
  {| gm_nodes := [fx_placeholder "x";
                  fx_call_function "op" [FxNode 0] (Some (SymInt (Symbol "i0")))];
     export_meta :=
       {| meta_input_shape_constraints := [];
          meta_input_name_to_example_inputs := [("x", [3])];
          meta_inline_constraints := [(Symbol "i0", (Symbol "s0", Integer 10))] |} |}.

(** Two symbols with different inline bounds, the two dimensions of one
    tensor. *)
Definition scenario_two_symbols : Self :=
  set_inline_constraints
    [(Symbol "i0", (Integer 1, Integer 10)); (Symbol "i1", (Integer 4, Integer 7))]
    init_self.

(** Scenario A with the inputs in the other order: [y], constrained, is
    registered before [x]. *)
Definition scenario_A_swapped : Self :=
  at_postprocess
    [("y", [RangeConstraintSpec 0 (Fin 3) (Fin 10)])]
    [("x", [3; 4]); ("y", [5; 6])]
    [("y", 0%nat); ("x", 1%nat)]
    [mk_node (placeholder_target "y") []; mk_node (placeholder_target "x") []].

(** Scenario C where [y] has a range constraint of its own. *)
Definition scenario_C_both : Self :=
  at_postprocess
    [("x", [EqualityConstraintSpec 0 "y" 0]); ("y", [RangeConstraintSpec 0 (Fin 2) Inf])]
    [("x", [3; 4]); ("y", [3])]
    [("x", 0%nat); ("y", 1%nat)]
    [mk_node (placeholder_target "x") []; mk_node (placeholder_target "y") []].

(** C8 as stated, for a computation [m]: when [m] raises the non-integer
    error, the graph is as it was. *)
Definition raises_before_mutation {A : Type} (m : M A) : Prop :=
  forall s, fst (m s) = Raise non_integer_error -> graph (snd (m s)) = graph s.

(** *** Vocabulary of the further properties *)

(** The raw equality tuples declared for dimension [dim] of input [name],
    as pairs [(other_name, other_dim)], in declaration order. *)
Definition declared_equalities (name : string) (dim : Z)
    (cs : list (string * shape_constraints)) : list (string * Z) :=
  flat_map
    (fun entry =>
       if String.eqb name (fst entry)
       then flat_map
              (fun t => if Z.eqb dim (fst (fst t)) then [(snd (fst t), snd t)] else [])
              (equality (snd entry))
       else [])
    cs.

(** The equality specifications of a list that govern dimension [dim]. *)
Definition equality_specs_on (dim : Z) (cs : list ConstraintSpec) : list ConstraintSpec :=
  filter
    (fun c => match c with
              | RangeConstraintSpec _ _ _ => false
              | EqualityConstraintSpec d _ _ => Z.eqb d dim
              end)
    cs.

(** The equality pairs grouped under [(name, dim)]. *)
Definition equality_group_get (name : string) (dim : Z) (t : dim_table)
    : list (string * Z) :=
  list_get Z.eqb dim (dc_equality (dim_table_get name t)).

(** The dimensions of each equality group of a grouped table are distinct. *)
Definition wf_equality_table (t : dim_table) : Prop :=
  Forall (fun e => NoDup (map fst (dc_equality (snd e)))) t.

(** Every group of a grouped table holds a pair. *)
Definition groups_inhabited (t : dim_table) : Prop :=
  Forall
    (fun e => Forall (fun g => snd g <> []) (dc_range (snd e))
              /\ Forall (fun g => snd g <> []) (dc_equality (snd e)))
    t.

(** Input [name] has a range or an equality tuple declared. *)
Definition has_tuples (name : string) (cs : list (string * shape_constraints)) : Prop :=
  exists sc, In (name, sc) cs /\ (range sc <> [] \/ equality sc <> []).

(** Every declared range bound is an [Integer] or [oo]. *)
Definition all_convert (cs : list (string * shape_constraints)) : Prop :=
  forall name sc x, In (name, sc) cs -> In x (range sc) ->
    exists lo hi, _convert_to_int (snd (fst x)) = Ok lo
                  /\ _convert_to_int (snd x) = Ok hi.

(** The range tuples declared for [(name, dim)] merge to an empty range: the
    maximum of the lower bounds exceeds the minimum of the upper bounds. *)
Definition inverted (name : string) (dim : Z)
    (cs : list (string * shape_constraints)) : Prop :=
  exists bs min_val max_val,
    converted (declared_ranges name dim cs) bs
    /\ is_maximum min_val (map fst bs)
    /\ is_minimum max_val (map snd bs)
    /\ bound_ltb max_val min_val = true.

Definition is_range (c : ConstraintSpec) : Prop :=
  match c with
  | RangeConstraintSpec _ _ _ => True
  | EqualityConstraintSpec _ _ _ => False
  end.

Definition is_equality (c : ConstraintSpec) : Prop :=
  match c with
  | RangeConstraintSpec _ _ _ => False
  | EqualityConstraintSpec _ _ _ => True
  end.
(** The keys of a constraint table are distinct and every entry holds a
    specification: what the merge keeps true of the table it builds. *)
Definition table_ok (out : constraint_table) : Prop :=
  NoDup (map fst out) /\ Forall (fun e => snd e <> []) out.

(** Declared constraints: [x] has two ranges on dimension 0 and three
    equalities, [y] has empty lists. *)
Definition scenario_mixed : list (string * shape_constraints) :=
  [("x", {| range := [(0, Integer 2, Integer 8); (0, Integer 5, Integer 10)];
            equality := [(0, "y", 0); (1, "y", 1); (0, "z", 0)] |});
   ("y", {| range := []; equality := [] |})].

Definition scenario_mixed_table : constraint_table :=
  [("x", [RangeConstraintSpec 0 (Fin 5) (Fin 8);
          EqualityConstraintSpec 0 "y" 0;
          EqualityConstraintSpec 0 "z" 0;
          EqualityConstraintSpec 1 "y" 1])].

(** The nodes [nodes], added to a graph from position [base] on, read only
    nodes that come before them. *)
Fixpoint scoped_from (base : nat) (nodes : list Node) : Prop :=
  match nodes with
  | [] => True
  | n :: rest => (forall p, reads p n -> (p < base)%nat) /\ scoped_from (S base) rest
  end.

(** A value descriptor holds a symbol with an entry in the inline-constraint
    table, as a scalar or as a dimension. *)
Fixpoint mentions_inline (inline : list (sympy_expr * (sympy_expr * sympy_expr)))
    (val : Val) : bool :=
  match val with
  | SymInt expr | SymFloat expr | SymBool expr => dict_mem sympy_eqb expr inline
  | Tensor shape => existsb (mentions_inline inline) shape
  | Concrete => false
  end.

(** The input [x] is constrained to equal dimension 0 of [w], which is no
    registered input; before that, dimension 1 of [x] equals its own
    dimension 0. *)
Definition scenario_unresolved : Self :=
  at_postprocess
    [("x", [EqualityConstraintSpec 1 "x" 0; EqualityConstraintSpec 0 "w" 0])]
    [("x", [3; 3])]
    [("x", 0%nat)]
    [mk_node (placeholder_target "x") []].

(** What [add_assertions] does with a value, by the symbols it holds. *)
Definition inline_outcome (inline : list (sympy_expr * (sympy_expr * sympy_expr)))
    (val : Val) : Prop :=
  (mentions_inline inline val = false ->
   add_assertions "_assert_constraint" inline val = Ok ([], []))
  /\ (mentions_inline inline val = true ->
      exists e,
        (e = non_integer_error \/ e = AttributeError "_assert_constraint")
        /\ add_assertions "_assert_constraint" inline val = Raise e).

(** The comparisons the pass asserts. *)
Definition is_comparison (t : Target) : Prop :=
  t = operator_eq \/ t = operator_ge \/ t = operator_le.

(** Nodes added from position [base] on that are size reads and whole
    assertions: a comparison, the scalar tensor of that comparison and the
    assertion of that scalar tensor, one after the other. *)
Inductive assertion_blocks : nat -> list Node -> Prop :=
| blocks_nil base : assertion_blocks base []
| blocks_size base arg d rest :
    assertion_blocks (S base) rest ->
    assertion_blocks base (mk_node aten_sym_size [ArgProxy arg; ArgNum (Fin d)] :: rest)
| blocks_assert base operator l r assert_msg rest :
    is_comparison operator ->
    assertion_blocks (base + 3) rest ->
    assertion_blocks base (assert_async_nodes base operator l r assert_msg ++ rest).

(** An input [x] of nine dimensions: the dimensions 0 to 3 have the range
    [[2, inf]], which asks for no assertion, and dimension 4 is constrained
    to equal dimension 0.  [x] is registered before [y], which has no
    constraints, and [z]. *)
Definition nine_constraints : list ConstraintSpec :=
  [RangeConstraintSpec 0 (Fin 2) Inf; RangeConstraintSpec 1 (Fin 2) Inf;
   RangeConstraintSpec 2 (Fin 2) Inf; RangeConstraintSpec 3 (Fin 2) Inf;
   EqualityConstraintSpec 4 "x" 0].

Definition scenario_nine : Self :=
  at_postprocess
    [("x", nine_constraints); ("z", [RangeConstraintSpec 0 (Fin 3) (Fin 10)])]
    [("x", [2; 3; 4; 5; 6; 7; 8; 9; 10]); ("y", [3]); ("z", [5])]
    [("x", 0%nat); ("y", 1%nat); ("z", 2%nat)]
    [mk_node (placeholder_target "x") []; mk_node (placeholder_target "y") [];
     mk_node (placeholder_target "z") []].

(** The same input [x], the only input. *)
Definition scenario_nine_alone : Self :=
  at_postprocess
    [("x", nine_constraints)]
    [("x", [2; 3; 4; 5; 6; 7; 8; 9; 10])]
    [("x", 0%nat)]
    [mk_node (placeholder_target "x") []].

(** The input [x] of nine dimensions, with dimension 5 constrained to equal
    dimension 0 of [w], which is no registered input. *)
Definition scenario_nine_unresolved : Self :=
  at_postprocess
    [("x", nine_constraints ++ [EqualityConstraintSpec 5 "w" 0])]
    [("x", [2; 3; 4; 5; 6; 7; 8; 9; 10])]
    [("x", 0%nat)]
    [mk_node (placeholder_target "x") []].

(** * Properties *)

(** ** Bounds and sorting *)

Lemma bound_leb_refl (a : bound) : bound_leb a a = true.
Proof. destruct a; simpl; [apply Z.leb_refl | reflexivity]. Qed.

Lemma bound_leb_total (a b : bound) : bound_leb a b = true \/ bound_leb b a = true.
Proof.
  destruct a as [x|], b as [y|]; simpl; auto.
  destruct (Z.leb_spec x y); [left | right; apply Z.leb_le; lia]; reflexivity.
Qed.

Lemma bound_leb_trans (a b c : bound) :
  bound_leb a b = true -> bound_leb b c = true -> bound_leb a c = true.
Proof.
  destruct a as [x|], b as [y|], c as [z|]; simpl; try congruence.
  rewrite !Z.leb_le; lia.
Qed.

Lemma bound_leb_antisym (a b : bound) :
  bound_leb a b = true -> bound_leb b a = true -> a = b.
Proof.
  destruct a as [x|], b as [y|]; simpl; try congruence.
  rewrite !Z.leb_le; intros; f_equal; lia.
Qed.

Lemma bound_ltb_not_leb (a b : bound) : bound_ltb a b = negb (bound_leb b a).
Proof.
  destruct a as [x|], b as [y|]; simpl; try reflexivity.
  apply Z.ltb_antisym.
Qed.

Lemma is_maximum_unique (m m' : bound) (l : list bound) :
  is_maximum m l -> is_maximum m' l -> m = m'.
Proof.
  intros [Hin Hall] [Hin' Hall'].
  rewrite Forall_forall in Hall, Hall'.
  apply bound_leb_antisym; auto.
Qed.

Lemma is_minimum_unique (m m' : bound) (l : list bound) :
  is_minimum m l -> is_minimum m' l -> m = m'.
Proof.
  intros [Hin Hall] [Hin' Hall'].
  rewrite Forall_forall in Hall, Hall'.
  apply bound_leb_antisym; auto.
Qed.

Lemma before_refl reverse x : before reverse x x = true.
Proof. destruct reverse; apply bound_leb_refl. Qed.

Lemma before_total reverse x y :
  before reverse x y = true \/ before reverse y x = true.
Proof. destruct reverse; simpl; apply bound_leb_total. Qed.

Lemma before_trans reverse x y z :
  before reverse x y = true -> before reverse y z = true -> before reverse x z = true.
Proof. destruct reverse; simpl; eauto using bound_leb_trans. Qed.

Lemma sorted_insert_In reverse x l y :
  In y (sorted_insert reverse x l) <-> y = x \/ In y l.
Proof.
  induction l as [|z l IH]; simpl.
  - intuition.
  - destruct (if reverse then bound_leb z x else bound_leb x z); simpl.
    + intuition.
    + rewrite IH. intuition.
Qed.

Lemma sorted_In l reverse y : In y (sorted l reverse) <-> In y l.
Proof.
  induction l as [|x l IH]; simpl.
  - reflexivity.
  - unfold sorted in *. simpl. rewrite sorted_insert_In, IH. intuition.
Qed.

Lemma sorted_insert_head_first reverse x l :
  head_first reverse l -> head_first reverse (sorted_insert reverse x l).
Proof.
  destruct l as [|h l]; simpl; intros H.
  - constructor; [apply before_refl | constructor].
  - change (if reverse then bound_leb h x else bound_leb x h) with (before reverse x h).
    destruct (before reverse x h) eqn:E; simpl.
    + constructor; [apply before_refl |].
      eapply Forall_impl; [| exact H].
      intros y Hy. eapply before_trans; eauto.
    + assert (Hhx : before reverse h x = true)
        by (destruct (before_total reverse h x); congruence).
      inversion H as [|? ? Hh Hl]; subst.
      constructor; [exact Hh |].
      apply Forall_forall. intros y Hy.
      apply sorted_insert_In in Hy. destruct Hy as [-> | Hy]; [exact Hhx |].
      rewrite Forall_forall in Hl. auto.
Qed.

Lemma sorted_head_first l reverse : head_first reverse (sorted l reverse).
Proof.
  induction l as [|x l IH]; [exact I |].
  unfold sorted in *. simpl. apply sorted_insert_head_first, IH.
Qed.

(** [sorted(l, reverse=...)[0]] for a non-empty [l]: a first element of [l]
    in the order sorted by. *)
Lemma sorted_hd l reverse d :
  l <> [] ->
  In (hd d (sorted l reverse)) l
  /\ Forall (fun y => before reverse (hd d (sorted l reverse)) y = true) l.
Proof.
  intros Hne.
  pose proof (sorted_head_first l reverse) as Hh.
  destruct (sorted l reverse) as [|h s] eqn:E.
  - destruct l as [|x l]; [congruence |].
    assert (Hx : In x (sorted (x :: l) reverse)) by (apply sorted_In; left; reflexivity).
    rewrite E in Hx. destruct Hx.
  - simpl in *. split.
    + apply (sorted_In l reverse). rewrite E. left; reflexivity.
    + apply Forall_forall. intros y Hy.
      apply (sorted_In l reverse) in Hy. rewrite E in Hy.
      rewrite Forall_forall in Hh. auto.
Qed.

Lemma sorted_reverse_hd_maximum l d :
  l <> [] -> is_maximum (hd d (sorted l true)) l.
Proof. intros H. exact (sorted_hd l true d H). Qed.

Lemma sorted_hd_minimum l d :
  l <> [] -> is_minimum (hd d (sorted l false)) l.
Proof. intros H. exact (sorted_hd l false d H). Qed.

(** ** Dictionaries *)

Section DictFacts.
Context {K V : Type} (eqb : K -> K -> bool).
Hypothesis eqb_eq : forall a b, eqb a b = true <-> a = b.
#[local] Unset Default Proof Using.

Lemma eqb_refl' k : eqb k k = true.
Proof. apply eqb_eq; reflexivity. Qed.

Lemma eqb_neq k k' : k <> k' -> eqb k k' = false.
Proof.
  intros H. destruct (eqb k k') eqn:E; [| reflexivity].
  apply eqb_eq in E. contradiction.
Qed.

Lemma dict_get_set_same k (v : V) d : dict_get eqb k (dict_set eqb k v d) = Some v.
Proof.
  induction d as [|[k' v'] d IH]; simpl.
  - now rewrite eqb_refl'.
  - destruct (eqb k k') eqn:E; simpl; rewrite ?eqb_refl', ?E; auto.
Qed.

Lemma dict_get_set_other k k' (v : V) d :
  k <> k' -> dict_get eqb k' (dict_set eqb k v d) = dict_get eqb k' d.
Proof.
  intros Hne. induction d as [|[k0 v0] d IH]; simpl.
  - rewrite eqb_neq; auto.
  - destruct (eqb k k0) eqn:E; simpl.
    + apply eqb_eq in E; subst k0. rewrite eqb_neq; auto.
    + now rewrite IH.
Qed.

Lemma dict_set_keys k (v : V) d k' :
  In k' (map fst (dict_set eqb k v d)) <-> k' = k \/ In k' (map fst d).
Proof.
  induction d as [|[k0 v0] d IH]; simpl.
  - intuition.
  - destruct (eqb k k0) eqn:E; simpl.
    + apply eqb_eq in E; subst. intuition.
    + rewrite IH. intuition.
Qed.

Lemma dict_set_NoDup k (v : V) d :
  NoDup (map fst d) -> NoDup (map fst (dict_set eqb k v d)).
Proof.
  induction d as [|[k0 v0] d IH]; simpl; intros H.
  - constructor; [intros [] | constructor].
  - inversion H as [|? ? Hn Hd]; subst.
    destruct (eqb k k0) eqn:E; simpl.
    + apply eqb_eq in E; subst. constructor; auto.
    + constructor; [| auto].
      rewrite dict_set_keys. intros [-> | Hin]; [| contradiction].
      rewrite eqb_refl' in E. discriminate.
Qed.

Lemma dict_set_Forall (P : K * V -> Prop) k v d :
  Forall P d -> P (k, v) -> Forall P (dict_set eqb k v d).
Proof.
  intros H Hk. induction H as [|[k0 v0] d H0 Hd IH]; simpl.
  - constructor; auto.
  - destruct (eqb k k0); constructor; auto.
Qed.

Lemma dict_get_In k (v : V) d : dict_get eqb k d = Some v -> In (k, v) d.
Proof.
  induction d as [|[k0 v0] d IH]; simpl; [discriminate |].
  destruct (eqb k k0) eqn:E.
  - apply eqb_eq in E; subst. intros [= ->]. now left.
  - intros H. right; auto.
Qed.

Lemma dict_get_None k (d : list (K * V)) :
  dict_get eqb k d = None <-> ~ In k (map fst d).
Proof.
  induction d as [|[k0 v0] d IH]; simpl.
  - intuition.
  - destruct (eqb k k0) eqn:E.
    + apply eqb_eq in E; subst. split; [discriminate | intros H; exfalso; auto].
    + rewrite IH. split.
      * intros H [<- | Hin]; [rewrite eqb_refl' in E; discriminate | auto].
      * intros H Hin. apply H. now right.
Qed.

Lemma dict_get_Forall (P : K * V -> Prop) k v d :
  Forall P d -> dict_get eqb k d = Some v -> P (k, v).
Proof.
  intros H Hg. apply dict_get_In in Hg. rewrite Forall_forall in H. auto.
Qed.

(** Over distinct keys, collecting by key is a lookup. *)
Lemma flat_map_key {X : Type} (f : V -> list X) k d :
  NoDup (map fst d) ->
  flat_map (fun e => if eqb k (fst e) then f (snd e) else []) d
  = match dict_get eqb k d with Some v => f v | None => [] end.
Proof.
  induction d as [|[k0 v0] d IH]; simpl; intros H; [reflexivity |].
  inversion H as [|? ? Hn Hd]; subst.
  destruct (eqb k k0) eqn:E.
  - apply eqb_eq in E; subst.
    rewrite IH by assumption.
    apply dict_get_None in Hn. rewrite Hn. apply app_nil_r.
  - simpl. auto.
Qed.
End DictFacts.

Section ListDictFacts.
Context {K X : Type} (eqb : K -> K -> bool).
Hypothesis eqb_eq : forall a b, eqb a b = true <-> a = b.
#[local] Unset Default Proof Using.

Lemma list_get_append k (x : X) d k' :
  list_get eqb k' (dict_append eqb k x d)
  = list_get eqb k' d ++ (if eqb k' k then [x] else []).
Proof.
  unfold list_get, dict_append.
  destruct (eqb k' k) eqn:E.
  - apply eqb_eq in E; subst k'.
    destruct (dict_get eqb k d) eqn:G; now rewrite dict_get_set_same.
  - assert (Hne : k <> k').
    { intros ->. rewrite (proj2 (eqb_eq k' k') eq_refl) in E. discriminate. }
    destruct (dict_get eqb k d); rewrite dict_get_set_other by assumption;
      now rewrite app_nil_r.
Qed.

Lemma dict_append_NoDup k (x : X) d :
  NoDup (map fst d) -> NoDup (map fst (dict_append eqb k x d)).
Proof.
  unfold dict_append. destruct (dict_get eqb k d); now apply dict_set_NoDup.
Qed.
End ListDictFacts.

(** ** Grouping the raw constraints *)

Lemma split_map {A B : Type} (l : list (A * B)) : split l = (map fst l, map snd l).
Proof.
  induction l as [|[a b] l IH]; simpl; [reflexivity |].
  now rewrite IH.
Qed.

Lemma dim_table_get_set name dc t n :
  dim_table_get n (dict_set String.eqb name dc t)
  = if String.eqb n name then dc else dim_table_get n t.
Proof.
  unfold dim_table_get. destruct (String.eqb n name) eqn:E.
  - apply String.eqb_eq in E; subst. now rewrite (dict_get_set_same _ String.eqb_eq).
  - rewrite (dict_get_set_other _ String.eqb_eq); [reflexivity |].
    intros ->. rewrite String.eqb_refl in E. discriminate.
Qed.

Lemma dim_table_get_NoDup name t :
  wf_dim_table t -> NoDup (map fst (dc_range (dim_table_get name t))).
Proof.
  intros [_ Hall]. unfold dim_table_get.
  destruct (dict_get String.eqb name t) as [dc|] eqn:G; [| constructor].
  exact (dict_get_Forall _ String.eqb_eq _ _ _ _ Hall G).
Qed.

Lemma add_range_wf name dim v t : wf_dim_table t -> wf_dim_table (add_range name dim v t).
Proof.
  intros Hwf. pose proof (dim_table_get_NoDup name t Hwf) as Hd.
  destruct Hwf as [Hk Hall]. unfold add_range. split.
  - now apply (dict_set_NoDup _ String.eqb_eq).
  - apply dict_set_Forall; [assumption |]. simpl.
    now apply (dict_append_NoDup _ Z.eqb_eq).
Qed.

Lemma add_equality_wf name dim v t :
  wf_dim_table t -> wf_dim_table (add_equality name dim v t).
Proof.
  intros Hwf. pose proof (dim_table_get_NoDup name t Hwf) as Hd.
  destruct Hwf as [Hk Hall]. unfold add_equality. split.
  - now apply (dict_set_NoDup _ String.eqb_eq).
  - apply dict_set_Forall; assumption.
Qed.

Lemma group_get_add_range name dim v t n d :
  group_get n d (add_range name dim v t)
  = group_get n d t ++ (if String.eqb n name && Z.eqb d dim then [v] else []).
Proof.
  unfold group_get, add_range. rewrite dim_table_get_set.
  destruct (String.eqb n name) eqn:E; simpl.
  - apply String.eqb_eq in E; subst n.
    exact (list_get_append Z.eqb Z.eqb_eq dim v _ d).
  - now rewrite app_nil_r.
Qed.

Lemma group_get_add_equality name dim v t n d :
  group_get n d (add_equality name dim v t) = group_get n d t.
Proof.
  unfold group_get, add_equality. rewrite dim_table_get_set.
  destruct (String.eqb n name) eqn:E; simpl; [| reflexivity].
  apply String.eqb_eq in E; now subst n.
Qed.

(** Conversion goes through concatenation. *)
Lemma converted_app es es' bs bs' :
  converted es bs -> converted es' bs' -> converted (es ++ es') (bs ++ bs').
Proof. apply Forall2_app. Qed.

Lemma range_tuples_loop_Ok name rs t t' :
  range_tuples_loop name rs t = Ok t' ->
  wf_dim_table t ->
  wf_dim_table t'
  /\ forall n d, exists bs,
       converted
         (if String.eqb n name
          then flat_map (fun x => if Z.eqb d (fst (fst x)) then [(snd (fst x), snd x)] else []) rs
          else [])
         bs
       /\ group_get n d t' = group_get n d t ++ bs.
Proof.
  revert t. induction rs as [|[[dim lo] hi] rs IH]; simpl; intros t H Hwf.
  - injection H as <-. split; [assumption |].
    intros n d. exists []. split.
    + destruct (String.eqb n name); constructor.
    + now rewrite app_nil_r.
  - destruct (_convert_to_int lo) as [l|] eqn:El; simpl in H; [| discriminate].
    destruct (_convert_to_int hi) as [h|] eqn:Eh; simpl in H; [| discriminate].
    destruct (IH _ H (add_range_wf name dim (l, h) t Hwf)) as [Hwf' Hg].
    split; [assumption |].
    intros n d. destruct (Hg n d) as [bs [Hc Hget]].
    rewrite group_get_add_range in Hget.
    exists ((if String.eqb n name && Z.eqb d dim then [(l, h)] else []) ++ bs).
    split; [| now rewrite Hget, app_assoc].
    destruct (String.eqb n name); simpl; [| assumption].
    apply converted_app; [| assumption].
    destruct (Z.eqb d dim); constructor; [split; assumption | constructor].
Qed.

Lemma equality_tuples_loop_spec name es t :
  wf_dim_table t ->
  wf_dim_table (equality_tuples_loop name es t)
  /\ forall n d, group_get n d (equality_tuples_loop name es t) = group_get n d t.
Proof.
  revert t. induction es as [|[[dim o] od] es IH]; simpl; intros t Hwf.
  - split; [assumption | reflexivity].
  - destruct (IH _ (add_equality_wf name dim (o, od) t Hwf)) as [Hwf' Hg].
    split; [assumption |].
    intros n d. now rewrite Hg, group_get_add_equality.
Qed.

Lemma group_loop_Ok cs t t' :
  group_loop cs t = Ok t' ->
  wf_dim_table t ->
  wf_dim_table t'
  /\ forall n d, exists bs,
       converted (declared_ranges n d cs) bs
       /\ group_get n d t' = group_get n d t ++ bs.
Proof.
  revert t. induction cs as [|[name sc] cs IH]; simpl; intros t H Hwf.
  - injection H as <-. split; [assumption |].
    intros n d. exists []. split; [constructor | now rewrite app_nil_r].
  - destruct (range_tuples_loop name (range sc) t) as [t1|] eqn:E1; simpl in H;
      [| discriminate].
    destruct (range_tuples_loop_Ok _ _ _ _ E1 Hwf) as [Hwf1 Hg1].
    destruct (equality_tuples_loop_spec name (equality sc) t1 Hwf1) as [Hwf2 Hg2].
    destruct (IH _ H Hwf2) as [Hwf' Hg].
    split; [assumption |].
    intros n d.
    destruct (Hg1 n d) as [bs1 [Hc1 Hget1]].
    destruct (Hg n d) as [bs [Hc Hget]].
    exists (bs1 ++ bs). split.
    + unfold declared_ranges. simpl. apply converted_app; assumption.
    + now rewrite Hget, Hg2, Hget1, app_assoc.
Qed.

(** The grouping raises only for a bound that is not an integer. *)
Lemma _convert_to_int_Raise v e : _convert_to_int v = Raise e -> e = non_integer_error.
Proof.
  unfold _convert_to_int. destruct (sympy_eqb v oo); [discriminate |].
  destruct v; congruence.
Qed.

Lemma range_tuples_loop_Raise name rs t e :
  range_tuples_loop name rs t = Raise e -> e = non_integer_error.
Proof.
  revert t. induction rs as [|[[dim lo] hi] rs IH]; simpl; intros t H; [discriminate |].
  destruct (_convert_to_int lo) eqn:El; simpl in H;
    [| injection H as <-; eapply _convert_to_int_Raise; eassumption].
  destruct (_convert_to_int hi) eqn:Eh; simpl in H;
    [| injection H as <-; eapply _convert_to_int_Raise; eassumption].
  eauto.
Qed.

Lemma group_loop_Raise cs t e : group_loop cs t = Raise e -> e = non_integer_error.
Proof.
  revert t. induction cs as [|[name sc] cs IH]; simpl; intros t H; [discriminate |].
  destruct (range_tuples_loop name (range sc) t) eqn:E1; simpl in H.
  - eauto.
  - injection H as <-. eapply range_tuples_loop_Raise; eassumption.
Qed.

Lemma _convert_to_int_Ok v b :
  _convert_to_int v = Ok b <->
  (exists z, v = Integer z /\ b = Fin z) \/ (v = oo /\ b = Inf).
Proof.
  unfold _convert_to_int. split.
  - destruct v; simpl; intros H; try discriminate; injection H as <-; eauto.
  - intros [[z [-> ->]] | [-> ->]]; reflexivity.
Qed.

Lemma _convert_to_int_non_integer v :
  non_integer v -> _convert_to_int v = Raise non_integer_error.
Proof.
  intros [Hi Ho]. destruct v; try reflexivity.
  - exfalso. eapply Hi. reflexivity.
  - contradiction.
Qed.

Lemma range_tuples_loop_converts name rs t t' :
  range_tuples_loop name rs t = Ok t' ->
  Forall (fun x => exists lo hi, _convert_to_int (snd (fst x)) = Ok lo
                                 /\ _convert_to_int (snd x) = Ok hi) rs.
Proof.
  revert t. induction rs as [|[[dim lo] hi] rs IH]; simpl; intros t H; [constructor |].
  destruct (_convert_to_int lo) as [l|] eqn:El; simpl in H; [| discriminate].
  destruct (_convert_to_int hi) as [h|] eqn:Eh; simpl in H; [| discriminate].
  constructor; simpl; eauto.
Qed.

Lemma group_loop_converts cs t t' :
  group_loop cs t = Ok t' ->
  forall name sc x, In (name, sc) cs -> In x (range sc) ->
    exists lo hi, _convert_to_int (snd (fst x)) = Ok lo
                  /\ _convert_to_int (snd x) = Ok hi.
Proof.
  revert t. induction cs as [|[name0 sc0] cs IH]; simpl; intros t H name sc x Hin Hx;
    [contradiction |].
  destruct (range_tuples_loop name0 (range sc0) t) as [t1|] eqn:E1; simpl in H;
    [| discriminate].
  destruct Hin as [[= -> ->] | Hin].
  - pose proof (range_tuples_loop_converts _ _ _ _ E1) as Hall.
    rewrite Forall_forall in Hall. auto.
  - eauto.
Qed.

(** ** Merging the groups *)

Lemma table_get_append name c out n :
  table_get n (dict_append String.eqb name c out)
  = table_get n out ++ (if String.eqb n name then [c] else []).
Proof. exact (list_get_append String.eqb String.eqb_eq name c out n). Qed.

Lemma merge_range_loop_Ok name rs out out' :
  merge_range_loop name rs out = Ok out' ->
  Forall spec_consistent (merged_range_specs rs)
  /\ forall n, table_get n out'
               = table_get n out ++ (if String.eqb n name then merged_range_specs rs else []).
Proof.
  revert out. induction rs as [|[dim rcs] rs IH]; simpl; intros out H.
  - injection H as <-. split; [constructor |].
    intros n. destruct (String.eqb n name); now rewrite app_nil_r.
  - destruct rcs as [|first rcs]; [auto |].
    rewrite split_map in H.
    set (min_val := hd (fst first) (sorted (map fst (first :: rcs)) true)) in *.
    set (max_val := hd (snd first) (sorted (map snd (first :: rcs)) false)) in *.
    destruct (bound_leb min_val max_val) eqn:E; [| discriminate].
    destruct (IH _ H) as [Hc Hg]. split.
    + constructor; assumption.
    + intros n. rewrite Hg, table_get_append.
      destruct (String.eqb n name); rewrite <- app_assoc; reflexivity.
Qed.

Lemma merge_range_loop_Raise name rs out e :
  merge_range_loop name rs out = Raise e -> e = AssertionError.
Proof.
  revert out. induction rs as [|[dim rcs] rs IH]; simpl; intros out H; [discriminate |].
  destruct rcs as [|first rcs]; [eauto |].
  rewrite split_map in H.
  destruct (bound_leb _ _); [eauto | congruence].
Qed.

Lemma merge_equality_inner_spec name dim eqs out n :
  table_get n (merge_equality_inner name dim eqs out)
  = table_get n out
    ++ (if String.eqb n name
        then map (fun e => EqualityConstraintSpec dim (fst e) (snd e)) eqs
        else []).
Proof.
  revert out. induction eqs as [|[o od] eqs IH]; simpl; intros out.
  - destruct (String.eqb n name); now rewrite app_nil_r.
  - rewrite IH, table_get_append.
    destruct (String.eqb n name); rewrite <- app_assoc; reflexivity.
Qed.

Lemma merge_equality_loop_spec name es out n :
  table_get n (merge_equality_loop name es out)
  = table_get n out ++ (if String.eqb n name then equality_specs es else []).
Proof.
  revert out. induction es as [|[dim eqs] es IH]; simpl; intros out.
  - destruct (String.eqb n name); now rewrite app_nil_r.
  - rewrite IH, merge_equality_inner_spec. unfold equality_specs. simpl.
    destruct (String.eqb n name); rewrite <- app_assoc; reflexivity.
Qed.

Lemma merge_loop_Ok t out out' :
  merge_loop t out = Ok out' ->
  Forall (fun e => Forall spec_consistent (merged_range_specs (dc_range (snd e)))) t
  /\ forall n, table_get n out'
               = table_get n out
                 ++ flat_map (fun e => if String.eqb n (fst e) then entry_specs (snd e) else []) t.
Proof.
  revert out. induction t as [|[name dc] t IH]; simpl; intros out H.
  - injection H as <-. split; [constructor |]. intros n. now rewrite app_nil_r.
  - destruct (merge_range_loop name (dc_range dc) out) as [out1|] eqn:E1; simpl in H;
      [| discriminate].
    destruct (merge_range_loop_Ok _ _ _ _ E1) as [Hc1 Hg1].
    destruct (IH _ H) as [Hc Hg]. split.
    + constructor; assumption.
    + intros n. rewrite Hg, merge_equality_loop_spec, Hg1. unfold entry_specs.
      destruct (String.eqb n name); rewrite <- ?app_assoc; simpl;
        rewrite ?app_nil_r; reflexivity.
Qed.

Lemma merge_loop_Raise t out e : merge_loop t out = Raise e -> e = AssertionError.
Proof.
  revert out. induction t as [|[name dc] t IH]; simpl; intros out H; [discriminate |].
  destruct (merge_range_loop name (dc_range dc) out) eqn:E1; simpl in H.
  - eauto.
  - injection H as <-. eapply merge_range_loop_Raise; eassumption.
Qed.

Lemma range_specs_on_app dim l l' :
  range_specs_on dim (l ++ l') = range_specs_on dim l ++ range_specs_on dim l'.
Proof. apply filter_app. Qed.

Lemma range_specs_on_equality dim es : range_specs_on dim (equality_specs es) = [].
Proof.
  unfold equality_specs. induction es as [|[d eqs] es IH]; simpl; [reflexivity |].
  rewrite range_specs_on_app, IH, app_nil_r.
  induction eqs as [|e eqs IHe]; simpl; auto.
Qed.

Lemma range_specs_on_merged_absent dim rs :
  ~ In dim (map fst rs) -> range_specs_on dim (merged_range_specs rs) = [].
Proof.
  induction rs as [|[d rcs] rs IH]; simpl; intros H; [reflexivity |].
  destruct rcs as [|first rcs]; [auto |].
  simpl. destruct (Z.eqb_spec d dim) as [-> | Hne]; [exfalso; auto | auto].
Qed.

Lemma range_specs_on_merged dim rs first rcs :
  NoDup (map fst rs) ->
  dict_get Z.eqb dim rs = Some (first :: rcs) ->
  range_specs_on dim (merged_range_specs rs)
  = [RangeConstraintSpec dim
       (hd (fst first) (sorted (map fst (first :: rcs)) true))
       (hd (snd first) (sorted (map snd (first :: rcs)) false))].
Proof.
  induction rs as [|[d l] rs IH]; simpl; intros Hnd Hg; [discriminate |].
  inversion Hnd as [|? ? Hn Hd]; subst.
  destruct (Z.eqb_spec dim d) as [<- | Hne].
  - injection Hg as ->. simpl. rewrite Z.eqb_refl.
    now rewrite (range_specs_on_merged_absent dim rs Hn).
  - destruct l as [|f l]; [auto |].
    simpl. destruct (Z.eqb_spec d dim) as [-> | _]; [contradiction | auto].
Qed.

Lemma converted_fun es bs bs' : converted es bs -> converted es bs' -> bs = bs'.
Proof.
  intros H. revert bs'. induction H as [|e b es bs [H1 H2] _ IH]; intros bs' H';
    inversion H' as [|? b' ? bs0 [H1' H2'] Hrest]; subst; [reflexivity |].
  f_equal; [| auto].
  destruct b, b'; simpl in *. congruence.
Qed.

Lemma converted_nonempty es bs : converted es bs -> es <> [] -> bs <> [].
Proof. intros H Hne ->. inversion H; subst. congruence. Qed.

(** What the normaliser makes of the range tuples of one dimension. *)
Lemma process_shape_constraints_range cs table name dim :
  _process_shape_constraints cs = Ok table ->
  declared_ranges name dim cs <> [] ->
  exists bs first,
    converted (declared_ranges name dim cs) bs
    /\ hd_error bs = Some first
    /\ range_specs_on dim (table_get name table)
       = [RangeConstraintSpec dim
            (hd (fst first) (sorted (map fst bs) true))
            (hd (snd first) (sorted (map snd bs) false))]
    /\ bound_leb (hd (fst first) (sorted (map fst bs) true))
                 (hd (snd first) (sorted (map snd bs) false)) = true.
Proof.
  unfold _process_shape_constraints. intros H Hne.
  destruct (group_loop cs []) as [t|] eqn:Eg; simpl in H; [| discriminate].
  assert (Hwf0 : wf_dim_table []) by (split; constructor).
  destruct (group_loop_Ok _ _ _ Eg Hwf0) as [Hwf Hgroup].
  destruct (Hgroup name dim) as [bs [Hconv Hget]].
  simpl in Hget.
  pose proof (converted_nonempty _ _ Hconv Hne) as Hbs.
  destruct bs as [|first rest]; [congruence |].
  exists (first :: rest), first. split; [assumption |]. split; [reflexivity |].
  destruct (merge_loop_Ok _ _ _ H) as [Hcons Hout].
  specialize (Hout name). simpl in Hout.
  destruct Hwf as [Hkeys Hdims].
  rewrite (flat_map_key String.eqb String.eqb_eq entry_specs name t Hkeys) in Hout.
  unfold group_get, dim_table_get in Hget.
  destruct (dict_get String.eqb name t) as [dc|] eqn:Gn; [| discriminate].
  destruct (dict_get Z.eqb dim (dc_range dc)) as [l|] eqn:Gd; [| discriminate].
  subst l.
  pose proof (dict_get_Forall _ String.eqb_eq _ _ _ _ Hdims Gn) as Hnd. simpl in Hnd.
  pose proof (dict_get_Forall _ String.eqb_eq _ _ _ _ Hcons Gn) as Hc. simpl in Hc.
  pose proof (range_specs_on_merged dim _ _ _ Hnd Gd) as Hspec.
  split.
  - rewrite Hout. unfold entry_specs.
    now rewrite range_specs_on_app, range_specs_on_equality, app_nil_r.
  - rewrite Forall_forall in Hc.
    refine (Hc (RangeConstraintSpec dim _ _) _).
    eapply (proj1 (filter_In _ _ _)). unfold range_specs_on in Hspec.
    rewrite Hspec. left; reflexivity.
Qed.

Lemma process_shape_constraints_Raise cs e :
  _process_shape_constraints cs = Raise e ->
  e = AssertionError \/ e = non_integer_error.
Proof.
  unfold _process_shape_constraints.
  destruct (group_loop cs []) as [t|] eqn:Eg; simpl; intros H.
  - left. eapply merge_loop_Raise; eassumption.
  - right. injection H as <-. eapply group_loop_Raise; eassumption.
Qed.

(** [call] raises what the normaliser raises, before anything else than
    [self.current_gm] is set. *)
Lemma call_normaliser_Raise gm self e :
  _process_shape_constraints (meta_input_shape_constraints (export_meta gm)) = Raise e ->
  call gm self = (Raise e, set_current_gm (Some gm) self).
Proof.
  intros H. unfold call, bind, modify, lift. now rewrite H.
Qed.

(** ** The normaliser: merge and conversion *)

(** Scenario E of the specification. *)
Example scenario_E :
  _process_shape_constraints
    [("x", {| range := [(0, Integer 2, Integer 8); (0, Integer 5, Integer 10)];
              equality := [] |})]
  = Ok [("x", [RangeConstraintSpec 0 (Fin 5) (Fin 8)])].
Proof. reflexivity. Qed.


(** An inverted merged range: the normaliser raises, [call] with it. *)
Example inverted_range_fails :
  _process_shape_constraints
    [("x", {| range := [(0, Integer 2, Integer 4); (0, Integer 5, Integer 10)];
              equality := [] |})]
  = Raise AssertionError.
Proof. reflexivity. Qed.

(** [call_operator] raises what [add_assertions] raises, once the node of
    the operation is in the graph. *)
Lemma call_operator_at_Raise attr op arguments val self e :
  add_assertions attr (inline_constraints self) val = Raise e ->
  call_operator_at attr op arguments (Some val) self
  = (Raise e, emit [mk_node op arguments] self).
Proof.
  intros H. unfold call_operator_at, bind, super_call_operator, get_self, lift.
  change (inline_constraints (emit [{| target := op; args := arguments |}] self))
    with (inline_constraints self).
  rewrite H. reflexivity.
Qed.

(** C7: [_convert_to_int] returns for an [Integer], with its value, and for
    [oo], with infinity, and for nothing else; for every other expression it
    raises the non-integer error, and so do the normaliser, for such a bound
    of a declared range, and [add_assertions] and [call_operator], for such
    a bound of the inline constraint of a symbol. *)
Theorem convert_to_int_integer_or_infinity :
  (forall v b,
      _convert_to_int v = Ok b <->
      (exists z, v = Integer z /\ b = Fin z) \/ (v = oo /\ b = Inf))
  /\ (forall v, non_integer v ->
        _convert_to_int v = Raise non_integer_error
        /\ (forall cs name sc dim lo hi,
               In (name, sc) cs -> In (dim, lo, hi) (range sc) ->
               lo = v \/ hi = v ->
               _process_shape_constraints cs = Raise non_integer_error)
        /\ (forall attr inline expr c op arguments self,
               dict_get sympy_eqb expr inline = Some c ->
               fst c = v \/ snd c = v ->
               inline_constraints self = inline ->
               add_assertions attr inline (SymInt expr) = Raise non_integer_error
               /\ fst (call_operator op arguments (Some (SymInt expr)) self)
                  = Raise non_integer_error)).
Proof.
  split; [exact _convert_to_int_Ok |].
  intros v Hv. pose proof (_convert_to_int_non_integer v Hv) as Hr.
  split; [assumption |]. split.
  - intros cs name sc dim lo hi Hin Hx Hlh.
    unfold _process_shape_constraints.
    destruct (group_loop cs []) as [t|e] eqn:Eg; simpl.
    + destruct (group_loop_converts _ _ _ Eg _ _ _ Hin Hx) as [l [h [Hl Hh]]].
      simpl in Hl, Hh. destruct Hlh; subst; congruence.
    + now rewrite (group_loop_Raise _ _ _ Eg).
  - intros attr inline expr c op arguments self Hget Hc Hself.
    assert (Hadd : forall a, add_assertions a inline (SymInt expr) = Raise non_integer_error).
    { intros a. simpl. rewrite Hget.
      destruct (_convert_to_int (fst c)) as [l|e] eqn:El; simpl.
      - destruct (_convert_to_int (snd c)) as [h|e] eqn:Eh; simpl.
        + destruct Hc as [Hc | Hc]; rewrite Hc in *; congruence.
        + now rewrite (_convert_to_int_Raise _ _ Eh).
      - now rewrite (_convert_to_int_Raise _ _ El). }
    split; [apply Hadd |].
    unfold call_operator. rewrite <- Hself in Hadd.
    now rewrite (call_operator_at_Raise _ _ _ _ _ _ (Hadd _)).
Qed.

Lemma convert_to_int_integer_or_infinity_witness :
  non_integer (Symbol "s0")
  /\ _convert_to_int (Symbol "s0") = Raise non_integer_error
  /\ _process_shape_constraints
       [("x", {| range := [(0, Integer 2, Symbol "s0")]; equality := [] |})]
     = Raise non_integer_error
  /\ add_assertions "_assert_constraint"
       [(Symbol "i0", (Symbol "s0", Integer 10))] (SymInt (Symbol "i0"))
     = Raise non_integer_error.
Proof.
  assert (Hn : non_integer (Symbol "s0")) by (split; [intros z |]; discriminate).
  destruct (proj2 convert_to_int_integer_or_infinity (Symbol "s0") Hn) as [H1 [H2 H3]].
  split; [exact Hn |]. split; [exact H1 |]. split.
  - apply (H2 _ "x" {| range := [(0, Integer 2, Symbol "s0")]; equality := [] |}
              0 (Integer 2) (Symbol "s0")); simpl; auto.
  - apply (H3 "_assert_constraint" [(Symbol "i0", (Symbol "s0", Integer 10))]
              (Symbol "i0") (Symbol "s0", Integer 10) (other_target "op") []
              (set_inline_constraints [(Symbol "i0", (Symbol "s0", Integer 10))] init_self));
      simpl; auto.
Defined.

(** ** Running the emitters *)

(** Two descriptions of the same result, equal up to the arithmetic of
    the proxies. *)
Ltac same_nodes := repeat (f_equal; try lia).

Lemma emit_emit a b s : emit b (emit a s) = emit (a ++ b) s.
Proof. unfold emit, set_graph. simpl. now rewrite app_assoc. Qed.

Lemma emit_nil s : emit [] s = s.
Proof. destruct s. unfold emit, set_graph. simpl. now rewrite app_nil_r. Qed.

Lemma graph_emit a s : graph (emit a s) = graph s ++ a.
Proof. reflexivity. Qed.

Lemma length_graph_emit a s :
  List.length (graph (emit a s)) = (List.length (graph s) + List.length a)%nat.
Proof. rewrite graph_emit. apply length_app. Qed.

Lemma bind_Ok {A B : Type} (m : M A) (f : A -> M B) s a s' :
  m s = (Ok a, s') -> bind m f s = f a s'.
Proof. intros H. unfold bind. now rewrite H. Qed.

Lemma bind_Raise {A B : Type} (m : M A) (f : A -> M B) s e s' :
  m s = (Raise e, s') -> bind m f s = (Raise e, s').
Proof. intros H. unfold bind. now rewrite H. Qed.

Lemma super_call_operator_run op arguments s :
  super_call_operator op arguments s
  = (Ok (List.length (graph s)), emit [mk_node op arguments] s).
Proof. reflexivity. Qed.

Lemma _insert_assert_async_run operator l r assert_msg s :
  _insert_assert_async operator l r assert_msg s
  = (Ok tt, emit (assert_async_nodes (List.length (graph s)) operator l r assert_msg) s).
Proof.
  unfold _insert_assert_async.
  rewrite (bind_Ok _ _ _ _ _ (super_call_operator_run _ _ _)).
  rewrite (bind_Ok _ _ _ _ _ (super_call_operator_run _ _ _)).
  rewrite (bind_Ok _ _ _ _ _ (super_call_operator_run _ _ _)).
  unfold pure. rewrite !emit_emit, !length_graph_emit. simpl.
  rewrite !Nat.add_1_r. reflexivity.
Qed.

Lemma _assert_range_constraint_run proxy lower upper assert_msg low_threshold s :
  _assert_range_constraint proxy lower upper assert_msg low_threshold s
  = (Ok tt,
     emit (range_nodes (List.length (graph s)) proxy lower upper assert_msg low_threshold) s).
Proof.
  unfold _assert_range_constraint, range_nodes.
  destruct (bound_ltb (Fin low_threshold) lower).
  - rewrite (bind_Ok _ _ _ _ _ (_insert_assert_async_run _ _ _ _ _)).
    destruct (bound_ltb upper Inf).
    + rewrite _insert_assert_async_run, emit_emit, length_graph_emit. reflexivity.
    + unfold pure. now rewrite app_nil_r.
  - unfold bind, pure. simpl. rewrite Nat.add_0_r.
    destruct (bound_ltb upper Inf).
    + apply _insert_assert_async_run.
    + now rewrite emit_nil.
Qed.

Lemma _assert_equality_constraint_run proxy1 proxy2 assert_msg s :
  _assert_equality_constraint proxy1 proxy2 assert_msg s
  = (Ok tt,
     emit (assert_async_nodes (List.length (graph s)) operator_eq
             (ArgProxy proxy1) (ArgProxy proxy2) assert_msg) s).
Proof. apply _insert_assert_async_run. Qed.

(** Every dimension of [dims] is a dimension of the shape. *)
Lemma getitem_in_range shapes dim :
  0 <= dim < Z.of_nat (List.length shapes) ->
  getitem shapes dim = Ok (nth (Z.to_nat dim) shapes 0).
Proof.
  intros [H0 H1]. unfold getitem.
  apply Z.leb_le in H0. apply Z.ltb_lt in H1. now rewrite H0, H1.
Qed.

Lemma _insert_specialized_shapes_assert_run arg dims name shapes s :
  Forall (fun d => 0 <= d < Z.of_nat (List.length shapes)) dims ->
  _insert_specialized_shapes_assert arg dims name shapes s
  = (Ok tt, emit (specialized_nodes (List.length (graph s)) arg dims name shapes) s).
Proof.
  intros H. revert s. induction H as [|dim dims Hd Hds IH]; intros s; simpl.
  - unfold pure. now rewrite emit_nil.
  - unfold bind at 1. unfold lift. rewrite (getitem_in_range _ _ Hd).
    rewrite (bind_Ok _ _ _ _ _ (super_call_operator_run _ _ _)).
    rewrite (bind_Ok _ _ _ _ _ (super_call_operator_run _ _ _)).
    rewrite (bind_Ok _ _ _ _ _ (super_call_operator_run _ _ _)).
    rewrite (bind_Ok _ _ _ _ _ (super_call_operator_run _ _ _)).
    rewrite IH. rewrite !emit_emit, !length_graph_emit. simpl.
    same_nodes.
Qed.

Lemma range_set_in_range n :
  Forall (fun d => 0 <= d < Z.of_nat n) (range_set n).
Proof.
  unfold range_set. apply Forall_forall. intros d Hd.
  apply in_map_iff in Hd. destruct Hd as [k [<- Hk]].
  apply in_seq in Hk. lia.
Qed.

Lemma insert_by_slot_perm slot d l : Permutation (insert_by_slot slot d l) (d :: l).
Proof.
  induction l as [| e l IH]; simpl; [apply Permutation_refl |].
  destruct (slot d <? slot e); [apply Permutation_refl |].
  apply perm_trans with (e :: d :: l); [now apply perm_skip | apply perm_swap].
Qed.

Lemma by_slot_perm slot l : Permutation (by_slot slot l) l.
Proof.
  induction l as [| d l IH]; simpl; [apply perm_nil |].
  apply perm_trans with (d :: by_slot slot l);
    [apply insert_by_slot_perm | now apply perm_skip].
Qed.

(** Whatever the slots, [a - b] iterates the elements of [a] that are not
    in [b], each once. *)
Lemma set_difference_perm a b : Permutation (set_difference a b) (not_in a b).
Proof. apply by_slot_perm. Qed.

Lemma set_difference_In a b d :
  In d (set_difference a b) <-> In d a /\ ~ In d b.
Proof.
  split.
  - intros H. apply (Permutation_in _ (set_difference_perm a b)) in H.
    unfold not_in in H. apply filter_In in H. destruct H as [Ha Hb].
    split; [exact Ha |]. intros Hin.
    apply negb_true_iff in Hb.
    assert (Ht : existsb (Z.eqb d) b = true)
      by (apply existsb_exists; exists d; split; [exact Hin | apply Z.eqb_refl]).
    congruence.
  - intros [Ha Hb].
    apply (Permutation_in _ (Permutation_sym (set_difference_perm a b))).
    unfold not_in. apply filter_In. split; [exact Ha |].
    apply negb_true_iff. destruct (existsb (Z.eqb d) b) eqn:E; [| reflexivity].
    apply existsb_exists in E. destruct E as [x [Hx Hdx]].
    apply Z.eqb_eq in Hdx. subst x. contradiction.
Qed.

Lemma set_difference_NoDup a b : NoDup a -> NoDup (set_difference a b).
Proof.
  intros H.
  apply (Permutation_NoDup (Permutation_sym (set_difference_perm a b))).
  unfold not_in. now apply NoDup_filter.
Qed.

Lemma set_difference_in_range n b :
  Forall (fun d => 0 <= d < Z.of_nat n) (set_difference (range_set n) b).
Proof.
  apply Forall_forall. intros d Hd.
  apply set_difference_In in Hd. destruct Hd as [Hd _].
  pose proof (range_set_in_range n) as H. rewrite Forall_forall in H. auto.
Qed.

Lemma constraints_loop_run name arg cs constrained_dims equality_constraints s :
  constraints_loop name arg cs constrained_dims equality_constraints s
  = (Ok (constrained_dims_of cs constrained_dims,
         equality_constraints ++ deferred_of (List.length (graph s)) arg name cs),
     emit (constraints_nodes (List.length (graph s)) arg name cs) s).
Proof.
  revert constrained_dims equality_constraints s.
  induction cs as [|c cs IH]; intros cd eqs s; simpl.
  - unfold pure. now rewrite app_nil_r, emit_nil.
  - rewrite (bind_Ok _ _ _ _ _ (super_call_operator_run _ _ _)).
    destruct c as [d min_val max_val | d other_name other_dim]; simpl.
    + rewrite (bind_Ok _ _ _ _ _ (_assert_range_constraint_run _ _ _ _ _ _)).
      rewrite IH. rewrite !emit_emit, !length_graph_emit. simpl.
      same_nodes.
    + rewrite IH. rewrite !emit_emit, !length_graph_emit. simpl.
      rewrite <- app_assoc. same_nodes.
Qed.

(** ** Running the placeholder hooks *)

Lemma inputs_loop_unconstrained name arg rest eqs s shapes :
  dict_get String.eqb name (input_name_to_example_inputs s) = Some shapes ->
  dict_get String.eqb name (constraints s) = None ->
  inputs_loop ((name, arg) :: rest) eqs s
  = (Ok (inl arg),
     emit (specialized_nodes (List.length (graph s)) arg
             (range_set (List.length shapes)) name shapes) s).
Proof.
  intros Hex Hc. simpl. unfold bind at 1, get_self. rewrite Hex, Hc.
  rewrite (bind_Ok _ _ _ _ _
             (_insert_specialized_shapes_assert_run _ _ _ _ _ (range_set_in_range _))).
  reflexivity.
Qed.

Lemma inputs_loop_constrained name arg rest eqs s shapes cs :
  dict_get String.eqb name (input_name_to_example_inputs s) = Some shapes ->
  dict_get String.eqb name (constraints s) = Some cs ->
  inputs_loop ((name, arg) :: rest) eqs s
  = inputs_loop rest (eqs ++ deferred_of (List.length (graph s)) arg name cs)
      (emit (input_nodes (List.length (graph s)) arg name cs shapes) s).
Proof.
  intros Hex Hc. simpl. unfold bind at 1, get_self. rewrite Hex, Hc.
  rewrite (bind_Ok _ _ _ _ _ (constraints_loop_run _ _ _ _ _ _)). simpl fst. simpl snd.
  rewrite (bind_Ok _ _ _ _ _
             (_insert_specialized_shapes_assert_run _ _ _ _ _
                (set_difference_in_range _ _))).
  rewrite emit_emit, length_graph_emit. reflexivity.
Qed.

Lemma inputs_loop_app pre rest eqs s :
  all_constrained (constraints s) (input_name_to_example_inputs s) pre ->
  inputs_loop (pre ++ rest) eqs s
  = inputs_loop rest
      (eqs ++ inputs_deferred (constraints s) (input_name_to_example_inputs s)
                (List.length (graph s)) pre)
      (emit (inputs_nodes (constraints s) (input_name_to_example_inputs s)
               (List.length (graph s)) pre) s).
Proof.
  intros H. revert eqs s H. induction pre as [|[name arg] pre IH]; intros eqs s H.
  - simpl. now rewrite app_nil_r, emit_nil.
  - inversion H as [|? ? [Hc Hex] Hrest]; subst. simpl fst in Hc, Hex.
    destruct (dict_get String.eqb name (constraints s)) as [cs|] eqn:Ec; [| congruence].
    destruct (dict_get String.eqb name (input_name_to_example_inputs s))
      as [shapes|] eqn:Ee; [| congruence].
    change ((name, arg) :: pre ++ rest) with ((name, arg) :: (pre ++ rest)).
    rewrite <- app_comm_cons.
    rewrite (inputs_loop_constrained _ _ _ _ _ _ _ Ee Ec).
    rewrite IH by exact Hrest.
    rewrite emit_emit, length_graph_emit. simpl. rewrite Ec, Ee.
    now rewrite <- app_assoc.
Qed.

Lemma inputs_loop_all_constrained items eqs s :
  all_constrained (constraints s) (input_name_to_example_inputs s) items ->
  inputs_loop items eqs s
  = (Ok (inr (eqs ++ inputs_deferred (constraints s) (input_name_to_example_inputs s)
                       (List.length (graph s)) items)),
     emit (inputs_nodes (constraints s) (input_name_to_example_inputs s)
             (List.length (graph s)) items) s).
Proof.
  intros H. rewrite <- (app_nil_r items) at 1.
  now rewrite (inputs_loop_app items [] eqs s H).
Qed.

Lemma equality_loop_run eqs s :
  resolvable (input_name_to_args s) eqs ->
  equality_loop eqs s
  = (Ok tt, emit (equality_nodes (input_name_to_args s) (List.length (graph s)) eqs) s).
Proof.
  intros H. revert s H. induction eqs as [|[[c name] dim] eqs IH]; intros s H.
  - simpl. unfold pure. now rewrite emit_nil.
  - inversion H as [|? ? Hc Hrest]; subst. simpl in Hc.
    destruct c as [| d other_name other_dim]; [contradiction |].
    simpl. unfold bind at 1, get_self.
    destruct (dict_get String.eqb other_name (input_name_to_args s)) as [other_arg|];
      [| congruence].
    rewrite (bind_Ok _ _ _ _ _ (super_call_operator_run _ _ _)).
    rewrite (bind_Ok _ _ _ _ _ (_assert_equality_constraint_run _ _ _ _)).
    rewrite IH by exact Hrest.
    rewrite !emit_emit, !length_graph_emit. simpl. same_nodes.
Qed.

(** [postprocess_placeholders] when every registered input has a constraint
    entry and every deferred equality resolves: the nodes of the inputs, in
    the order of registration (for each input those of its constraints, then
    the specialization assertions of its difference set in the order of
    iteration), then those of the equalities. *)
Lemma postprocess_placeholders_all_constrained s gm :
  current_gm s = Some gm ->
  all_constrained (constraints s) (input_name_to_example_inputs s) (input_name_to_args s) ->
  let base := List.length (graph s) in
  let nodes := inputs_nodes (constraints s) (input_name_to_example_inputs s) base
                 (input_name_to_args s) in
  let eqs := inputs_deferred (constraints s) (input_name_to_example_inputs s) base
               (input_name_to_args s) in
  resolvable (input_name_to_args s) eqs ->
  postprocess_placeholders s
  = (Ok None,
     emit (nodes ++ equality_nodes (input_name_to_args s)
                      (base + List.length nodes) eqs) s).
Proof.
  intros Hgm Hall base nodes eqs Hres.
  unfold postprocess_placeholders. unfold bind at 1, get_self. rewrite Hgm.
  rewrite (bind_Ok _ _ _ _ _ (inputs_loop_all_constrained _ [] s Hall)).
  cbn beta iota. simpl app. fold base. fold nodes. fold eqs.
  rewrite (bind_Ok _ _ _ _ _ (equality_loop_run eqs (emit nodes s) Hres)).
  unfold pure. rewrite emit_emit, length_graph_emit. reflexivity.
Qed.

(** ** The specialization assertions of an input *)

Lemma specialized_nodes_seq base arg k n name shapes :
  specialized_nodes base arg (map Z.of_nat (seq k n)) name shapes
  = List.concat (map (fun i => specialization_chain (base + 4 * i) arg name
                            (Z.of_nat (k + i)) (nth (k + i) shapes 0))
                (seq 0 n)).
Proof.
  revert base k. induction n as [|n IH]; intros base k; [reflexivity |].
  cbn [seq map specialized_nodes List.concat].
  rewrite IH, <- seq_shift, map_map, Nat2Z.id.
  rewrite Nat.mul_0_r, !Nat.add_0_r.
  f_equal. f_equal. apply map_ext. intros i.
  replace (base + 4 + 4 * i)%nat with (base + 4 * S i)%nat by lia.
  replace (S k + i)%nat with (k + S i)%nat by lia.
  reflexivity.
Qed.

(** One specialization chain per dimension, in increasing order. *)
Lemma specialized_nodes_range_set base arg name shapes n :
  specialized_nodes base arg (range_set n) name shapes
  = List.concat (map (fun d => specialization_chain (base + 4 * d) arg name
                            (Z.of_nat d) (nth d shapes 0))
                (seq 0 n)).
Proof. unfold range_set. now rewrite specialized_nodes_seq. Qed.

(** ** No comparison of two size reads before the equality loop *)

Lemma specialized_nodes_no_equality base arg dims name shapes :
  Forall (fun n => is_proxy_equality n = false) (specialized_nodes base arg dims name shapes).
Proof.
  revert base. induction dims as [|d dims IH]; intros base; simpl; [constructor |].
  repeat (constructor; [reflexivity |]). apply IH.
Qed.

Lemma range_nodes_no_equality base proxy lower upper assert_msg low_threshold :
  Forall (fun n => is_proxy_equality n = false)
    (range_nodes base proxy lower upper assert_msg low_threshold).
Proof.
  unfold range_nodes.
  destruct (bound_ltb (Fin low_threshold) lower), (bound_ltb upper Inf); simpl;
    repeat (constructor; try reflexivity).
Qed.

Lemma constraints_nodes_no_equality base arg name cs :
  Forall (fun n => is_proxy_equality n = false) (constraints_nodes base arg name cs).
Proof.
  revert base. induction cs as [|c cs IH]; intros base; simpl; [constructor |].
  constructor; [reflexivity |]. apply Forall_app. split; [| apply IH].
  destruct c; [apply range_nodes_no_equality | constructor].
Qed.

Lemma input_nodes_no_equality base arg name cs shapes :
  Forall (fun n => is_proxy_equality n = false) (input_nodes base arg name cs shapes).
Proof.
  unfold input_nodes. apply Forall_app. split.
  - apply constraints_nodes_no_equality.
  - apply specialized_nodes_no_equality.
Qed.

Lemma inputs_nodes_no_equality table examples base items :
  Forall (fun n => is_proxy_equality n = false) (inputs_nodes table examples base items).
Proof.
  revert base. induction items as [|[name arg] items IH]; intros base; simpl;
    [constructor |].
  destruct (dict_get String.eqb name table); [| constructor].
  destruct (dict_get String.eqb name examples); [| constructor].
  apply Forall_app. split; [apply input_nodes_no_equality | apply IH].
Qed.

(** ** The input without constraints *)

(** The loop over the inputs up to and at the first input without an entry
    in the constraint table. *)
Lemma inputs_loop_first_unconstrained pre name arg post shapes s :
  all_constrained (constraints s) (input_name_to_example_inputs s) pre ->
  dict_get String.eqb name (constraints s) = None ->
  dict_get String.eqb name (input_name_to_example_inputs s) = Some shapes ->
  let before := inputs_nodes (constraints s) (input_name_to_example_inputs s)
                  (List.length (graph s)) pre in
  inputs_loop (pre ++ (name, arg) :: post) [] s
  = (Ok (inl arg),
     emit (before
           ++ specialized_nodes (List.length (graph s) + List.length before) arg
                (range_set (List.length shapes)) name shapes) s).
Proof.
  intros Hpre Hc Hex before.
  rewrite (inputs_loop_app pre _ [] s Hpre). fold before.
  rewrite (inputs_loop_unconstrained name arg post _ (emit before s) shapes Hex Hc).
  now rewrite emit_emit, length_graph_emit.
Qed.

(** C3: when the loop over the inputs meets the first input without an entry
    in the constraint table, after the nodes of the inputs before it (those
    of their constraints and their specialization assertions, in the order
    in which their difference sets are iterated) the graph receives one
    specialization assertion per dimension of that input, in increasing
    order (size read, comparison with the size in the example, conversion,
    assertion), and nothing more: [postprocess_placeholders] returns that
    input, whatever inputs follow and whatever the slots of the difference
    sets. *)
Theorem unconstrained_input_specialized_then_return
    self gm pre name arg post shapes :
  current_gm self = Some gm ->
  input_name_to_args self = pre ++ (name, arg) :: post ->
  all_constrained (constraints self) (input_name_to_example_inputs self) pre ->
  dict_get String.eqb name (constraints self) = None ->
  dict_get String.eqb name (input_name_to_example_inputs self) = Some shapes ->
  let before := inputs_nodes (constraints self) (input_name_to_example_inputs self)
                  (List.length (graph self)) pre in
  let base := (List.length (graph self) + List.length before)%nat in
  postprocess_placeholders self
  = (Ok (Some arg),
     emit (before
           ++ List.concat (map (fun d => specialization_chain (base + 4 * d) arg name
                                      (Z.of_nat d) (nth d shapes 0))
                          (seq 0 (List.length shapes)))) self).
Proof.
  intros Hgm Hargs Hpre Hc Hex before base.
  unfold postprocess_placeholders. unfold bind at 1, get_self. rewrite Hgm, Hargs.
  rewrite (bind_Ok _ _ _ _ _
             (inputs_loop_first_unconstrained pre name arg post shapes self Hpre Hc Hex)).
  cbn beta iota. unfold pure. fold before. fold base.
  now rewrite specialized_nodes_range_set.
Qed.

(** The return at the first input without an entry in the constraint table:
    the final state is that of the loop over the inputs, and no node added
    compares two size reads. *)
Lemma early_return_at_first_unconstrained self gm pre name arg post shapes :
  current_gm self = Some gm ->
  input_name_to_args self = pre ++ (name, arg) :: post ->
  all_constrained (constraints self) (input_name_to_example_inputs self) pre ->
  dict_get String.eqb name (constraints self) = None ->
  dict_get String.eqb name (input_name_to_example_inputs self) = Some shapes ->
  fst (postprocess_placeholders self) = Ok (Some arg)
  /\ snd (postprocess_placeholders self)
     = snd (inputs_loop (input_name_to_args self) [] self)
  /\ exists nodes,
       snd (postprocess_placeholders self) = emit nodes self
       /\ Forall (fun n => is_proxy_equality n = false) nodes.
Proof.
  intros Hgm Hargs Hpre Hc Hex.
  pose proof (inputs_loop_first_unconstrained pre name arg post shapes self Hpre Hc Hex)
    as Hloop. cbv zeta in Hloop.
  assert (Hpost : postprocess_placeholders self
                  = (Ok (Some arg), snd (inputs_loop (input_name_to_args self) [] self))).
  { unfold postprocess_placeholders. unfold bind at 1, get_self. rewrite Hgm, Hargs.
    rewrite (bind_Ok _ _ _ _ _ Hloop). rewrite Hloop. reflexivity. }
  rewrite Hpost. split; [reflexivity |]. split; [reflexivity |].
  rewrite Hargs, Hloop. simpl snd. eexists. split; [reflexivity |].
  apply Forall_app. split.
  - apply inputs_nodes_no_equality.
  - apply specialized_nodes_no_equality.
Qed.

(** Among inputs that all have an example, one without an entry in the
    constraint table gives a first such input. *)
Lemma first_unconstrained_split table examples items :
  Forall (fun item : string * nat => dict_get String.eqb (fst item) examples <> None) items ->
  Exists (fun item : string * nat => dict_get String.eqb (fst item) table = None) items ->
  exists pre name arg post shapes,
    items = pre ++ (name, arg) :: post
    /\ all_constrained table examples pre
    /\ dict_get String.eqb name table = None
    /\ dict_get String.eqb name examples = Some shapes.
Proof.
  induction items as [|[name arg] items IH]; intros Hex Hun.
  - inversion Hun.
  - inversion Hex as [|? ? Hhead Hrest]; subst. simpl in Hhead.
    destruct (dict_get String.eqb name table) as [cs|] eqn:Ec.
    + assert (Hun' : Exists (fun item : string * nat =>
                               dict_get String.eqb (fst item) table = None) items).
      { inversion Hun as [? ? H | ? ? H]; subst; [| exact H].
        simpl in H. congruence. }
      destruct (IH Hrest Hun') as [pre [n [a [post [shapes [-> [Hpre [Hn He]]]]]]]].
      exists ((name, arg) :: pre), n, a, post, shapes.
      split; [reflexivity |]. split; [| split; assumption].
      constructor; [| exact Hpre]. simpl. split; [congruence | assumption].
    + destruct (dict_get String.eqb name examples) as [shapes|] eqn:Ee; [| congruence].
      exists [], name, arg, items, shapes.
      split; [reflexivity |]. split; [constructor | split; assumption].
Qed.

(** C9: when some registered input has no entry in the constraint table,
    [postprocess_placeholders] returns such an input from inside the loop
    over the inputs: its final state is that of the loop, the equality loop
    does not run, and no node it added compares two size reads, whatever
    equality constraints the inputs before had deferred. *)
Theorem early_return_skips_equalities self gm :
  current_gm self = Some gm ->
  Forall (fun item : string * nat =>
            dict_get String.eqb (fst item) (input_name_to_example_inputs self) <> None)
    (input_name_to_args self) ->
  Exists (fun item : string * nat =>
            dict_get String.eqb (fst item) (constraints self) = None)
    (input_name_to_args self) ->
  exists name arg,
    In (name, arg) (input_name_to_args self)
    /\ dict_get String.eqb name (constraints self) = None
    /\ postprocess_placeholders self
       = (Ok (Some arg), snd (inputs_loop (input_name_to_args self) [] self))
    /\ exists nodes,
         snd (postprocess_placeholders self) = emit nodes self
         /\ Forall (fun n => is_proxy_equality n = false) nodes.
Proof.
  intros Hgm Hex Hun.
  destruct (first_unconstrained_split _ _ _ Hex Hun)
    as [pre [name [arg [post [shapes [Hargs [Hpre [Hc He]]]]]]]].
  destruct (early_return_at_first_unconstrained self gm pre name arg post shapes
              Hgm Hargs Hpre Hc He) as [H1 [H2 H3]].
  exists name, arg. split; [rewrite Hargs; apply in_elt |].
  split; [exact Hc |]. split; [| exact H3].
  rewrite <- H1, <- H2. now destruct (postprocess_placeholders self).
Qed.

(** ** The range assertions of an input *)

Lemma bound_ltb_exceeds t b : bound_ltb (Fin t) b = true <-> exceeds b t.
Proof.
  destruct b as [z|]; simpl; [apply Z.ltb_lt | intuition].
Qed.

Lemma bound_ltb_finite b : bound_ltb b Inf = true <-> finite b.
Proof.
  destruct b as [z|]; simpl; split; intros H.
  - exists z. reflexivity.
  - reflexivity.
  - discriminate.
  - destruct H as [z H]. discriminate.
Qed.

(** C5: the loop over the constraints of an input, run on one range
    specification, returns with the dimension among the constrained ones
    and adds to the graph the size read of the dimension and, after it, the
    nodes [emitted]: the lower-bound assertion [size >= min_val]
    (comparison, conversion, assertion with the message of the range), once,
    when [min_val > 2] and not otherwise, then the upper-bound assertion
    [size <= max_val], once, when [max_val] is finite and not otherwise.
    With more constraints after it, the loop goes on from the same state. *)
Theorem range_constraint_threshold
    name arg d min_val max_val cs constrained_dims eqs s :
  let dim := List.length (graph s) in
  let msg := range_msg name d min_val max_val in
  let round :=
    constraints_loop name arg [RangeConstraintSpec d min_val max_val]
      constrained_dims eqs s in
  let emitted := skipn (S dim) (graph (snd round)) in
  round
  = (Ok (set_add d constrained_dims, eqs),
     emit (mk_node aten_sym_size [ArgProxy arg; ArgNum (Fin d)] :: emitted) s)
  /\ constraints_loop name arg (RangeConstraintSpec d min_val max_val :: cs)
       constrained_dims eqs s
     = constraints_loop name arg cs (set_add d constrained_dims) eqs (snd round)
  /\ emitted
     = (if bound_ltb (Fin 2) min_val
        then [mk_node operator_ge [ArgProxy dim; ArgNum min_val];
              mk_node aten_scalar_tensor_default [ArgProxy (dim + 1)];
              mk_node aten__assert_async_msg [ArgProxy (dim + 2); ArgStr msg]]
        else [])
       ++ (if bound_ltb max_val Inf
           then let base := if bound_ltb (Fin 2) min_val
                            then (dim + 4)%nat else (dim + 1)%nat in
                [mk_node operator_le [ArgProxy dim; ArgNum max_val];
                 mk_node aten_scalar_tensor_default [ArgProxy base];
                 mk_node aten__assert_async_msg [ArgProxy (base + 1); ArgStr msg]]
           else [])
  /\ (In (mk_node operator_ge [ArgProxy dim; ArgNum min_val]) emitted
      <-> exceeds min_val 2)
  /\ (exceeds min_val 2 -> count_target operator_ge emitted = 1%nat)
  /\ (~ exceeds min_val 2 -> count_target operator_ge emitted = 0%nat)
  /\ (In (mk_node operator_le [ArgProxy dim; ArgNum max_val]) emitted
      <-> finite max_val)
  /\ (finite max_val -> count_target operator_le emitted = 1%nat)
  /\ (~ finite max_val -> count_target operator_le emitted = 0%nat)
  /\ count_target aten__assert_async_msg emitted
     = (count_target operator_ge emitted + count_target operator_le emitted)%nat.
Proof.
  intros dim msg round emitted.
  assert (Hround : round
                   = (Ok (set_add d constrained_dims, eqs),
                      emit (mk_node aten_sym_size [ArgProxy arg; ArgNum (Fin d)]
                            :: range_nodes (S dim) dim min_val max_val msg 2) s)).
  { unfold round. simpl.
    rewrite (bind_Ok _ _ _ _ _ (super_call_operator_run _ _ _)).
    rewrite (bind_Ok _ _ _ _ _ (_assert_range_constraint_run _ _ _ _ _ _)).
    unfold pure. rewrite emit_emit, length_graph_emit. simpl.
    fold dim. rewrite Nat.add_1_r. reflexivity. }
  assert (Hemitted : emitted = range_nodes (S dim) dim min_val max_val msg 2).
  { unfold emitted. rewrite Hround. cbn [snd]. rewrite graph_emit.
    rewrite skipn_app, skipn_all2 by (unfold dim; lia).
    replace (S dim - List.length (graph s))%nat with 1%nat by (unfold dim; lia).
    reflexivity. }
  split; [now rewrite Hround, Hemitted |].
  split.
  { rewrite Hround. cbn [snd]. simpl.
    rewrite (bind_Ok _ _ _ _ _ (super_call_operator_run _ _ _)).
    rewrite (bind_Ok _ _ _ _ _ (_assert_range_constraint_run _ _ _ _ _ _)).
    rewrite emit_emit, length_graph_emit. simpl.
    fold dim. rewrite Nat.add_1_r. reflexivity. }
  rewrite Hemitted. clear Hround Hemitted round emitted.
  pose proof (bound_ltb_exceeds 2 min_val) as Hlo.
  pose proof (bound_ltb_finite max_val) as Hhi.
  unfold range_nodes, assert_async_nodes, count_target.
  replace (dim + 1)%nat with (S dim) by lia.
  replace (dim + 2)%nat with (S (S dim)) by lia.
  replace (dim + 4)%nat with (S dim + 3)%nat by lia.
  destruct (bound_ltb (Fin 2) min_val), (bound_ltb max_val Inf); simpl;
    repeat split; intros; try reflexivity;
    try (repeat (f_equal; try lia); fail);
    try (apply Hlo; reflexivity); try (apply Hhi; reflexivity);
    try (left; reflexivity); try (do 3 right; left; reflexivity);
    try (exfalso; match goal with
                  | H : exceeds _ _ |- _ => apply Hlo in H; discriminate
                  | H : finite _ |- _ => apply Hhi in H; discriminate
                  | H : ~ exceeds _ _ |- _ => apply H, Hlo; reflexivity
                  | H : ~ finite _ |- _ => apply H, Hhi; reflexivity
                  end);
    try (repeat match goal with
                | H : _ \/ _ |- _ => destruct H
                | H : False |- _ => destruct H
                | H : mk_node _ _ = mk_node _ _ |- _ => discriminate H
                end).
Qed.

(** The rounds for the ranges [[3, 10]], [[2, inf]] and [[1, 5]] of
    dimension 0 of the input at proxy 0, in a graph with two nodes. *)
Example range_constraint_rounds :
  graph (snd (constraints_loop "y" 0 [RangeConstraintSpec 0 (Fin 3) (Fin 10)] [] []
                scenario_A_swapped))
  = graph scenario_A_swapped
    ++ [mk_node aten_sym_size [ArgProxy 0; ArgNum (Fin 0)];
        mk_node operator_ge [ArgProxy 2; ArgNum (Fin 3)];
        mk_node aten_scalar_tensor_default [ArgProxy 3];
        mk_node aten__assert_async_msg
          [ArgProxy 4;
           ArgStr "Input y's dimension #0 size is outside of specified dynamic range [3, 10]"];
        mk_node operator_le [ArgProxy 2; ArgNum (Fin 10)];
        mk_node aten_scalar_tensor_default [ArgProxy 6];
        mk_node aten__assert_async_msg
          [ArgProxy 7;
           ArgStr "Input y's dimension #0 size is outside of specified dynamic range [3, 10]"]]
  /\ graph (snd (constraints_loop "y" 0 [RangeConstraintSpec 0 (Fin 2) Inf] [] []
                   scenario_A_swapped))
     = graph scenario_A_swapped
       ++ [mk_node aten_sym_size [ArgProxy 0; ArgNum (Fin 0)]]
  /\ graph (snd (constraints_loop "y" 0 [RangeConstraintSpec 0 (Fin 1) (Fin 5)] [] []
                   scenario_A_swapped))
     = graph scenario_A_swapped
       ++ [mk_node aten_sym_size [ArgProxy 0; ArgNum (Fin 0)];
           mk_node operator_le [ArgProxy 2; ArgNum (Fin 5)];
           mk_node aten_scalar_tensor_default [ArgProxy 3];
           mk_node aten__assert_async_msg
             [ArgProxy 4;
              ArgStr "Input y's dimension #0 size is outside of specified dynamic range [1, 5]"]].
Proof. repeat split. Qed.

(** ** Which proxies the added nodes read *)

Lemma assert_async_nodes_reads p base operator l r assert_msg :
  (p < base)%nat -> l <> ArgProxy p -> r <> ArgProxy p ->
  Forall (fun n => ~ reads p n) (assert_async_nodes base operator l r assert_msg).
Proof.
  intros Hp Hl Hr. unfold assert_async_nodes, reads.
  repeat constructor; simpl; intros H;
    repeat match goal with
           | H : _ \/ _ |- _ => destruct H
           | H : False |- _ => destruct H
           | H : ArgProxy _ = ArgProxy _ |- _ => injection H as H
           | H : ArgStr _ = ArgProxy _ |- _ => discriminate H
           end; try congruence; lia.
Qed.

Lemma proxy_neq (p q : nat) : q <> p -> ArgProxy q <> ArgProxy p.
Proof. congruence. Qed.

Lemma range_nodes_reads p base proxy lower upper assert_msg low_threshold :
  (p < base)%nat -> proxy <> p ->
  Forall (fun n => ~ reads p n)
    (range_nodes base proxy lower upper assert_msg low_threshold).
Proof.
  intros Hp Hq. unfold range_nodes. apply Forall_app. split.
  - destruct (bound_ltb (Fin low_threshold) lower); [| constructor].
    apply assert_async_nodes_reads; [assumption | now apply proxy_neq | discriminate].
  - destruct (bound_ltb upper Inf); [| constructor].
    apply assert_async_nodes_reads; [lia | now apply proxy_neq | discriminate].
Qed.

Lemma sym_size_reads p arg d :
  arg <> p -> ~ reads p (mk_node aten_sym_size [ArgProxy arg; ArgNum (Fin d)]).
Proof.
  intros Ha. unfold reads. simpl. intros [H | [H | []]]; [| discriminate].
  injection H as H. contradiction.
Qed.

Lemma specialized_nodes_reads p base arg dims name shapes :
  (p < base)%nat -> arg <> p ->
  Forall (fun n => ~ reads p n) (specialized_nodes base arg dims name shapes).
Proof.
  revert base. induction dims as [|d dims IH]; intros base Hp Ha; simpl; [constructor |].
  constructor; [now apply sym_size_reads |].
  change (?a :: ?b :: ?c :: ?l) with ([a; b; c] ++ l).
  apply Forall_app. split.
  - apply (assert_async_nodes_reads p (S base)); [lia | apply proxy_neq; lia | discriminate].
  - apply IH; [lia | assumption].
Qed.

Lemma constraint_nodes_reads p base arg name c :
  (p < base)%nat -> arg <> p ->
  Forall (fun n => ~ reads p n) (constraint_nodes base arg name c).
Proof.
  intros Hp Ha. unfold constraint_nodes.
  constructor; [now apply sym_size_reads |].
  destruct c; [| constructor].
  apply range_nodes_reads; lia.
Qed.

Lemma constraints_nodes_reads p base arg name cs :
  (p < base)%nat -> arg <> p ->
  Forall (fun n => ~ reads p n) (constraints_nodes base arg name cs).
Proof.
  revert base. induction cs as [|c cs IH]; intros base Hp Ha; [constructor |].
  cbn [constraints_nodes]. apply Forall_app. split.
  - now apply constraint_nodes_reads.
  - apply IH; [lia | assumption].
Qed.

Lemma deferred_of_fresh p base arg name cs :
  (p < base)%nat ->
  Forall (fun e : deferred => snd e <> p) (deferred_of base arg name cs).
Proof.
  revert base. induction cs as [|c cs IH]; intros base Hp; [constructor |].
  cbn [deferred_of]. apply Forall_app. split.
  - destruct c; repeat constructor. simpl. lia.
  - apply IH. lia.
Qed.

Lemma input_nodes_reads p base arg name cs shapes :
  (p < base)%nat -> arg <> p ->
  Forall (fun n => ~ reads p n) (input_nodes base arg name cs shapes).
Proof.
  intros Hp Ha. unfold input_nodes. apply Forall_app. split.
  - now apply constraints_nodes_reads.
  - apply specialized_nodes_reads; [lia | assumption].
Qed.

(** Whatever the outcome of the loop over the inputs, the nodes it added do
    not read a node [p] that is in the graph and is no registered input, and
    no deferred equality holds [p]. *)
Lemma inputs_loop_reads p items eqs s :
  (p < List.length (graph s))%nat ->
  Forall (fun item : string * nat => snd item <> p) items ->
  Forall (fun e : deferred => snd e <> p) eqs ->
  exists nodes,
    snd (inputs_loop items eqs s) = emit nodes s
    /\ Forall (fun n => ~ reads p n) nodes
    /\ forall eqs', fst (inputs_loop items eqs s) = Ok (inr eqs') ->
                    Forall (fun e : deferred => snd e <> p) eqs'.
Proof.
  revert eqs s. induction items as [|[name arg] items IH]; intros eqs s Hp Hitems Heqs.
  - exists []. simpl. rewrite emit_nil. split; [reflexivity |]. split; [constructor |].
    intros eqs' [= <-]. assumption.
  - inversion Hitems as [|? ? Ha Hrest]; subst. simpl in Ha.
    destruct (dict_get String.eqb name (input_name_to_example_inputs s))
      as [shapes|] eqn:Ee.
    + destruct (dict_get String.eqb name (constraints s)) as [cs|] eqn:Ec.
      * rewrite (inputs_loop_constrained _ _ _ _ _ _ _ Ee Ec).
        destruct (IH (eqs ++ deferred_of (List.length (graph s)) arg name cs)
                     (emit (input_nodes (List.length (graph s)) arg name cs shapes) s))
          as [nodes [Hs [Hn He]]].
        { rewrite length_graph_emit. lia. }
        { assumption. }
        { apply Forall_app. split; [assumption | now apply deferred_of_fresh]. }
        exists (input_nodes (List.length (graph s)) arg name cs shapes ++ nodes).
        split; [now rewrite Hs, emit_emit |]. split; [| exact He].
        apply Forall_app. split; [now apply input_nodes_reads | assumption].
      * rewrite (inputs_loop_unconstrained _ _ _ _ _ _ Ee Ec).
        eexists. split; [reflexivity |]. split.
        -- now apply specialized_nodes_reads.
        -- intros eqs' H. discriminate H.
    + exists []. simpl. unfold bind, get_self, raise. rewrite Ee. simpl.
      rewrite emit_nil. split; [reflexivity |]. split; [constructor |].
      intros eqs' H. discriminate H.
Qed.

Lemma equality_loop_reads p eqs s :
  (p < List.length (graph s))%nat ->
  Forall (fun item : string * nat => snd item <> p) (input_name_to_args s) ->
  Forall (fun e : deferred => snd e <> p) eqs ->
  exists nodes,
    snd (equality_loop eqs s) = emit nodes s
    /\ Forall (fun n => ~ reads p n) nodes.
Proof.
  revert s. induction eqs as [|[[c name] dim] eqs IH]; intros s Hp Hreg Heqs.
  - exists []. simpl. rewrite emit_nil. split; [reflexivity | constructor].
  - inversion Heqs as [|? ? Hd Hrest]; subst. simpl in Hd.
    destruct c as [| d other_name other_dim].
    + exists []. simpl. rewrite emit_nil. split; [reflexivity | constructor].
    + simpl. unfold bind at 1, get_self.
      destruct (dict_get String.eqb other_name (input_name_to_args s))
        as [other_arg|] eqn:Eo.
      * rewrite (bind_Ok _ _ _ _ _ (super_call_operator_run _ _ _)).
        rewrite (bind_Ok _ _ _ _ _ (_assert_equality_constraint_run _ _ _ _)).
        rewrite emit_emit.
        match goal with
        | |- context [equality_loop eqs ?s'] =>
            destruct (IH s') as [nodes [Hs Hn]]
        end.
        { rewrite length_graph_emit. lia. }
        { assumption. }
        { assumption. }
        eexists. split; [rewrite Hs, emit_emit; reflexivity |].
        apply Forall_app. split; [| assumption].
        assert (Hoa : other_arg <> p).
        { apply (dict_get_In _ String.eqb_eq) in Eo.
          rewrite Forall_forall in Hreg. exact (Hreg _ Eo). }
        constructor; [now apply sym_size_reads |].
        rewrite length_graph_emit. simpl.
        apply assert_async_nodes_reads;
          [lia | now apply proxy_neq | apply proxy_neq; lia].
      * exists []. simpl. rewrite emit_nil. split; [reflexivity | constructor].
Qed.

Lemma postprocess_placeholders_reads p s :
  (p < List.length (graph s))%nat ->
  Forall (fun item : string * nat => snd item <> p) (input_name_to_args s) ->
  exists nodes,
    snd (postprocess_placeholders s) = emit nodes s
    /\ Forall (fun n => ~ reads p n) nodes.
Proof.
  intros Hp Hreg. unfold postprocess_placeholders. unfold bind at 1, get_self.
  destruct (current_gm s).
  - destruct (inputs_loop_reads p (input_name_to_args s) [] s Hp Hreg (Forall_nil _))
      as [nodes [Hs [Hn He]]].
    unfold bind at 1.
    destruct (inputs_loop (input_name_to_args s) [] s) as [[[arg | eqs] | e] s'] eqn:El;
      simpl in Hs; subst s'.
    + exists nodes. split; [reflexivity | assumption].
    + destruct (equality_loop_reads p eqs (emit nodes s)) as [nodes' [Hs' Hn']].
      { rewrite length_graph_emit. lia. }
      { assumption. }
      { apply He. reflexivity. }
      exists (nodes ++ nodes'). unfold bind.
      destruct (equality_loop eqs (emit nodes s)) as [[[] | e] s'']; simpl in Hs';
        subst s''; simpl; rewrite emit_emit;
        (split; [reflexivity | apply Forall_app; split; assumption]).
    + exists nodes. split; [reflexivity | assumption].
  - exists []. simpl. rewrite emit_nil. split; [reflexivity | constructor].
Qed.

(** ** The input without an example *)

(** [placeholder] keeps every registered input with an example and in the
    graph. *)
Lemma placeholder_registered_ok name s :
  registered_ok s -> registered_ok (snd (placeholder name s)).
Proof.
  intros H. unfold placeholder, super_placeholder.
  rewrite (bind_Ok _ _ _ _ _ (super_call_operator_run _ _ _)).
  unfold bind at 1, get_self.
  change (input_name_to_example_inputs (emit _ s)) with (input_name_to_example_inputs s).
  assert (Hold : Forall
                   (fun item =>
                      dict_get String.eqb (fst item) (input_name_to_example_inputs s) <> None
                      /\ (snd item < List.length (graph s) + 1)%nat)
                   (input_name_to_args s)).
  { eapply Forall_impl; [| exact H]. simpl. intros item [H1 H2]. split; [assumption | lia]. }
  unfold dict_mem.
  destruct (dict_get String.eqb name (input_name_to_example_inputs s)) as [shapes|] eqn:E;
    simpl.
  - unfold registered_ok. simpl. rewrite length_app. simpl.
    apply dict_set_Forall; [exact Hold |]. simpl. rewrite E.
    split; [discriminate | lia].
  - unfold registered_ok. simpl. rewrite length_app. exact Hold.
Qed.

(** C10: [placeholder], for an input without an entry in the example-input
    table, returns what the base class returns and registers nothing; after
    it, whatever [postprocess_placeholders] does, no node it adds reads that
    input, and an equality constraint that names it as the other input
    fails the lookup of the registered inputs. *)
Theorem placeholder_without_example_skipped self name :
  registered_ok self ->
  dict_get String.eqb name (input_name_to_example_inputs self) = None ->
  let arg := List.length (graph self) in
  let self' := emit [mk_node (placeholder_target name) []] self in
  placeholder name self = (Ok arg, self')
  /\ placeholder name self = super_placeholder name self
  /\ input_name_to_args self' = input_name_to_args self
  /\ dict_get String.eqb name (input_name_to_args self') = None
  /\ (exists nodes,
        snd (postprocess_placeholders self') = emit nodes self'
        /\ Forall (fun n => ~ reads arg n) nodes)
  /\ (forall d other_dim n dim rest,
        equality_loop ((EqualityConstraintSpec d name other_dim, n, dim) :: rest) self'
        = (Raise (KeyError name), self')).
Proof.
  intros Hreg Hex arg self'.
  assert (Hrun : placeholder name self = (Ok arg, self')).
  { unfold placeholder, super_placeholder.
    rewrite (bind_Ok _ _ _ _ _ (super_call_operator_run _ _ _)).
    unfold bind at 1, get_self, dict_mem.
    change (input_name_to_example_inputs (emit _ self))
      with (input_name_to_example_inputs self).
    rewrite Hex. reflexivity. }
  assert (Hnone : dict_get String.eqb name (input_name_to_args self') = None).
  { change (input_name_to_args self') with (input_name_to_args self).
    destruct (dict_get String.eqb name (input_name_to_args self)) as [a|] eqn:E;
      [| reflexivity].
    apply (dict_get_In _ String.eqb_eq) in E.
    unfold registered_ok in Hreg. rewrite Forall_forall in Hreg.
    destruct (Hreg _ E) as [H _]. simpl in H. contradiction. }
  split; [exact Hrun |]. split; [rewrite Hrun; reflexivity |].
  split; [reflexivity |]. split; [exact Hnone |]. split.
  - apply postprocess_placeholders_reads.
    + subst self'. rewrite length_graph_emit. simpl. lia.
    + change (input_name_to_args self') with (input_name_to_args self).
      eapply Forall_impl; [| exact Hreg]. simpl. intros item [_ H]. lia.
  - intros d other_dim n dim rest. simpl. unfold bind, get_self.
    rewrite Hnone. reflexivity.
Qed.

(** ** Malformed constraints and the graph *)

(** C8 as stated fails at an inline constraint: [call_operator] raises the
    non-integer error for the bound [s0] of the symbol [i0] once the node of
    the operation is in the graph. *)
Lemma inline_bound_error_after_node_added :
  fst (call_operator (other_target "op") [] (Some (SymInt (Symbol "i0")))
         scenario_bad_inline)
  = Raise non_integer_error
  /\ graph scenario_bad_inline = []
  /\ graph (snd (call_operator (other_target "op") [] (Some (SymInt (Symbol "i0")))
                   scenario_bad_inline))
     = [mk_node (other_target "op") []]
  /\ ~ raises_before_mutation
         (call_operator (other_target "op") [] (Some (SymInt (Symbol "i0")))).
Proof.
  repeat split; try reflexivity.
  intros H. specialize (H scenario_bad_inline eq_refl). discriminate H.
Qed.

(** The same through the modelled traversal: the pass raises after the
    input, its specialization assertion and the operation are in the graph. *)
Example pass_aborts_after_insertions :
  fst (call scenario_bad_inline_graph init_self) = Raise non_integer_error
  /\ map target (graph (snd (call scenario_bad_inline_graph init_self)))
     = [placeholder_target "x"; aten_sym_size; operator_eq;
        aten_scalar_tensor_default; aten__assert_async_msg; other_target "op"].
Proof. split; reflexivity. Qed.

(** C8, amended: a malformed declared constraint makes the normaliser raise,
    an assertion error for an inverted merged range or the non-integer error
    for a bound; [call] then raises the same before the traversal, with the
    graph and the registered inputs as they were. A non-integer bound of an
    inline constraint makes [call_operator] raise when it meets the symbol,
    after it added the node of the operation. *)
Theorem malformed_declared_constraint_before_traversal gm self e :
  _process_shape_constraints (meta_input_shape_constraints (export_meta gm)) = Raise e ->
  (e = AssertionError \/ e = non_integer_error)
  /\ call gm self = (Raise e, set_current_gm (Some gm) self)
  /\ graph (snd (call gm self)) = graph self
  /\ input_name_to_args (snd (call gm self)) = input_name_to_args self
  /\ (forall op arguments expr c s,
        dict_get sympy_eqb expr (inline_constraints s) = Some c ->
        non_integer (fst c) \/ non_integer (snd c) ->
        call_operator op arguments (Some (SymInt expr)) s
        = (Raise non_integer_error, emit [mk_node op arguments] s)).
Proof.
  intros H. split; [exact (process_shape_constraints_Raise _ _ H) |].
  rewrite (call_normaliser_Raise gm self e H).
  split; [reflexivity |]. split; [reflexivity |]. split; [reflexivity |].
  intros op arguments expr c s Hget Hc.
  apply call_operator_at_Raise. simpl. rewrite Hget.
  destruct (_convert_to_int (fst c)) as [l|e'] eqn:El; simpl.
  - destruct (_convert_to_int (snd c)) as [h|e'] eqn:Eh; simpl.
    + destruct Hc as [Hc | Hc]; apply _convert_to_int_non_integer in Hc; congruence.
    + now rewrite (_convert_to_int_Raise _ _ Eh).
  - now rewrite (_convert_to_int_Raise _ _ El).
Qed.

(** ** The assertions for inline constraints *)

(** C1: at scenario D, [call_operator] adds the node of the operation and
    raises: [add_assertions] reads [self._assert_constraint], which the
    class does not define, so no size read and no assertion follow. With
    the name of the range assertion the class does define, the chain of the
    specification is added; and for a tensor with two constrained dimensions every
    chain asserts the bounds of the last one. *)
Theorem inline_constraint_chain_not_emitted :
  call_operator (other_target "op") [] (Some scenario_D_val) scenario_D
  = (Raise (AttributeError "_assert_constraint"),
     emit [mk_node (other_target "op") []] scenario_D)
  /\ call_operator_at "_assert_range_constraint" (other_target "op") []
       (Some scenario_D_val) scenario_D
     = (Ok 0%nat,
        emit [mk_node (other_target "op") [];
              mk_node aten_sym_size [ArgProxy 0; ArgNum (Fin 2)];
              mk_node operator_ge [ArgProxy 1; ArgNum (Fin 1)];
              mk_node aten_scalar_tensor_default [ArgProxy 2];
              mk_node aten__assert_async_msg
                [ArgProxy 3;
                 ArgStr "node_0.shape[2] is outside of inline constraint [1, 10]."];
              mk_node operator_le [ArgProxy 1; ArgNum (Fin 10)];
              mk_node aten_scalar_tensor_default [ArgProxy 5];
              mk_node aten__assert_async_msg
                [ArgProxy 6;
                 ArgStr "node_0.shape[2] is outside of inline constraint [1, 10]."]]
          scenario_D)
  /\ call_operator_at "_assert_range_constraint" (other_target "op") []
       (Some (Tensor [SymInt (Symbol "i0"); SymInt (Symbol "i1")])) scenario_two_symbols
     = (Ok 0%nat,
        emit [mk_node (other_target "op") [];
              mk_node aten_sym_size [ArgProxy 0; ArgNum (Fin 0)];
              mk_node operator_ge [ArgProxy 1; ArgNum (Fin 4)];
              mk_node aten_scalar_tensor_default [ArgProxy 2];
              mk_node aten__assert_async_msg
                [ArgProxy 3;
                 ArgStr "node_0.shape[0] is outside of inline constraint [1, 10]."];
              mk_node operator_le [ArgProxy 1; ArgNum (Fin 7)];
              mk_node aten_scalar_tensor_default [ArgProxy 5];
              mk_node aten__assert_async_msg
                [ArgProxy 6;
                 ArgStr "node_0.shape[0] is outside of inline constraint [1, 10]."];
              mk_node aten_sym_size [ArgProxy 0; ArgNum (Fin 1)];
              mk_node operator_ge [ArgProxy 8; ArgNum (Fin 4)];
              mk_node aten_scalar_tensor_default [ArgProxy 9];
              mk_node aten__assert_async_msg
                [ArgProxy 10;
                 ArgStr "node_0.shape[1] is outside of inline constraint [4, 7]."];
              mk_node operator_le [ArgProxy 8; ArgNum (Fin 7)];
              mk_node aten_scalar_tensor_default [ArgProxy 12];
              mk_node aten__assert_async_msg
                [ArgProxy 13;
                 ArgStr "node_0.shape[1] is outside of inline constraint [4, 7]."]]
          scenario_two_symbols).
Proof. repeat split. Qed.

(** ** The return from inside the loop over the inputs *)

(** C4: in scenario A the input [y], registered after the unconstrained
    [x], has a range constraint on dimension 0 and two dimensions; the loop
    returns at [x], so no node reads [y]: dimension 1 of [y] gets no
    specialization assertion (and dimension 0 no range assertion). With [y]
    registered first, dimension 1 of [y] gets its specialization assertion. *)
Theorem constrained_input_after_unconstrained_untouched :
  dict_get String.eqb "y" (constraints scenario_A)
  = Some [RangeConstraintSpec 0 (Fin 3) (Fin 10)]
  /\ dict_get String.eqb "y" (input_name_to_example_inputs scenario_A) = Some [5; 6]
  /\ dict_get String.eqb "y" (input_name_to_args scenario_A) = Some 1%nat
  /\ fst (postprocess_placeholders scenario_A) = Ok (Some 0%nat)
  /\ List.length (graph (snd (postprocess_placeholders scenario_A))) = 10%nat
  /\ Forall (fun n => ~ reads 1%nat n) (graph (snd (postprocess_placeholders scenario_A)))
  /\ fst (postprocess_placeholders scenario_A_swapped) = Ok (Some 1%nat)
  /\ firstn 4 (skipn 9 (graph (snd (postprocess_placeholders scenario_A_swapped))))
     = [mk_node aten_sym_size [ArgProxy 0; ArgNum (Fin 1)];
        mk_node operator_eq [ArgProxy 9; ArgNum (Fin 6)];
        mk_node aten_scalar_tensor_default [ArgProxy 10];
        mk_node aten__assert_async_msg
          [ArgProxy 11; ArgStr "Input y's dimension #1 size is specialized at 6"]].
Proof.
  split; [reflexivity |]. split; [reflexivity |]. split; [reflexivity |].
  split; [reflexivity |]. split; [reflexivity |]. split; [| split; reflexivity].
  vm_compute.
  repeat (constructor;
          [intros H; repeat (destruct H as [H | H]; [discriminate H |]); exact H |]).
  constructor.
Qed.

(** C6: at scenario C, where [x] is constrained to equal [y] on dimension 0
    and [y] has no constraints of its own, the loop over the inputs returns
    at [y]: the graph gets the size read of dimension 0 of [x], the
    specialization assertions of dimension 1 of [x] and of dimension 0 of
    [y], and no assertion that compares the two sizes. When [y] has a
    constraint of its own the equality assertion follows the nodes of the
    inputs. *)
Theorem equality_assertion_lost_at_unconstrained_input :
  postprocess_placeholders scenario_C
  = (Ok (Some 1%nat),
     emit [mk_node aten_sym_size [ArgProxy 0; ArgNum (Fin 0)];
           mk_node aten_sym_size [ArgProxy 0; ArgNum (Fin 1)];
           mk_node operator_eq [ArgProxy 3; ArgNum (Fin 4)];
           mk_node aten_scalar_tensor_default [ArgProxy 4];
           mk_node aten__assert_async_msg
             [ArgProxy 5; ArgStr "Input x's dimension #1 size is specialized at 4"];
           mk_node aten_sym_size [ArgProxy 1; ArgNum (Fin 0)];
           mk_node operator_eq [ArgProxy 7; ArgNum (Fin 3)];
           mk_node aten_scalar_tensor_default [ArgProxy 8];
           mk_node aten__assert_async_msg
             [ArgProxy 9; ArgStr "Input y's dimension #0 size is specialized at 3"]]
       scenario_C)
  /\ List.length
       (filter is_proxy_equality (graph (snd (postprocess_placeholders scenario_C))))
     = 0%nat
  /\ postprocess_placeholders scenario_C_both
     = (Ok None,
        emit [mk_node aten_sym_size [ArgProxy 0; ArgNum (Fin 0)];
              mk_node aten_sym_size [ArgProxy 0; ArgNum (Fin 1)];
              mk_node operator_eq [ArgProxy 3; ArgNum (Fin 4)];
              mk_node aten_scalar_tensor_default [ArgProxy 4];
              mk_node aten__assert_async_msg
                [ArgProxy 5; ArgStr "Input x's dimension #1 size is specialized at 4"];
              mk_node aten_sym_size [ArgProxy 1; ArgNum (Fin 0)];
              mk_node aten_sym_size [ArgProxy 1; ArgNum (Fin 0)];
              mk_node operator_eq [ArgProxy 2; ArgProxy 8];
              mk_node aten_scalar_tensor_default [ArgProxy 9];
              mk_node aten__assert_async_msg
                [ArgProxy 10;
                 ArgStr "Input x's dimension #0 size is not equal to input y's dimension #0"]]
          scenario_C_both).
Proof. repeat split. Qed.

(** ** An input with constraints, when the loop reaches it *)

Lemma existsb_eqb_In d l : existsb (Z.eqb d) l = true <-> In d l.
Proof.
  rewrite existsb_exists. split.
  - intros [x [Hx E]]. apply Z.eqb_eq in E. now subst.
  - intros H. exists d. split; [assumption | apply Z.eqb_refl].
Qed.

Lemma set_add_In d l x : In x (set_add d l) <-> x = d \/ In x l.
Proof.
  unfold set_add. destruct (existsb (Z.eqb d) l) eqn:E.
  - apply existsb_eqb_In in E. split; [auto | intros [-> | H]; assumption].
  - rewrite in_app_iff. simpl. intuition.
Qed.

Lemma constrained_dims_of_In cs init x :
  In x (constrained_dims_of cs init) <-> In x init \/ In x (map constraint_dim cs).
Proof.
  unfold constrained_dims_of. revert init.
  induction cs as [|c cs IH]; intros init; simpl; [intuition |].
  rewrite IH, set_add_In. intuition.
Qed.

Lemma range_set_In n d : In d (range_set n) <-> 0 <= d < Z.of_nat n.
Proof.
  unfold range_set. rewrite in_map_iff. split.
  - intros [k [<- Hk]]. apply in_seq in Hk. lia.
  - intros H. exists (Z.to_nat d). split; [lia | apply in_seq; lia].
Qed.

Lemma range_set_NoDup n : NoDup (range_set n).
Proof.
  unfold range_set. generalize (seq_NoDup n 0).
  induction 1 as [|k l Hk Hl IH]; simpl; constructor; [| exact IH].
  rewrite in_map_iff. intros [j [Hj Hin]].
  apply Nat2Z.inj in Hj. subst j. contradiction.
Qed.

Lemma count_target_app t l l' :
  count_target t (l ++ l') = (count_target t l + count_target t l')%nat.
Proof. unfold count_target. now rewrite filter_app, length_app. Qed.

Lemma range_nodes_no_eq base proxy lower upper assert_msg low_threshold :
  count_target operator_eq (range_nodes base proxy lower upper assert_msg low_threshold)
  = 0%nat.
Proof.
  unfold range_nodes.
  destruct (bound_ltb (Fin low_threshold) lower), (bound_ltb upper Inf); reflexivity.
Qed.

Lemma constraints_nodes_no_eq base arg name cs :
  count_target operator_eq (constraints_nodes base arg name cs) = 0%nat.
Proof.
  revert base. induction cs as [|c cs IH]; intros base; [reflexivity |].
  cbn [constraints_nodes]. rewrite count_target_app, IH.
  unfold constraint_nodes.
  change (?a :: ?l) with ([a] ++ l). rewrite count_target_app.
  destruct c; [rewrite range_nodes_no_eq |]; reflexivity.
Qed.

Lemma specialized_nodes_count_eq base arg dims name shapes :
  count_target operator_eq (specialized_nodes base arg dims name shapes)
  = List.length dims.
Proof.
  revert base. induction dims as [|d dims IH]; intros base; [reflexivity |].
  cbn [specialized_nodes]. rewrite count_target_app, IH. reflexivity.
Qed.

Lemma specialized_nodes_positions base arg dims name shapes :
  specialized_nodes base arg dims name shapes
  = List.concat
      (map (fun k => specialization_chain (base + 4 * k) arg name (nth k dims 0)
                       (nth (Z.to_nat (nth k dims 0)) shapes 0))
         (seq 0 (List.length dims))).
Proof.
  revert base. induction dims as [|d dims IH]; intros base; [reflexivity |].
  cbn [specialized_nodes List.length seq map List.concat].
  rewrite IH, <- seq_shift, map_map.
  rewrite Nat.mul_0_r, Nat.add_0_r. cbn [nth].
  f_equal. f_equal. apply map_ext. intros k.
  replace (base + 4 + 4 * k)%nat with (base + 4 * S k)%nat by lia.
  reflexivity.
Qed.

Lemma skipn_graph_emit nodes s :
  skipn (List.length (graph s)) (graph (emit nodes s)) = nodes.
Proof.
  rewrite graph_emit, skipn_app, skipn_all, Nat.sub_diag. reflexivity.
Qed.

(** An input with an entry in the constraint table, alone in the loop over
    the inputs: the loop adds the nodes of its constraints, which hold no
    comparison for equality, and then one specialization assertion for each
    dimension of its difference set [free], in the order in which that set
    is iterated; the comparisons for equality among the added nodes are
    those of the specialization assertions.  The set holds each dimension of
    the example that no constraint names, once, and no other dimension.
    With more inputs after it, the loop goes on from the same state. *)
Theorem constrained_input_specializes_free_dims
    name arg eqs s shapes cs :
  dict_get String.eqb name (input_name_to_example_inputs s) = Some shapes ->
  dict_get String.eqb name (constraints s) = Some cs ->
  let base := List.length (graph s) in
  let free := set_difference (range_set (List.length shapes)) (constrained_dims_of cs []) in
  let checks := constraints_nodes base arg name cs in
  let start := (base + List.length checks)%nat in
  let chain k :=
    specialization_chain (start + 4 * k) arg name (nth k free 0)
      (nth (Z.to_nat (nth k free 0)) shapes 0) in
  inputs_loop [(name, arg)] eqs s
  = (Ok (inr (eqs ++ deferred_of base arg name cs)),
     emit (checks ++ List.concat (map chain (seq 0 (List.length free)))) s)
  /\ (forall rest,
        inputs_loop ((name, arg) :: rest) eqs s
        = inputs_loop rest (eqs ++ deferred_of base arg name cs)
            (snd (inputs_loop [(name, arg)] eqs s)))
  /\ (forall d, In d free <->
                0 <= d < Z.of_nat (List.length shapes)
                /\ ~ In d (map constraint_dim cs))
  /\ NoDup free
  /\ count_target operator_eq checks = 0%nat
  /\ count_target operator_eq
       (skipn base (graph (snd (inputs_loop [(name, arg)] eqs s))))
     = List.length free.
Proof.
  intros Hex Hc base free checks start chain.
  assert (Hrun : inputs_loop [(name, arg)] eqs s
                 = (Ok (inr (eqs ++ deferred_of base arg name cs)),
                    emit (checks ++ specialized_nodes start arg free name shapes) s)).
  { rewrite (inputs_loop_constrained name arg [] eqs s shapes cs Hex Hc).
    reflexivity. }
  split; [| split; [| split; [| split; [| split]]]].
  - rewrite Hrun. unfold chain. now rewrite specialized_nodes_positions.
  - intros rest. rewrite Hrun.
    exact (inputs_loop_constrained name arg rest eqs s shapes cs Hex Hc).
  - intros d. unfold free. rewrite set_difference_In, range_set_In.
    rewrite constrained_dims_of_In. simpl. intuition.
  - apply set_difference_NoDup, range_set_NoDup.
  - apply constraints_nodes_no_eq.
  - rewrite Hrun. cbn [snd]. unfold base. rewrite skipn_graph_emit.
    rewrite count_target_app. unfold checks.
    rewrite constraints_nodes_no_eq, specialized_nodes_count_eq. reflexivity.
Qed.

(** ** What [call_operator] adds *)

(** Induction on a value descriptor, with the dimensions of a tensor. *)
Lemma Val_nested_ind (P : Val -> Prop) :
  (forall e, P (SymInt e)) -> (forall e, P (SymFloat e)) -> (forall e, P (SymBool e)) ->
  (forall shape, Forall P shape -> P (Tensor shape)) ->
  P Concrete ->
  forall v, P v.
Proof.
  intros H1 H2 H3 H4 H5. fix IH 1.
  intros [e|e|e|shape|]; [apply H1 | apply H2 | apply H3 | | apply H5].
  apply H4. induction shape as [|v shape IHs]; constructor; [apply IH | exact IHs].
Qed.

Lemma shape_loop_nothing_found rec i shape found :
  Forall (fun v => forall r, rec v = Ok r -> r = ([], [])) shape ->
  shape_loop rec i shape = Ok found -> found = [].
Proof.
  intros H. revert i found. induction H as [|v shape Hv Hs IH]; intros i found; simpl.
  - now intros [= <-].
  - destruct (rec v) as [r|] eqn:Er; simpl; [| discriminate].
    destruct (shape_loop rec (i + 1) shape) as [more|] eqn:Em; simpl; [| discriminate].
    intros [= <-]. rewrite (Hv r eq_refl), (IH _ _ Em). reflexivity.
Qed.

Lemma scalar_undefined_attribute inline e r :
  match dict_get sympy_eqb e inline with
      | Some constraint =>
          obind (_convert_to_int (fst constraint)) (fun lower =>
          obind (_convert_to_int (snd constraint)) (fun upper =>
          obind (self_getattr "_assert_constraint") (fun method =>
           Ok ([fun proxy assert_msg => method proxy lower upper assert_msg (-1)],
               [inline_msg lower upper]))))
      | None => Ok ([], [])
      end = Ok r -> r = ([], []).
Proof.
  destruct (dict_get sympy_eqb e inline) as [c|]; [| now intros [= <-]].
  destruct (_convert_to_int (fst c)); simpl; [| discriminate].
  destruct (_convert_to_int (snd c)); simpl; discriminate.
Qed.

(** With the attribute name of the source, [add_assertions] returns no
    callback. *)
Lemma add_assertions_undefined_attribute inline val r :
  add_assertions "_assert_constraint" inline val = Ok r -> r = ([], []).
Proof.
  revert r. induction val as [e | e | e | shape IH | ] using Val_nested_ind; intros r.
  - apply scalar_undefined_attribute.
  - apply scalar_undefined_attribute.
  - apply scalar_undefined_attribute.
  - cbn [add_assertions].
    destruct (shape_loop (add_assertions "_assert_constraint" inline) 0 shape)
      as [found|] eqn:E; simpl; [| discriminate].
    rewrite (shape_loop_nothing_found _ _ _ _ IH E). simpl. now intros [= <-].
  - now intros [= <-].
Qed.

(** Whenever [call_operator] returns, the node of the operation is all it
    added: a symbol with an inline constraint makes [add_assertions] raise,
    and without one there is no callback to run. *)
Theorem call_operator_adds_no_assertion op arguments meta_val s r s' :
  call_operator op arguments meta_val s = (Ok r, s') ->
  r = List.length (graph s) /\ s' = emit [mk_node op arguments] s.
Proof.
  unfold call_operator, call_operator_at.
  rewrite (bind_Ok _ _ _ _ _ (super_call_operator_run _ _ _)).
  destruct meta_val as [val|]; [| unfold pure; intros [= <- <-]; split; reflexivity].
  unfold bind at 1, get_self. unfold bind at 1, lift.
  change (inline_constraints (emit _ s)) with (inline_constraints s).
  destruct (add_assertions "_assert_constraint" (inline_constraints s) val) as [res|e] eqn:E;
    [| discriminate].
  rewrite (add_assertions_undefined_attribute _ _ _ E). simpl.
  unfold bind, pure. simpl. intros [= <- <-]. split; reflexivity.
Qed.

Lemma call_operator_adds_no_assertion_witness :
  call_operator (other_target "op") [] (Some (Tensor [Concrete; SymInt (Symbol "s")]))
    scenario_D
  = (Ok 0%nat, emit [mk_node (other_target "op") []] scenario_D)
  /\ 0%nat = List.length (graph scenario_D).
Proof.
  split; [reflexivity |].
  exact (proj1 (call_operator_adds_no_assertion (other_target "op") []
                  (Some (Tensor [Concrete; SymInt (Symbol "s")])) scenario_D
                  0%nat (emit [mk_node (other_target "op") []] scenario_D) eq_refl)).
Defined.


(** ** The normaliser: entries, equalities and failures *)

Lemma equality_group_get_add_range name dim v t n d :
  equality_group_get n d (add_range name dim v t) = equality_group_get n d t.
Proof.
  unfold equality_group_get, add_range. rewrite dim_table_get_set.
  destruct (String.eqb n name) eqn:E; simpl; [| reflexivity].
  apply String.eqb_eq in E; now subst n.
Qed.

Lemma equality_group_get_add_equality name dim v t n d :
  equality_group_get n d (add_equality name dim v t)
  = equality_group_get n d t ++ (if String.eqb n name && Z.eqb d dim then [v] else []).
Proof.
  unfold equality_group_get, add_equality. rewrite dim_table_get_set.
  destruct (String.eqb n name) eqn:E; simpl.
  - apply String.eqb_eq in E; subst n.
    exact (list_get_append Z.eqb Z.eqb_eq dim v _ d).
  - now rewrite app_nil_r.
Qed.

Lemma dim_table_get_equality_NoDup name t :
  wf_equality_table t -> NoDup (map fst (dc_equality (dim_table_get name t))).
Proof.
  intros Hall. unfold dim_table_get.
  destruct (dict_get String.eqb name t) as [dc|] eqn:G; [| constructor].
  exact (dict_get_Forall _ String.eqb_eq _ _ _ _ Hall G).
Qed.

Lemma add_range_wf_equality name dim v t :
  wf_equality_table t -> wf_equality_table (add_range name dim v t).
Proof.
  intros Hwf. pose proof (dim_table_get_equality_NoDup name t Hwf) as Hd.
  unfold add_range. apply dict_set_Forall; assumption.
Qed.

Lemma add_equality_wf_equality name dim v t :
  wf_equality_table t -> wf_equality_table (add_equality name dim v t).
Proof.
  intros Hwf. pose proof (dim_table_get_equality_NoDup name t Hwf) as Hd.
  unfold add_equality. apply dict_set_Forall; [assumption |]. simpl.
  now apply (dict_append_NoDup _ Z.eqb_eq).
Qed.

Lemma range_tuples_loop_equality name rs t t' :
  range_tuples_loop name rs t = Ok t' ->
  wf_equality_table t ->
  wf_equality_table t'
  /\ forall n d, equality_group_get n d t' = equality_group_get n d t.
Proof.
  revert t. induction rs as [|[[dim lo] hi] rs IH]; simpl; intros t H Hwf.
  - injection H as <-. split; [assumption | reflexivity].
  - destruct (_convert_to_int lo) as [l|] eqn:El; simpl in H; [| discriminate].
    destruct (_convert_to_int hi) as [h|] eqn:Eh; simpl in H; [| discriminate].
    destruct (IH _ H (add_range_wf_equality name dim (l, h) t Hwf)) as [Hwf' Hg].
    split; [assumption |].
    intros n d. now rewrite Hg, equality_group_get_add_range.
Qed.

Lemma equality_tuples_loop_equality name es t :
  wf_equality_table t ->
  wf_equality_table (equality_tuples_loop name es t)
  /\ forall n d,
       equality_group_get n d (equality_tuples_loop name es t)
       = equality_group_get n d t
         ++ (if String.eqb n name
             then flat_map (fun x => if Z.eqb d (fst (fst x)) then [(snd (fst x), snd x)] else []) es
             else []).
Proof.
  revert t. induction es as [|[[dim o] od] es IH]; simpl; intros t Hwf.
  - split; [assumption |]. intros n d. destruct (String.eqb n name); now rewrite app_nil_r.
  - destruct (IH _ (add_equality_wf_equality name dim (o, od) t Hwf)) as [Hwf' Hg].
    split; [assumption |].
    intros n d. rewrite Hg, equality_group_get_add_equality.
    destruct (String.eqb n name); simpl; [| now rewrite !app_nil_r].
    rewrite <- app_assoc. destruct (Z.eqb d dim); reflexivity.
Qed.

Lemma group_loop_equality cs t t' :
  group_loop cs t = Ok t' ->
  wf_equality_table t ->
  wf_equality_table t'
  /\ forall n d,
       equality_group_get n d t' = equality_group_get n d t ++ declared_equalities n d cs.
Proof.
  revert t. induction cs as [|[name sc] cs IH]; simpl; intros t H Hwf.
  - injection H as <-. split; [assumption |]. intros n d. now rewrite app_nil_r.
  - destruct (range_tuples_loop name (range sc) t) as [t1|] eqn:E1; simpl in H;
      [| discriminate].
    destruct (range_tuples_loop_equality _ _ _ _ E1 Hwf) as [Hwf1 Hg1].
    destruct (equality_tuples_loop_equality name (equality sc) t1 Hwf1) as [Hwf2 Hg2].
    destruct (IH _ H Hwf2) as [Hwf' Hg].
    split; [assumption |].
    intros n d. rewrite Hg, Hg2, Hg1. unfold declared_equalities. simpl.
    now rewrite app_assoc.
Qed.

Lemma In_dict_get {K V : Type} (eqb : K -> K -> bool)
    (eqb_eq : forall a b, eqb a b = true <-> a = b) (k : K) (v : V) d :
  NoDup (map fst d) -> In (k, v) d -> dict_get eqb k d = Some v.
Proof.
  induction d as [|[k0 v0] d IH]; simpl; intros Hnd Hin; [contradiction |].
  inversion Hnd as [|? ? Hn Hd]; subst.
  destruct Hin as [[= -> ->] | Hin].
  - now rewrite (proj2 (eqb_eq k k) eq_refl).
  - destruct (eqb k k0) eqn:E; [| auto].
    apply eqb_eq in E; subst k0. exfalso. apply Hn.
    apply in_map_iff. exists (k, v). split; [reflexivity | assumption].
Qed.

(** The entry of an input in the returned table is made of its entry in the
    grouped table. *)
Lemma merge_loop_entry t table n :
  NoDup (map fst t) ->
  merge_loop t [] = Ok table ->
  table_get n table = entry_specs (dim_table_get n t).
Proof.
  intros Hnd H. destruct (merge_loop_Ok _ _ _ H) as [_ Hout].
  rewrite Hout. simpl.
  rewrite (flat_map_key String.eqb String.eqb_eq entry_specs n t Hnd).
  unfold dim_table_get. destruct (dict_get String.eqb n t); reflexivity.
Qed.

(** The two stages of a normalisation that returns. *)
Lemma process_shape_constraints_stages cs table :
  _process_shape_constraints cs = Ok table ->
  exists t,
    group_loop cs [] = Ok t
    /\ merge_loop t [] = Ok table
    /\ wf_dim_table t
    /\ wf_equality_table t
    /\ (forall n d, exists bs,
          converted (declared_ranges n d cs) bs /\ group_get n d t = bs)
    /\ (forall n d, equality_group_get n d t = declared_equalities n d cs)
    /\ (forall n, table_get n table = entry_specs (dim_table_get n t)).
Proof.
  unfold _process_shape_constraints. intros H.
  destruct (group_loop cs []) as [t|] eqn:Eg; simpl in H; [| discriminate].
  exists t.
  assert (Hwf0 : wf_dim_table []) by (split; constructor).
  assert (Hwe0 : wf_equality_table []) by constructor.
  destruct (group_loop_Ok _ _ _ Eg Hwf0) as [Hwf Hgroup].
  destruct (group_loop_equality _ _ _ Eg Hwe0) as [Hwe Hequal].
  split; [reflexivity |]. split; [assumption |]. split; [assumption |].
  split; [assumption |]. split; [| split].
  - intros n d. destruct (Hgroup n d) as [bs [Hc Hg]]. exists bs. split; assumption.
  - intros n d. rewrite Hequal. reflexivity.
  - intros n. apply merge_loop_entry; [apply Hwf | assumption].
Qed.

Lemma equality_specs_on_app dim l l' :
  equality_specs_on dim (l ++ l') = equality_specs_on dim l ++ equality_specs_on dim l'.
Proof. apply filter_app. Qed.

Lemma equality_specs_on_merged dim rs : equality_specs_on dim (merged_range_specs rs) = [].
Proof.
  induction rs as [|[d rcs] rs IH]; simpl; [reflexivity |].
  destruct rcs; simpl; assumption.
Qed.

Lemma equality_specs_on_group dim d eqs :
  equality_specs_on dim (map (fun e => EqualityConstraintSpec d (fst e) (snd e)) eqs)
  = if Z.eqb d dim
    then map (fun e => EqualityConstraintSpec d (fst e) (snd e)) eqs
    else [].
Proof.
  induction eqs as [|e eqs IH]; simpl; [now destruct (Z.eqb d dim) |].
  rewrite IH. now destruct (Z.eqb d dim).
Qed.

Lemma equality_specs_on_absent dim es :
  ~ In dim (map fst es) -> equality_specs_on dim (equality_specs es) = [].
Proof.
  unfold equality_specs.
  induction es as [|[d eqs] es IH]; simpl; intros H; [reflexivity |].
  rewrite equality_specs_on_app, equality_specs_on_group, IH by tauto.
  destruct (Z.eqb_spec d dim) as [-> | _]; [exfalso; auto | reflexivity].
Qed.

Lemma equality_specs_on_specs dim es :
  NoDup (map fst es) ->
  equality_specs_on dim (equality_specs es)
  = map (fun e => EqualityConstraintSpec dim (fst e) (snd e)) (list_get Z.eqb dim es).
Proof.
  unfold list_get.
  induction es as [|[d eqs] es IH]; simpl; intros Hnd; [reflexivity |].
  inversion Hnd as [|? ? Hn Hd]; subst.
  change (equality_specs_on dim
            (equality_specs ((d, eqs) :: es))
          = map (fun e => EqualityConstraintSpec dim (fst e) (snd e))
              (match (if Z.eqb dim d then Some eqs else dict_get Z.eqb dim es) with
               | Some l => l
               | None => []
               end)).
  unfold equality_specs. simpl.
  rewrite equality_specs_on_app, equality_specs_on_group.
  destruct (Z.eqb_spec dim d) as [<- | Hne].
  - rewrite Z.eqb_refl.
    fold (equality_specs es). rewrite (equality_specs_on_absent dim es Hn).
    apply app_nil_r.
  - destruct (Z.eqb_spec d dim) as [-> | _]; [contradiction |].
    simpl. apply IH. assumption.
Qed.

(** Adding to an entry keeps the keys apart and the entries inhabited. *)
Lemma dict_append_inhabited {X : Type} name (c : X) (out : list (string * list X)) :
  Forall (fun e => snd e <> []) out ->
  Forall (fun e => snd e <> []) (dict_append String.eqb name c out).
Proof.
  intros H. unfold dict_append.
  destruct (dict_get String.eqb name out) as [l|]; apply dict_set_Forall;
    try assumption; simpl.
  - destruct l; discriminate.
  - discriminate.
Qed.

Lemma dict_append_table_ok name c out :
  table_ok out -> table_ok (dict_append String.eqb name c out).
Proof.
  intros [H1 H2]. split.
  - now apply (dict_append_NoDup _ String.eqb_eq).
  - now apply dict_append_inhabited.
Qed.

Lemma merge_range_loop_table_ok name rs out out' :
  merge_range_loop name rs out = Ok out' -> table_ok out -> table_ok out'.
Proof.
  revert out. induction rs as [|[dim rcs] rs IH]; simpl; intros out H Hok.
  - now injection H as <-.
  - destruct rcs as [|first rcs]; [eauto |].
    rewrite split_map in H.
    destruct (bound_leb _ _); [| discriminate].
    eapply IH; [exact H |]. now apply dict_append_table_ok.
Qed.

Lemma merge_equality_inner_table_ok name dim eqs out :
  table_ok out -> table_ok (merge_equality_inner name dim eqs out).
Proof.
  revert out. induction eqs as [|[o od] eqs IH]; simpl; intros out Hok; [assumption |].
  apply IH. now apply dict_append_table_ok.
Qed.

Lemma merge_equality_loop_table_ok name es out :
  table_ok out -> table_ok (merge_equality_loop name es out).
Proof.
  revert out. induction es as [|[dim eqs] es IH]; simpl; intros out Hok; [assumption |].
  apply IH. now apply merge_equality_inner_table_ok.
Qed.

Lemma merge_loop_table_ok t out out' :
  merge_loop t out = Ok out' -> table_ok out -> table_ok out'.
Proof.
  revert out. induction t as [|[name dc] t IH]; simpl; intros out H Hok.
  - now injection H as <-.
  - destruct (merge_range_loop name (dc_range dc) out) as [out1|] eqn:E1; simpl in H;
      [| discriminate].
    eapply IH; [exact H |].
    apply merge_equality_loop_table_ok.
    eapply merge_range_loop_table_ok; eassumption.
Qed.

Lemma merged_range_specs_is_range rs : Forall is_range (merged_range_specs rs).
Proof.
  induction rs as [|[d rcs] rs IH]; simpl; [constructor |].
  destruct rcs; [assumption | constructor; [exact I | assumption]].
Qed.

Lemma equality_specs_is_equality es : Forall is_equality (equality_specs es).
Proof.
  unfold equality_specs. induction es as [|[d eqs] es IH]; simpl; [constructor |].
  apply Forall_app. split; [| assumption].
  induction eqs; simpl; constructor; [exact I | assumption].
Qed.

Lemma equality_specs_consistent es : Forall spec_consistent (equality_specs es).
Proof.
  eapply Forall_impl; [| apply equality_specs_is_equality].
  intros [] H; [destruct H | exact I].
Qed.

Lemma declared_ranges_In name sc d lo hi cs :
  In (name, sc) cs -> In (d, lo, hi) (range sc) -> In (lo, hi) (declared_ranges name d cs).
Proof.
  intros Hin Hx. unfold declared_ranges. apply in_flat_map.
  exists (name, sc). split; [assumption |]. simpl. rewrite String.eqb_refl.
  apply in_flat_map. exists (d, lo, hi). split; [assumption |]. simpl.
  rewrite Z.eqb_refl. now left.
Qed.

Lemma declared_equalities_In name sc d o od cs :
  In (name, sc) cs -> In (d, o, od) (equality sc) ->
  In (o, od) (declared_equalities name d cs).
Proof.
  intros Hin Hx. unfold declared_equalities. apply in_flat_map.
  exists (name, sc). split; [assumption |]. simpl. rewrite String.eqb_refl.
  apply in_flat_map. exists (d, o, od). split; [assumption |]. simpl.
  rewrite Z.eqb_refl. now left.
Qed.

Lemma declared_ranges_has_tuples name d cs :
  declared_ranges name d cs <> [] -> has_tuples name cs.
Proof.
  unfold declared_ranges. intros H.
  destruct (flat_map _ cs) as [|x l] eqn:E; [congruence |].
  assert (Hx : In x (x :: l)) by now left.
  rewrite <- E in Hx. apply in_flat_map in Hx. destruct Hx as [[n sc] [Hin Hx]].
  simpl in Hx. destruct (String.eqb_spec name n) as [<- | _]; [| destruct Hx].
  exists sc. split; [assumption |]. left. intros Hr. rewrite Hr in Hx. destruct Hx.
Qed.

Lemma declared_equalities_has_tuples name d cs :
  declared_equalities name d cs <> [] -> has_tuples name cs.
Proof.
  unfold declared_equalities. intros H.
  destruct (flat_map _ cs) as [|x l] eqn:E; [congruence |].
  assert (Hx : In x (x :: l)) by now left.
  rewrite <- E in Hx. apply in_flat_map in Hx. destruct Hx as [[n sc] [Hin Hx]].
  simpl in Hx. destruct (String.eqb_spec name n) as [<- | _]; [| destruct Hx].
  exists sc. split; [assumption |]. right. intros Hr. rewrite Hr in Hx. destruct Hx.
Qed.

Lemma merged_range_specs_In c rs :
  In c (merged_range_specs rs) ->
  exists d rcs, In (d, rcs) rs /\ rcs <> [] /\ constraint_dim c = d.
Proof.
  induction rs as [|[d rcs] rs IH]; simpl; [intros [] |].
  destruct rcs as [|first rcs].
  - intros H. destruct (IH H) as [d' [l [Hin Hl]]]. exists d', l. split; [now right | exact Hl].
  - intros [<- | H].
    + exists d, (first :: rcs). split; [now left |]. split; [discriminate | reflexivity].
    + destruct (IH H) as [d' [l [Hin Hl]]]. exists d', l. split; [now right | exact Hl].
Qed.

Lemma equality_specs_In c es :
  In c (equality_specs es) ->
  exists d eqs, In (d, eqs) es /\ eqs <> [] /\ constraint_dim c = d.
Proof.
  unfold equality_specs. intros H. apply in_flat_map in H.
  destruct H as [[d eqs] [Hin Hc]]. simpl in Hc.
  exists d, eqs. split; [assumption |]. split.
  - intros ->. destruct Hc.
  - apply in_map_iff in Hc. destruct Hc as [e [<- _]]. reflexivity.
Qed.

(** Without an entry, or with an empty one: the same for a returned table. *)
Lemma table_get_nil_iff table name :
  table_ok table ->
  (dict_get String.eqb name table = None <-> table_get name table = []).
Proof.
  intros [_ Hne]. unfold table_get.
  destruct (dict_get String.eqb name table) as [l|] eqn:E; [| tauto].
  pose proof (dict_get_Forall _ String.eqb_eq _ _ _ _ Hne E) as Hl. simpl in Hl.
  split; [discriminate | intros ->; congruence].
Qed.

Lemma process_shape_constraints_table_ok cs table :
  _process_shape_constraints cs = Ok table -> table_ok table.
Proof.
  intros H. destruct (process_shape_constraints_stages _ _ H) as [t [_ [Hm _]]].
  eapply merge_loop_table_ok; [exact Hm |]. split; constructor.
Qed.

Lemma process_shape_constraints_equalities cs table name dim :
  _process_shape_constraints cs = Ok table ->
  equality_specs_on dim (table_get name table)
  = map (fun e => EqualityConstraintSpec dim (fst e) (snd e))
      (declared_equalities name dim cs).
Proof.
  intros H.
  destruct (process_shape_constraints_stages _ _ H)
    as [t [_ [_ [_ [Hwe [_ [Heq Hentry]]]]]]].
  rewrite Hentry. unfold entry_specs.
  rewrite equality_specs_on_app, equality_specs_on_merged. simpl.
  rewrite (equality_specs_on_specs dim _ (dim_table_get_equality_NoDup name t Hwe)).
  fold (equality_group_get name dim t). now rewrite Heq.
Qed.

(** An input has an entry in the returned table exactly when a tuple was
    declared for it: an input with an empty ["range"] and an empty
    ["equality"] list has none. *)
Theorem entry_iff_declared cs table name :
  _process_shape_constraints cs = Ok table ->
  (dict_get String.eqb name table = None <-> ~ has_tuples name cs).
Proof.
  intros H.
  rewrite (table_get_nil_iff table name (process_shape_constraints_table_ok _ _ H)).
  split.
  - intros Hnil [sc [Hin [Hr | He]]].
    + destruct (range sc) as [|[[d lo] hi] rs] eqn:E; [congruence |].
      assert (Hd : declared_ranges name d cs <> []).
      { intros Hd. eapply in_nil. rewrite <- Hd.
        eapply declared_ranges_In; [exact Hin |]. rewrite E. now left. }
      destruct (process_shape_constraints_range _ _ _ _ H Hd)
        as [bs [first [_ [_ [Hspec _]]]]].
      rewrite Hnil in Hspec. discriminate Hspec.
    + destruct (equality sc) as [|[[d o] od] es] eqn:E; [congruence |].
      pose proof (process_shape_constraints_equalities cs table name d H) as Hspec.
      rewrite Hnil in Hspec. simpl in Hspec.
      assert (Hd : In (o, od) (declared_equalities name d cs)).
      { eapply declared_equalities_In; [exact Hin |]. rewrite E. now left. }
      destruct (declared_equalities name d cs); [destruct Hd | discriminate Hspec].
  - intros Hno.
    destruct (process_shape_constraints_stages _ _ H)
      as [t [_ [_ [Hwf [Hwe [Hgroup [Heq Hentry]]]]]]].
    rewrite Hentry.
    destruct (entry_specs (dim_table_get name t)) as [|c l] eqn:E; [reflexivity |].
    exfalso. apply Hno.
    assert (Hc : In c (entry_specs (dim_table_get name t))) by (rewrite E; now left).
    unfold entry_specs in Hc. apply in_app_or in Hc. destruct Hc as [Hc | Hc].
    + destruct (merged_range_specs_In _ _ Hc) as [d [rcs [Hin [Hne _]]]].
      apply (In_dict_get Z.eqb Z.eqb_eq) in Hin;
        [| apply dim_table_get_NoDup; assumption].
      destruct (Hgroup name d) as [bs [Hconv Hg]].
      unfold group_get in Hg. rewrite Hin in Hg. subst bs.
      apply (declared_ranges_has_tuples name d).
      intros Hd. rewrite Hd in Hconv. inversion Hconv; subst. congruence.
    + destruct (equality_specs_In _ _ Hc) as [d [eqs [Hin [Hne _]]]].
      apply (In_dict_get Z.eqb Z.eqb_eq) in Hin;
        [| apply dim_table_get_equality_NoDup; assumption].
      apply (declared_equalities_has_tuples name d).
      rewrite <- Heq. unfold equality_group_get, list_get. rewrite Hin. assumption.
Qed.

(** Every equality tuple declared for a dimension of an input gives one
    equality specification of a returned table, in the order of
    declaration: none is merged or dropped. *)
Theorem equality_constraints_kept cs table name dim :
  _process_shape_constraints cs = Ok table ->
  equality_specs_on dim (table_get name table)
  = map (fun e => EqualityConstraintSpec dim (fst e) (snd e))
      (declared_equalities name dim cs).
Proof.
  intros H.
  destruct (process_shape_constraints_stages _ _ H)
    as [t [_ [_ [_ [Hwe [_ [Heq Hentry]]]]]]].
  rewrite Hentry. unfold entry_specs.
  rewrite equality_specs_on_app, equality_specs_on_merged. simpl.
  rewrite (equality_specs_on_specs dim _ (dim_table_get_equality_NoDup name t Hwe)).
  fold (equality_group_get name dim t). now rewrite Heq.
Qed.

(** A returned table has distinct keys; each of its entries is not empty,
    holds its range specifications before its equality specifications, and
    every range specification in it has [min_val <= max_val]. *)
Theorem returned_table_invariants cs table :
  _process_shape_constraints cs = Ok table ->
  NoDup (map fst table)
  /\ forall name l,
       dict_get String.eqb name table = Some l ->
       l <> []
       /\ Forall spec_consistent l
       /\ exists rs es, l = rs ++ es /\ Forall is_range rs /\ Forall is_equality es.
Proof.
  intros H. pose proof (process_shape_constraints_table_ok _ _ H) as [Hnd Hne].
  split; [assumption |].
  intros name l Hget.
  split; [exact (dict_get_Forall _ String.eqb_eq _ _ _ _ Hne Hget) |].
  destruct (process_shape_constraints_stages _ _ H)
    as [t [_ [Hm [_ [_ [_ [_ Hentry]]]]]]].
  specialize (Hentry name). unfold table_get in Hentry. rewrite Hget in Hentry.
  subst l. unfold entry_specs. split.
  - apply Forall_app. split; [| apply equality_specs_consistent].
    destruct (merge_loop_Ok _ _ _ Hm) as [Hcons _].
    unfold dim_table_get.
    destruct (dict_get String.eqb name t) as [dc|] eqn:E; [| constructor].
    exact (dict_get_Forall _ String.eqb_eq _ _ _ _ Hcons E).
  - eexists _, _. split; [reflexivity |]. split.
    + apply merged_range_specs_is_range.
    + apply equality_specs_is_equality.
Qed.

Lemma range_tuples_loop_total name rs t :
  Forall (fun x => exists lo hi, _convert_to_int (snd (fst x)) = Ok lo
                                 /\ _convert_to_int (snd x) = Ok hi) rs ->
  exists t', range_tuples_loop name rs t = Ok t'.
Proof.
  intros H. revert t. induction H as [|[[dim lo] hi] rs [l [h [Hl Hh]]] _ IH]; intros t.
  - exists t. reflexivity.
  - simpl in *. rewrite Hl, Hh. simpl. apply IH.
Qed.

Lemma group_loop_total cs t :
  all_convert cs -> exists t', group_loop cs t = Ok t'.
Proof.
  revert t. induction cs as [|[name sc] cs IH]; intros t Hall.
  - exists t. reflexivity.
  - simpl.
    destruct (range_tuples_loop_total name (range sc) t) as [t1 E1].
    { apply Forall_forall. intros x Hx. apply (Hall name sc x); [now left | assumption]. }
    rewrite E1. simpl. apply IH.
    intros n s x Hin Hx. apply (Hall n s x); [now right | assumption].
Qed.

Lemma merge_range_loop_Raise_group name rs out e :
  merge_range_loop name rs out = Raise e ->
  exists d first rcs,
    In (d, first :: rcs) rs
    /\ bound_leb (hd (fst first) (sorted (map fst (first :: rcs)) true))
                 (hd (snd first) (sorted (map snd (first :: rcs)) false)) = false.
Proof.
  revert out. induction rs as [|[dim rcs] rs IH]; simpl; intros out H; [discriminate |].
  destruct rcs as [|first rcs].
  - destruct (IH _ H) as [d [f [l [Hin Hb]]]]. exists d, f, l. split; [now right | exact Hb].
  - rewrite split_map in H.
    destruct (bound_leb (hd (fst first) (sorted (map fst (first :: rcs)) true))
                (hd (snd first) (sorted (map snd (first :: rcs)) false))) eqn:E.
    + destruct (IH _ H) as [d [f [l [Hin Hb]]]]. exists d, f, l.
      split; [now right | exact Hb].
    + exists dim, first, rcs. split; [now left | exact E].
Qed.

Lemma merge_loop_Raise_group t out e :
  merge_loop t out = Raise e ->
  exists name dc d first rcs,
    In (name, dc) t
    /\ In (d, first :: rcs) (dc_range dc)
    /\ bound_leb (hd (fst first) (sorted (map fst (first :: rcs)) true))
                 (hd (snd first) (sorted (map snd (first :: rcs)) false)) = false.
Proof.
  revert out. induction t as [|[name dc] t IH]; simpl; intros out H; [discriminate |].
  destruct (merge_range_loop name (dc_range dc) out) as [out1|e1] eqn:E1; simpl in H.
  - destruct (IH _ H) as [n [c [d [f [l [Hin Hrest]]]]]].
    exists n, c, d, f, l. split; [now right | exact Hrest].
  - destruct (merge_range_loop_Raise_group _ _ _ _ E1) as [d [f [l [Hin Hb]]]].
    exists name, dc, d, f, l. split; [now left |]. split; assumption.
Qed.

(** An inverted range makes the normalisation fail. *)
Lemma inverted_not_Ok cs name dim table :
  inverted name dim cs -> _process_shape_constraints cs <> Ok table.
Proof.
  intros [bs [mn [mx [Hconv [Hmax [Hmin Hlt]]]]]] H.
  assert (Hne : declared_ranges name dim cs <> []).
  { intros E. rewrite E in Hconv. inversion Hconv; subst. destruct Hmax as [[] _]. }
  destruct (process_shape_constraints_range _ _ _ _ H Hne)
    as [bs' [first [Hconv' [Hfirst [_ Hle]]]]].
  rewrite (converted_fun _ _ _ Hconv' Hconv) in *.
  assert (Hlo : map fst bs <> []) by (destruct bs; [discriminate | discriminate]).
  assert (Hhi : map snd bs <> []) by (destruct bs; [discriminate | discriminate]).
  rewrite <- (is_maximum_unique _ _ _ Hmax (sorted_reverse_hd_maximum _ (fst first) Hlo)) in Hle.
  rewrite <- (is_minimum_unique _ _ _ Hmin (sorted_hd_minimum _ (snd first) Hhi)) in Hle.
  rewrite bound_ltb_not_leb, Hle in Hlt. discriminate.
Qed.

(** When every declared range bound is an integer or infinity, the
    normalisation returns a table or raises an assertion error, and it
    raises exactly when the ranges declared for some dimension of some
    input merge to an empty range. *)
Theorem normaliser_fails_iff_inverted cs :
  all_convert cs ->
  ((exists table, _process_shape_constraints cs = Ok table)
   \/ _process_shape_constraints cs = Raise AssertionError)
  /\ (_process_shape_constraints cs = Raise AssertionError
      <-> exists name dim, inverted name dim cs).
Proof.
  intros Hall.
  destruct (group_loop_total cs [] Hall) as [t Eg].
  assert (Hraise : forall e, _process_shape_constraints cs = Raise e ->
                             e = AssertionError /\ exists name dim, inverted name dim cs).
  { intros e H. unfold _process_shape_constraints in H. rewrite Eg in H. simpl in H.
    split; [eapply merge_loop_Raise; eassumption |].
    destruct (merge_loop_Raise_group _ _ _ H)
      as [name [dc [d [first [rcs [Hin [Hd Hb]]]]]]].
    assert (Hwf0 : wf_dim_table []) by (split; constructor).
    destruct (group_loop_Ok _ _ _ Eg Hwf0) as [[Hkeys Hdims] Hgroup].
    pose proof (In_dict_get String.eqb String.eqb_eq _ _ _ Hkeys Hin) as Hname.
    assert (Hnd : NoDup (map fst (dc_range dc))).
    { rewrite Forall_forall in Hdims. exact (Hdims _ Hin). }
    pose proof (In_dict_get Z.eqb Z.eqb_eq _ _ _ Hnd Hd) as Hdim.
    destruct (Hgroup name d) as [bs [Hconv Hget]]. simpl in Hget.
    unfold group_get, dim_table_get in Hget. rewrite Hname, Hdim in Hget. subst bs.
    exists name, d, (first :: rcs),
      (hd (fst first) (sorted (map fst (first :: rcs)) true)),
      (hd (snd first) (sorted (map snd (first :: rcs)) false)).
    split; [exact Hconv |].
    split; [apply (sorted_reverse_hd_maximum _ (fst first)); discriminate |].
    split; [apply (sorted_hd_minimum _ (snd first)); discriminate |].
    rewrite bound_ltb_not_leb, Hb. reflexivity. }
  split.
  - destruct (_process_shape_constraints cs) as [table|e] eqn:E.
    + left. exists table. reflexivity.
    + right. destruct (Hraise e eq_refl) as [-> _]. reflexivity.
  - split.
    + intros H. exact (proj2 (Hraise _ H)).
    + intros [name [dim Hinv]].
      destruct (_process_shape_constraints cs) as [table|e] eqn:E.
      * exfalso. exact (inverted_not_Ok cs name dim table Hinv E).
      * destruct (Hraise e eq_refl) as [-> _]. reflexivity.
Qed.

Example scenario_mixed_normalised :
  _process_shape_constraints scenario_mixed = Ok scenario_mixed_table.
Proof. reflexivity. Qed.

Lemma entry_iff_declared_witness :
  _process_shape_constraints scenario_mixed = Ok scenario_mixed_table
  /\ dict_get String.eqb "y" scenario_mixed_table = None
  /\ ~ has_tuples "y" scenario_mixed.
Proof.
  split; [reflexivity |]. split; [reflexivity |].
  exact (proj1 (entry_iff_declared scenario_mixed scenario_mixed_table "y" eq_refl)
           eq_refl).
Defined.

Lemma equality_constraints_kept_witness :
  _process_shape_constraints scenario_mixed = Ok scenario_mixed_table
  /\ equality_specs_on 0 (table_get "x" scenario_mixed_table)
     = [EqualityConstraintSpec 0 "y" 0; EqualityConstraintSpec 0 "z" 0].
Proof.
  split; [reflexivity |].
  exact (equality_constraints_kept scenario_mixed scenario_mixed_table "x" 0 eq_refl).
Defined.

Lemma returned_table_invariants_witness :
  _process_shape_constraints scenario_mixed = Ok scenario_mixed_table
  /\ NoDup (map fst scenario_mixed_table).
Proof.
  split; [reflexivity |].
  exact (proj1 (returned_table_invariants scenario_mixed scenario_mixed_table eq_refl)).
Defined.

Lemma normaliser_fails_iff_inverted_witness :
  all_convert (meta_input_shape_constraints (export_meta scenario_inverted))
  /\ (_process_shape_constraints
        (meta_input_shape_constraints (export_meta scenario_inverted))
      = Raise AssertionError
      <-> exists name dim,
            inverted name dim
              (meta_input_shape_constraints (export_meta scenario_inverted))).
Proof.
  assert (Hall : all_convert
                   (meta_input_shape_constraints (export_meta scenario_inverted))).
  { intros name sc x Hin Hx. simpl in Hin. destruct Hin as [[= <- <-] | []].
    simpl in Hx. destruct Hx as [<- | [<- | []]]; do 2 eexists; split; reflexivity. }
  split; [exact Hall |].
  exact (proj2 (normaliser_fails_iff_inverted _ Hall)).
Defined.


(** ** An equality with an input that is not registered *)

Lemma equality_loop_unresolved pre d other_name other_dim name dim rest s :
  resolvable (input_name_to_args s) pre ->
  dict_get String.eqb other_name (input_name_to_args s) = None ->
  equality_loop (pre ++ (EqualityConstraintSpec d other_name other_dim, name, dim) :: rest) s
  = (Raise (KeyError other_name),
     emit (equality_nodes (input_name_to_args s) (List.length (graph s)) pre) s).
Proof.
  intros H Hnone. revert s H Hnone.
  induction pre as [|[[c n0] dim0] pre IH]; intros s H Hnone.
  - simpl. unfold bind, get_self. rewrite Hnone. now rewrite emit_nil.
  - inversion H as [|? ? Hc Hrest]; subst. simpl in Hc.
    destruct c as [| d0 o0 od0]; [contradiction |].
    simpl. unfold bind at 1, get_self.
    destruct (dict_get String.eqb o0 (input_name_to_args s)) as [other_arg|];
      [| congruence].
    rewrite (bind_Ok _ _ _ _ _ (super_call_operator_run _ _ _)).
    rewrite (bind_Ok _ _ _ _ _ (_assert_equality_constraint_run _ _ _ _)).
    rewrite IH by assumption.
    rewrite !emit_emit, !length_graph_emit. simpl. same_nodes.
Qed.

(** When a deferred equality names an input that is not registered,
    [postprocess_placeholders] raises the key error for that name; the
    nodes of the inputs (the specialization assertions of each in the order
    in which its difference set is iterated) and of the equalities before it
    are in the graph. *)
Theorem unresolved_equality_raises
    s gm pre d other_name other_dim name dim rest :
  current_gm s = Some gm ->
  all_constrained (constraints s) (input_name_to_example_inputs s) (input_name_to_args s) ->
  inputs_deferred (constraints s) (input_name_to_example_inputs s)
    (List.length (graph s)) (input_name_to_args s)
  = pre ++ (EqualityConstraintSpec d other_name other_dim, name, dim) :: rest ->
  resolvable (input_name_to_args s) pre ->
  dict_get String.eqb other_name (input_name_to_args s) = None ->
  let nodes := inputs_nodes (constraints s) (input_name_to_example_inputs s)
                 (List.length (graph s)) (input_name_to_args s) in
  postprocess_placeholders s
  = (Raise (KeyError other_name),
     emit (nodes ++ equality_nodes (input_name_to_args s)
                      (List.length (graph s) + List.length nodes) pre) s).
Proof.
  intros Hgm Hall Hdef Hres Hnone nodes.
  unfold postprocess_placeholders. unfold bind at 1, get_self. rewrite Hgm.
  rewrite (bind_Ok _ _ _ _ _ (inputs_loop_all_constrained _ [] s Hall)).
  cbn beta iota. simpl app. rewrite Hdef. fold nodes.
  rewrite (bind_Raise _ _ _ _ _
             (equality_loop_unresolved pre d other_name other_dim name dim rest
                (emit nodes s) Hres Hnone)).
  rewrite emit_emit, length_graph_emit. reflexivity.
Qed.

(** ** Registering an input *)

(** [placeholder], for an input with an example: the node of the input is
    added and registered under its name, the other registrations stay, and
    every registered input still has an example and is in the graph. *)
Theorem placeholder_registers s name shapes :
  dict_get String.eqb name (input_name_to_example_inputs s) = Some shapes ->
  registered_ok s ->
  let arg := List.length (graph s) in
  let s' := set_input_name_to_args
              (dict_set String.eqb name arg (input_name_to_args s))
              (emit [mk_node (placeholder_target name) []] s) in
  placeholder name s = (Ok arg, s')
  /\ dict_get String.eqb name (input_name_to_args s') = Some arg
  /\ (forall other, other <> name ->
        dict_get String.eqb other (input_name_to_args s')
        = dict_get String.eqb other (input_name_to_args s))
  /\ registered_ok s'.
Proof.
  intros Hex Hreg arg s'.
  assert (Hrun : placeholder name s = (Ok arg, s')).
  { unfold placeholder, super_placeholder.
    rewrite (bind_Ok _ _ _ _ _ (super_call_operator_run _ _ _)).
    unfold bind at 1, get_self, dict_mem.
    change (input_name_to_example_inputs (emit _ s))
      with (input_name_to_example_inputs s).
    rewrite Hex. reflexivity. }
  split; [exact Hrun |]. split; [| split].
  - apply (dict_get_set_same _ String.eqb_eq).
  - intros other Hne. apply (dict_get_set_other _ String.eqb_eq). congruence.
  - pose proof (placeholder_registered_ok name s Hreg) as H.
    rewrite Hrun in H. exact H.
Qed.

Lemma placeholder_registers_witness :
  registered_ok scenario_no_example
  /\ fst (placeholder "x" scenario_no_example) = Ok 1%nat
  /\ dict_get String.eqb "x" (input_name_to_args (snd (placeholder "x" scenario_no_example)))
     = Some 1%nat.
Proof.
  assert (Hreg : registered_ok scenario_no_example).
  { constructor; [split; [discriminate | simpl; lia] | constructor]. }
  split; [exact Hreg |].
  destruct (placeholder_registers scenario_no_example "x" [3; 4] eq_refl Hreg)
    as [H1 [H2 _]].
  rewrite H1. split; [reflexivity | exact H2].
Defined.

(** ** The added nodes read earlier nodes only *)

Lemma scoped_from_app base l l' :
  scoped_from base (l ++ l') <-> scoped_from base l /\ scoped_from (base + List.length l) l'.
Proof.
  revert base. induction l as [|n l IH]; intros base; simpl.
  - rewrite Nat.add_0_r. tauto.
  - rewrite IH. replace (S base + List.length l)%nat with (base + S (List.length l))%nat by lia.
    tauto.
Qed.

Lemma scoped_from_weaken base nodes :
  scoped_from base nodes -> forall base', (base <= base')%nat -> scoped_from base' nodes.
Proof.
  revert base. induction nodes as [|n l IH]; intros base H base' Hle; simpl; [exact I |].
  destruct H as [Hn Hl]. split.
  - intros p Hp. specialize (Hn p Hp). lia.
  - apply (IH (S base)); [assumption | lia].
Qed.

Lemma reads_two p a b t :
  reads p (mk_node t [a; b]) -> a = ArgProxy p \/ b = ArgProxy p.
Proof. unfold reads. simpl. intros [H | [H | []]]; auto. Qed.

Lemma reads_one p a t : reads p (mk_node t [a]) -> a = ArgProxy p.
Proof. unfold reads. simpl. intros [H | []]; auto. Qed.

Lemma assert_async_nodes_scoped base operator l r assert_msg :
  (forall p, l = ArgProxy p -> (p < base)%nat) ->
  (forall p, r = ArgProxy p -> (p < base)%nat) ->
  scoped_from base (assert_async_nodes base operator l r assert_msg).
Proof.
  intros Hl Hr. unfold assert_async_nodes. cbn [scoped_from]. repeat split.
  - intros p Hp. apply reads_two in Hp. destruct Hp; auto.
  - intros p Hp. apply reads_one in Hp. injection Hp as <-. lia.
  - intros p Hp. apply reads_two in Hp. destruct Hp as [Hp | Hp]; [| discriminate].
    injection Hp as <-. lia.
Qed.

Lemma range_nodes_scoped base proxy lower upper assert_msg low_threshold :
  (proxy < base)%nat ->
  scoped_from base (range_nodes base proxy lower upper assert_msg low_threshold).
Proof.
  intros Hp. unfold range_nodes. apply scoped_from_app. split.
  - destruct (bound_ltb (Fin low_threshold) lower); [| exact I].
    apply assert_async_nodes_scoped; intros p [=]; subst; assumption.
  - destruct (bound_ltb upper Inf); [| exact I].
    apply assert_async_nodes_scoped; intros p [=]; subst; lia.
Qed.

Lemma sym_size_scoped p arg d base :
  (arg < base)%nat ->
  reads p (mk_node aten_sym_size [ArgProxy arg; ArgNum (Fin d)]) -> (p < base)%nat.
Proof.
  intros Ha Hp. apply reads_two in Hp. destruct Hp as [Hp | Hp]; [| discriminate].
  injection Hp as <-. assumption.
Qed.

Lemma specialized_nodes_scoped base arg dims name shapes :
  (arg < base)%nat -> scoped_from base (specialized_nodes base arg dims name shapes).
Proof.
  revert base. induction dims as [|d dims IH]; intros base Ha; [exact I |].
  cbn [specialized_nodes]. apply scoped_from_app. split.
  - unfold specialization_chain. cbn [scoped_from].
    split; [intros p; now apply sym_size_scoped |].
    apply (assert_async_nodes_scoped (S base)); intros p [=]; subst; lia.
  - change (List.length (specialization_chain base arg name d (nth (Z.to_nat d) shapes 0)))
      with 4%nat.
    apply IH. lia.
Qed.

Lemma constraint_nodes_scoped base arg name c :
  (arg < base)%nat -> scoped_from base (constraint_nodes base arg name c).
Proof.
  intros Ha. unfold constraint_nodes. cbn [scoped_from].
  split; [intros p; now apply sym_size_scoped |].
  destruct c; [| exact I]. apply range_nodes_scoped. lia.
Qed.

Lemma constraints_nodes_scoped base arg name cs :
  (arg < base)%nat -> scoped_from base (constraints_nodes base arg name cs).
Proof.
  revert base. induction cs as [|c cs IH]; intros base Ha; [exact I |].
  cbn [constraints_nodes]. apply scoped_from_app. split.
  - now apply constraint_nodes_scoped.
  - apply IH. lia.
Qed.

Lemma constraint_nodes_length_pos base arg name c :
  (0 < List.length (constraint_nodes base arg name c))%nat.
Proof. unfold constraint_nodes. simpl. lia. Qed.

(** A deferred equality holds a size read among the nodes of the loop. *)
Lemma deferred_of_bound base arg name cs :
  Forall (fun e : deferred =>
            (snd e < base + List.length (constraints_nodes base arg name cs))%nat)
    (deferred_of base arg name cs).
Proof.
  revert base. induction cs as [|c cs IH]; intros base; [constructor |].
  cbn [deferred_of constraints_nodes]. rewrite length_app.
  pose proof (constraint_nodes_length_pos base arg name c) as Hpos.
  apply Forall_app. split.
  - destruct c; repeat constructor. simpl snd. lia.
  - eapply Forall_impl; [| apply IH]. simpl. intros e He. lia.
Qed.

Lemma input_nodes_scoped base arg name cs shapes :
  (arg < base)%nat -> scoped_from base (input_nodes base arg name cs shapes).
Proof.
  intros Ha. unfold input_nodes. apply scoped_from_app. split.
  - now apply constraints_nodes_scoped.
  - apply specialized_nodes_scoped. lia.
Qed.

Lemma deferred_of_bound_input base arg name cs shapes :
  Forall (fun e : deferred =>
            (snd e < base + List.length (input_nodes base arg name cs shapes))%nat)
    (deferred_of base arg name cs).
Proof.
  eapply Forall_impl; [| apply deferred_of_bound]. simpl. intros e He.
  unfold input_nodes. rewrite length_app. lia.
Qed.

(** Whatever the outcome of the loop over the inputs, it only adds nodes,
    each reading nodes before it, when the registered inputs and the sizes
    of the deferred equalities are in the graph. *)
Lemma inputs_loop_scoped items eqs s :
  Forall (fun item : string * nat => (snd item < List.length (graph s))%nat) items ->
  Forall (fun e : deferred => (snd e < List.length (graph s))%nat) eqs ->
  exists nodes,
    snd (inputs_loop items eqs s) = emit nodes s
    /\ scoped_from (List.length (graph s)) nodes
    /\ forall eqs', fst (inputs_loop items eqs s) = Ok (inr eqs') ->
         Forall (fun e : deferred =>
                   (snd e < List.length (graph s) + List.length nodes)%nat) eqs'.
Proof.
  revert eqs s. induction items as [|[name arg] items IH]; intros eqs s Hitems Heqs.
  - exists []. simpl. rewrite emit_nil. split; [reflexivity |]. split; [exact I |].
    intros eqs' [= <-]. eapply Forall_impl; [| exact Heqs]. simpl. intros; lia.
  - inversion Hitems as [|? ? Ha Hrest]; subst. simpl in Ha.
    destruct (dict_get String.eqb name (input_name_to_example_inputs s))
      as [shapes|] eqn:Ee.
    + destruct (dict_get String.eqb name (constraints s)) as [cs|] eqn:Ec.
      * rewrite (inputs_loop_constrained _ _ _ _ _ _ _ Ee Ec).
        set (here := input_nodes (List.length (graph s)) arg name cs shapes).
        destruct (IH (eqs ++ deferred_of (List.length (graph s)) arg name cs)
                     (emit here s)) as [nodes [Hs [Hn He]]].
        { rewrite length_graph_emit. eapply Forall_impl; [| exact Hrest].
          simpl. intros; lia. }
        { rewrite length_graph_emit. apply Forall_app. split.
          - eapply Forall_impl; [| exact Heqs]. simpl. intros; lia.
          - apply deferred_of_bound_input. }
        exists (here ++ nodes).
        split; [now rewrite Hs, emit_emit |]. split.
        -- apply scoped_from_app. split; [now apply input_nodes_scoped |].
           rewrite length_graph_emit in Hn. exact Hn.
        -- intros eqs' H. specialize (He eqs' H).
           rewrite length_graph_emit in He. rewrite length_app.
           eapply Forall_impl; [| exact He]. simpl. intros; lia.
      * rewrite (inputs_loop_unconstrained _ _ _ _ _ _ Ee Ec).
        eexists. split; [reflexivity |]. split.
        -- now apply specialized_nodes_scoped.
        -- intros eqs' H. discriminate H.
    + exists []. simpl. unfold bind, get_self, raise. rewrite Ee. simpl.
      rewrite emit_nil. split; [reflexivity |]. split; [exact I |].
      intros eqs' H. discriminate H.
Qed.

Lemma equality_loop_scoped eqs s :
  Forall (fun item : string * nat => (snd item < List.length (graph s))%nat)
    (input_name_to_args s) ->
  Forall (fun e : deferred => (snd e < List.length (graph s))%nat) eqs ->
  exists nodes,
    snd (equality_loop eqs s) = emit nodes s
    /\ scoped_from (List.length (graph s)) nodes.
Proof.
  revert s. induction eqs as [|[[c name] dim] eqs IH]; intros s Hreg Heqs.
  - exists []. simpl. rewrite emit_nil. split; [reflexivity | exact I].
  - inversion Heqs as [|? ? Hd Hrest]; subst. simpl in Hd.
    destruct c as [| d other_name other_dim].
    + exists []. simpl. rewrite emit_nil. split; [reflexivity | exact I].
    + simpl. unfold bind at 1, get_self.
      destruct (dict_get String.eqb other_name (input_name_to_args s))
        as [other_arg|] eqn:Eo.
      * rewrite (bind_Ok _ _ _ _ _ (super_call_operator_run _ _ _)).
        rewrite (bind_Ok _ _ _ _ _ (_assert_equality_constraint_run _ _ _ _)).
        rewrite emit_emit.
        match goal with
        | |- context [equality_loop eqs ?s'] =>
            destruct (IH s') as [nodes [Hs Hn]]
        end.
        { rewrite length_graph_emit. eapply Forall_impl; [| exact Hreg].
          simpl. intros; lia. }
        { rewrite length_graph_emit. eapply Forall_impl; [| exact Hrest].
          simpl. intros; lia. }
        eexists. split; [rewrite Hs, emit_emit; reflexivity |].
        apply scoped_from_app. split; [| rewrite <- length_graph_emit; exact Hn].
        assert (Hoa : (other_arg < List.length (graph s))%nat).
        { apply (dict_get_In _ String.eqb_eq) in Eo.
          rewrite Forall_forall in Hreg. exact (Hreg _ Eo). }
        cbn [scoped_from]. split; [intros p; now apply sym_size_scoped |].
        rewrite length_graph_emit. cbn [List.length]. rewrite Nat.add_1_r.
        apply (assert_async_nodes_scoped (S (List.length (graph s))));
          intros p [=]; subst; lia.
      * exists []. simpl. rewrite emit_nil. split; [reflexivity | exact I].
Qed.

(** Whatever its outcome, [postprocess_placeholders] leaves the fields of
    the pass object and the nodes of the graph as they were and only adds
    nodes, each of which reads nodes that come before it; a graph whose
    nodes read earlier nodes only stays so. *)
Theorem postprocess_placeholders_adds_scoped_nodes s :
  registered_ok s ->
  exists nodes,
    snd (postprocess_placeholders s) = emit nodes s
    /\ scoped_from (List.length (graph s)) nodes
    /\ (scoped_from 0 (graph s) ->
        scoped_from 0 (graph (snd (postprocess_placeholders s)))).
Proof.
  intros Hreg.
  assert (Hargs : Forall (fun item : string * nat =>
                            (snd item < List.length (graph s))%nat)
                    (input_name_to_args s)).
  { eapply Forall_impl; [| exact Hreg]. simpl. tauto. }
  assert (Hmain : exists nodes,
             snd (postprocess_placeholders s) = emit nodes s
             /\ scoped_from (List.length (graph s)) nodes).
  { unfold postprocess_placeholders. unfold bind at 1, get_self.
    destruct (current_gm s).
    - destruct (inputs_loop_scoped (input_name_to_args s) [] s Hargs (Forall_nil _))
        as [nodes [Hs [Hn He]]].
      unfold bind at 1.
      destruct (inputs_loop (input_name_to_args s) [] s) as [[[arg | eqs] | e] s'] eqn:El;
        simpl in Hs; subst s'.
      + exists nodes. split; [reflexivity | assumption].
      + destruct (equality_loop_scoped eqs (emit nodes s)) as [nodes' [Hs' Hn']].
        { rewrite length_graph_emit. eapply Forall_impl; [| exact Hargs].
          simpl. intros; lia. }
        { rewrite length_graph_emit. apply He. reflexivity. }
        exists (nodes ++ nodes'). unfold bind.
        rewrite length_graph_emit in Hn'.
        destruct (equality_loop eqs (emit nodes s)) as [[[] | e] s'']; simpl in Hs';
          subst s''; simpl; rewrite emit_emit;
          (split; [reflexivity | apply scoped_from_app; split; assumption]).
      + exists nodes. split; [reflexivity | assumption].
    - exists []. simpl. rewrite emit_nil. split; [reflexivity | exact I]. }
  destruct Hmain as [nodes [Hs Hn]]. exists nodes.
  split; [exact Hs |]. split; [exact Hn |].
  intros Hg. rewrite Hs, graph_emit. apply scoped_from_app. split; assumption.
Qed.

(** ** When [call_operator] raises *)

Lemma scalar_inline_outcome inline expr :
  (dict_mem sympy_eqb expr inline = false ->
   add_assertions "_assert_constraint" inline (SymInt expr) = Ok ([], []))
  /\ (dict_mem sympy_eqb expr inline = true ->
      exists e,
        (e = non_integer_error \/ e = AttributeError "_assert_constraint")
        /\ add_assertions "_assert_constraint" inline (SymInt expr) = Raise e).
Proof.
  unfold dict_mem. simpl.
  destruct (dict_get sympy_eqb expr inline) as [c|]; split; intros H;
    try discriminate; [| reflexivity].
  destruct (_convert_to_int (fst c)) as [l|e] eqn:El; simpl.
  - destruct (_convert_to_int (snd c)) as [h|e] eqn:Eh; simpl.
    + eexists. split; [right; reflexivity | reflexivity].
    + exists e. split; [left; eapply _convert_to_int_Raise; eassumption | reflexivity].
  - exists e. split; [left; eapply _convert_to_int_Raise; eassumption | reflexivity].
Qed.

Lemma shape_loop_outcome inline i shape :
  Forall (inline_outcome inline) shape ->
  (existsb (mentions_inline inline) shape = false ->
   shape_loop (add_assertions "_assert_constraint" inline) i shape = Ok [])
  /\ (existsb (mentions_inline inline) shape = true ->
      exists e,
        (e = non_integer_error \/ e = AttributeError "_assert_constraint")
        /\ shape_loop (add_assertions "_assert_constraint" inline) i shape = Raise e).
Proof.
  intros H. revert i. induction H as [|v shape [Hno Hyes] _ IH]; intros i; simpl.
  - split; [reflexivity | discriminate].
  - destruct (mentions_inline inline v) eqn:Ev; simpl.
    + split; [discriminate |]. intros _.
      destruct (Hyes eq_refl) as [e [He Hr]]. exists e. rewrite Hr. split; [exact He | reflexivity].
    + rewrite (Hno eq_refl). simpl. destruct (IH (i + 1)) as [IHno IHyes]. split.
      * intros Hs. rewrite (IHno Hs). reflexivity.
      * intros Hs. destruct (IHyes Hs) as [e [He Hr]]. exists e. rewrite Hr.
        split; [exact He | reflexivity].
Qed.

Lemma add_assertions_outcome inline val : inline_outcome inline val.
Proof.
  induction val as [e | e | e | shape IH | ] using Val_nested_ind.
  - apply scalar_inline_outcome.
  - apply scalar_inline_outcome.
  - apply scalar_inline_outcome.
  - unfold inline_outcome. cbn [add_assertions mentions_inline].
    destruct (shape_loop_outcome inline 0 shape IH) as [Hno Hyes]. split.
    + intros H. rewrite (Hno H). reflexivity.
    + intros H. destruct (Hyes H) as [e [He Hr]]. exists e. rewrite Hr.
      split; [exact He | reflexivity].
  - split; [reflexivity | discriminate].
Qed.

(** [call_operator] adds the node of the operation and then returns its
    proxy, when the value of the operation holds no symbol with an inline
    constraint, and raises otherwise: the non-integer error or the
    attribute error for [_assert_constraint]. It adds no other node. *)
Theorem call_operator_raises_iff_inline_symbol op arguments val s :
  (mentions_inline (inline_constraints s) val = false ->
   call_operator op arguments (Some val) s
   = (Ok (List.length (graph s)), emit [mk_node op arguments] s))
  /\ (mentions_inline (inline_constraints s) val = true ->
      exists e,
        (e = non_integer_error \/ e = AttributeError "_assert_constraint")
        /\ call_operator op arguments (Some val) s
           = (Raise e, emit [mk_node op arguments] s)).
Proof.
  destruct (add_assertions_outcome (inline_constraints s) val) as [Hno Hyes]. split.
  - intros H. specialize (Hno H).
    unfold call_operator, call_operator_at.
    rewrite (bind_Ok _ _ _ _ _ (super_call_operator_run _ _ _)).
    unfold bind at 1, get_self. unfold bind at 1, lift.
    change (inline_constraints (emit _ s)) with (inline_constraints s).
    rewrite Hno. reflexivity.
  - intros H. destruct (Hyes H) as [e [He Hr]]. exists e. split; [exact He |].
    unfold call_operator. now apply call_operator_at_Raise.
Qed.


(** ** Size reads and whole assertions *)

Lemma assertion_blocks_app base l l' :
  assertion_blocks base l ->
  assertion_blocks (base + List.length l) l' ->
  assertion_blocks base (l ++ l').
Proof.
  intros H. revert l'. induction H as [b | b arg d rest H IH | b op x y msg rest Hop H IH];
    intros l' Hl'.
  - simpl in Hl'. rewrite Nat.add_0_r in Hl'. exact Hl'.
  - simpl. constructor. apply IH.
    replace (S b + List.length rest)%nat with (b + S (List.length rest))%nat by lia.
    exact Hl'.
  - rewrite <- app_assoc. constructor; [assumption |]. apply IH.
    rewrite length_app in Hl'. simpl in Hl'.
    replace (b + 3 + List.length rest)%nat with (b + (3 + List.length rest))%nat by lia.
    exact Hl'.
Qed.

Lemma assertion_blocks_one base operator l r assert_msg :
  is_comparison operator ->
  assertion_blocks base (assert_async_nodes base operator l r assert_msg).
Proof.
  intros H. rewrite <- (app_nil_r (assert_async_nodes _ _ _ _ _)).
  constructor; [assumption | constructor].
Qed.

Lemma range_nodes_blocks base proxy lower upper assert_msg low_threshold :
  assertion_blocks base (range_nodes base proxy lower upper assert_msg low_threshold).
Proof.
  unfold range_nodes. apply assertion_blocks_app.
  - destruct (bound_ltb (Fin low_threshold) lower); [| constructor].
    apply assertion_blocks_one. right; left; reflexivity.
  - destruct (bound_ltb upper Inf); [| constructor].
    apply assertion_blocks_one. right; right; reflexivity.
Qed.

Lemma specialized_nodes_blocks base arg dims name shapes :
  assertion_blocks base (specialized_nodes base arg dims name shapes).
Proof.
  revert base. induction dims as [|d dims IH]; intros base; [constructor |].
  cbn [specialized_nodes]. unfold specialization_chain.
  rewrite <- app_comm_cons. constructor. constructor; [left; reflexivity |].
  replace (S base + 3)%nat with (base + 4)%nat by lia. apply IH.
Qed.

Lemma constraints_nodes_blocks base arg name cs :
  assertion_blocks base (constraints_nodes base arg name cs).
Proof.
  revert base. induction cs as [|c cs IH]; intros base; [constructor |].
  cbn [constraints_nodes]. apply assertion_blocks_app; [| apply IH].
  unfold constraint_nodes. constructor.
  destruct c; [apply range_nodes_blocks | constructor].
Qed.

Lemma input_nodes_blocks base arg name cs shapes :
  assertion_blocks base (input_nodes base arg name cs shapes).
Proof.
  unfold input_nodes. apply assertion_blocks_app.
  - apply constraints_nodes_blocks.
  - apply specialized_nodes_blocks.
Qed.

Lemma inputs_loop_blocks items eqs s :
  exists nodes,
    snd (inputs_loop items eqs s) = emit nodes s
    /\ assertion_blocks (List.length (graph s)) nodes.
Proof.
  revert eqs s. induction items as [|[name arg] items IH]; intros eqs s.
  - exists []. simpl. rewrite emit_nil. split; [reflexivity | constructor].
  - destruct (dict_get String.eqb name (input_name_to_example_inputs s))
      as [shapes|] eqn:Ee.
    + destruct (dict_get String.eqb name (constraints s)) as [cs|] eqn:Ec.
      * rewrite (inputs_loop_constrained _ _ _ _ _ _ _ Ee Ec).
        set (here := input_nodes (List.length (graph s)) arg name cs shapes).
        destruct (IH (eqs ++ deferred_of (List.length (graph s)) arg name cs)
                     (emit here s)) as [nodes [Hs Hn]].
        exists (here ++ nodes). split; [now rewrite Hs, emit_emit |].
        apply assertion_blocks_app; [apply input_nodes_blocks |].
        rewrite length_graph_emit in Hn. exact Hn.
      * rewrite (inputs_loop_unconstrained _ _ _ _ _ _ Ee Ec).
        eexists. split; [reflexivity | apply specialized_nodes_blocks].
    + exists []. simpl. unfold bind, get_self, raise. rewrite Ee. simpl.
      rewrite emit_nil. split; [reflexivity | constructor].
Qed.

Lemma equality_loop_blocks eqs s :
  exists nodes,
    snd (equality_loop eqs s) = emit nodes s
    /\ assertion_blocks (List.length (graph s)) nodes.
Proof.
  revert s. induction eqs as [|[[c name] dim] eqs IH]; intros s.
  - exists []. simpl. rewrite emit_nil. split; [reflexivity | constructor].
  - destruct c as [| d other_name other_dim].
    + exists []. simpl. rewrite emit_nil. split; [reflexivity | constructor].
    + simpl. unfold bind at 1, get_self.
      destruct (dict_get String.eqb other_name (input_name_to_args s))
        as [other_arg|] eqn:Eo.
      * rewrite (bind_Ok _ _ _ _ _ (super_call_operator_run _ _ _)).
        rewrite (bind_Ok _ _ _ _ _ (_assert_equality_constraint_run _ _ _ _)).
        rewrite emit_emit.
        match goal with
        | |- context [equality_loop eqs ?s'] =>
            destruct (IH s') as [nodes [Hs Hn]]
        end.
        eexists. split; [rewrite Hs, emit_emit; reflexivity |].
        apply assertion_blocks_app; [| rewrite <- length_graph_emit; exact Hn].
        simpl app. constructor.
        rewrite length_app. cbn [List.length]. rewrite Nat.add_1_r.
        apply assertion_blocks_one. left; reflexivity.
      * exists []. simpl. rewrite emit_nil. split; [reflexivity | constructor].
Qed.

(** In a run of size reads and whole assertions, an assertion node is the
    third node of its block. *)
Lemma assertion_blocks_assert base nodes :
  assertion_blocks base nodes ->
  forall i n,
    nth_error nodes i = Some n ->
    target n = aten__assert_async_msg ->
    exists j operator l r assert_msg,
      i = S (S j)
      /\ is_comparison operator
      /\ nth_error nodes j = Some (mk_node operator [l; r])
      /\ nth_error nodes (S j)
         = Some (mk_node aten_scalar_tensor_default [ArgProxy (base + j)])
      /\ n = mk_node aten__assert_async_msg [ArgProxy (base + S j); ArgStr assert_msg].
Proof.
  intros H. induction H as [b | b arg d rest H IH | b op x y msg rest Hop H IH];
    intros i n Hi Ht.
  - destruct i; discriminate Hi.
  - destruct i as [|i]; simpl in Hi.
    + injection Hi as <-. discriminate Ht.
    + destruct (IH i n Hi Ht) as [j [o [l [r [m [-> [Ho [H1 [H2 H3]]]]]]]]].
      exists (S j), o, l, r, m. split; [reflexivity |]. split; [assumption |].
      split; [exact H1 |]. split.
      * change (nth_error rest (S j)
                = Some (mk_node aten_scalar_tensor_default [ArgProxy (b + S j)])).
        replace (b + S j)%nat with (S b + j)%nat by lia. exact H2.
      * rewrite H3. replace (b + S (S j))%nat with (S b + S j)%nat by lia. reflexivity.
  - destruct i as [|[|[|i]]]; simpl in Hi.
    + injection Hi as <-. simpl in Ht. destruct Hop as [-> | [-> | ->]]; discriminate Ht.
    + injection Hi as <-. discriminate Ht.
    + injection Hi as <-. exists 0%nat, op, x, y, msg.
      split; [reflexivity |]. split; [assumption |]. split; [reflexivity |].
      split; [simpl; now rewrite Nat.add_0_r |].
      now rewrite Nat.add_1_r.
    + destruct (IH i n Hi Ht) as [j [o [l [r [m [-> [Ho [H1 [H2 H3]]]]]]]]].
      exists (3 + j)%nat, o, l, r, m. split; [reflexivity |]. split; [assumption |].
      split; [exact H1 |]. split.
      * change (nth_error rest (S j)
                = Some (mk_node aten_scalar_tensor_default [ArgProxy (b + (3 + j))])).
        replace (b + (3 + j))%nat with (b + 3 + j)%nat by lia. exact H2.
      * rewrite H3. replace (b + S (3 + j))%nat with (b + 3 + S j)%nat by lia.
        reflexivity.
Qed.

(** Whatever its outcome, [postprocess_placeholders] adds size reads and
    whole assertions only: every assertion node it adds reads the scalar
    tensor added just before it, which reads the comparison added just
    before that; no comparison is left without its assertion. *)
Theorem postprocess_placeholders_adds_whole_assertions s :
  exists nodes,
    snd (postprocess_placeholders s) = emit nodes s
    /\ assertion_blocks (List.length (graph s)) nodes
    /\ forall i n,
         nth_error nodes i = Some n ->
         target n = aten__assert_async_msg ->
         exists j operator l r assert_msg,
           i = S (S j)
           /\ is_comparison operator
           /\ nth_error nodes j = Some (mk_node operator [l; r])
           /\ nth_error nodes (S j)
              = Some (mk_node aten_scalar_tensor_default
                        [ArgProxy (List.length (graph s) + j)])
           /\ n = mk_node aten__assert_async_msg
                    [ArgProxy (List.length (graph s) + S j); ArgStr assert_msg].
Proof.
  assert (Hmain : exists nodes,
             snd (postprocess_placeholders s) = emit nodes s
             /\ assertion_blocks (List.length (graph s)) nodes).
  { unfold postprocess_placeholders. unfold bind at 1, get_self.
    destruct (current_gm s).
    - destruct (inputs_loop_blocks (input_name_to_args s) [] s) as [nodes [Hs Hn]].
      unfold bind at 1.
      destruct (inputs_loop (input_name_to_args s) [] s) as [[[arg | eqs] | e] s'] eqn:El;
        simpl in Hs; subst s'.
      + exists nodes. split; [reflexivity | assumption].
      + destruct (equality_loop_blocks eqs (emit nodes s)) as [nodes' [Hs' Hn']].
        exists (nodes ++ nodes'). unfold bind.
        rewrite length_graph_emit in Hn'.
        destruct (equality_loop eqs (emit nodes s)) as [[[] | e] s'']; simpl in Hs';
          subst s''; simpl; rewrite emit_emit;
          (split; [reflexivity | apply assertion_blocks_app; assumption]).
      + exists nodes. split; [reflexivity | assumption].
    - exists []. simpl. rewrite emit_nil. split; [reflexivity | constructor]. }
  destruct Hmain as [nodes [Hs Hn]]. exists nodes.
  split; [exact Hs |]. split; [exact Hn |].
  exact (assertion_blocks_assert _ _ Hn).
Qed.

End SetOrder.

(** ** The order of a difference set *)

Lemma insert_by_slot_sorted slot d l :
  StronglySorted (fun x y => slot x <= slot y) l ->
  StronglySorted (fun x y => slot x <= slot y) (insert_by_slot slot d l).
Proof.
  induction 1 as [| e l Hl IH He]; simpl.
  - repeat constructor.
  - destruct (slot d <? slot e) eqn:E.
    + apply Z.ltb_lt in E. constructor; [now constructor |].
      constructor; [lia |].
      apply Forall_forall. intros y Hy.
      rewrite Forall_forall in He. specialize (He y Hy). simpl in He. lia.
    + apply Z.ltb_ge in E. constructor; [exact IH |].
      apply (Permutation_Forall (Permutation_sym (insert_by_slot_perm slot d l))).
      constructor; assumption.
Qed.

Lemma by_slot_sorted slot l :
  StronglySorted (fun x y => slot x <= slot y) (by_slot slot l).
Proof.
  induction l as [| d l IH]; simpl; [constructor |].
  now apply insert_by_slot_sorted.
Qed.

Lemma index_of_nonneg d l : 0 <= index_of d l.
Proof.
  induction l as [| e l IH]; cbn [index_of]; [lia |]. destruct (d =? e); lia.
Qed.

Lemma index_of_inj l a b :
  In a l -> In b l -> index_of a l = index_of b l -> a = b.
Proof.
  induction l as [| e l IH]; cbn [index_of In]; [intros [] |].
  intros Ha Hb.
  destruct (a =? e) eqn:Ea, (b =? e) eqn:Eb.
  - apply Z.eqb_eq in Ea, Eb. congruence.
  - pose proof (index_of_nonneg b l). lia.
  - pose proof (index_of_nonneg a l). lia.
  - apply Z.eqb_neq in Ea, Eb. intros H. apply IH.
    + destruct Ha as [Ha | Ha]; [congruence | exact Ha].
    + destruct Hb as [Hb | Hb]; [congruence | exact Hb].
    + lia.
Qed.

Lemma StronglySorted_ext (R R' : Z -> Z -> Prop) l :
  (forall x y, In x l -> In y l -> R x y -> R' x y) ->
  StronglySorted R l -> StronglySorted R' l.
Proof.
  intros H Hs. induction Hs as [| e l Hl IH He]; [constructor |].
  constructor.
  - apply IH. intros x y Hx Hy. apply H; now right.
  - apply Forall_forall. intros y Hy.
    rewrite Forall_forall in He. apply H; [now left | now right | now apply He].
Qed.

Lemma index_of_sorted l :
  NoDup l -> StronglySorted (fun x y => index_of x l <= index_of y l) l.
Proof.
  induction 1 as [| e l He Hl IH]; [constructor |].
  constructor.
  - apply (StronglySorted_ext (fun x y => index_of x l <= index_of y l)); [| exact IH].
    intros x y Hx Hy Hxy. cbn [index_of].
    destruct (x =? e) eqn:Ex; [apply Z.eqb_eq in Ex; congruence |].
    destruct (y =? e) eqn:Ey; [apply Z.eqb_eq in Ey; congruence |].
    lia.
  - apply Forall_forall. intros y Hy. cbn [index_of]. rewrite Z.eqb_refl.
    destruct (y =? e); [lia |]. pose proof (index_of_nonneg y l). lia.
Qed.

(** A list sorted by a key that tells its elements apart is determined by
    its elements. *)
Lemma sorted_perm_eq (slot : Z -> Z) x y :
  (forall a b, In a x -> In b x -> slot a = slot b -> a = b) ->
  StronglySorted (fun a b => slot a <= slot b) x ->
  StronglySorted (fun a b => slot a <= slot b) y ->
  Permutation x y -> x = y.
Proof.
  revert y. induction x as [| a x IH]; intros y Hinj Hx Hy Hp.
  - apply Permutation_nil in Hp. now subst.
  - destruct y as [| b y].
    + apply Permutation_sym, Permutation_nil in Hp. discriminate.
    + inversion Hx as [| ? ? Hx' Hax]; subst.
      inversion Hy as [| ? ? Hy' Hby]; subst.
      rewrite Forall_forall in Hax, Hby.
      assert (Hab : a = b).
      { assert (Ha : In a (b :: y))
          by (apply (Permutation_in _ Hp); now left).
        assert (Hb : In b (a :: x))
          by (apply (Permutation_in _ (Permutation_sym Hp)); now left).
        destruct Ha as [Ha | Ha]; [now symmetry |].
        destruct Hb as [Hb | Hb]; [exact Hb |].
        apply Hinj; [now left | now right |].
        specialize (Hax b Hb). specialize (Hby a Ha). simpl in Hax, Hby. lia. }
      subst b. f_equal. apply IH.
      * intros c e Hc He. apply Hinj; now right.
      * exact Hx'.
      * exact Hy'.
      * exact (Permutation_cons_inv Hp).
Qed.

(** The slots do not restrict the order: every list of the elements of
    [a - b], each once, is the order of iteration under some slots. *)
Lemma every_order_has_slots a b l :
  NoDup l -> Permutation l (not_in a b) ->
  set_difference (slots_in_order l) a b = l.
Proof.
  intros Hnd Hp. unfold set_difference, slots_in_order. cbn [slot_of].
  apply (sorted_perm_eq (fun d => index_of d l)).
  - intros c e Hc He. apply index_of_inj.
    + apply (Permutation_in _ (Permutation_sym Hp)).
      exact (Permutation_in _ (by_slot_perm _ _) Hc).
    + apply (Permutation_in _ (Permutation_sym Hp)).
      exact (Permutation_in _ (by_slot_perm _ _) He).
  - apply by_slot_sorted.
  - now apply index_of_sorted.
  - apply perm_trans with (not_in a b);
      [apply by_slot_perm | now apply Permutation_sym].
Qed.

(** ** The statements at concrete inputs *)

(** The two slot assignments list the elements of a difference in the
    increasing order and, for [set(range(9)) - {0, 1, 2, 3, 4}], in the
    order 8, 5, 6, 7. *)
Example set_difference_of_value :
  set_difference slots_of_value (range_set 9) [0; 1; 2; 3; 4] = [5; 6; 7; 8].
Proof. reflexivity. Qed.

Example set_difference_of_eight :
  set_difference slots_of_eight (range_set 9) [0; 1; 2; 3; 4] = [8; 5; 6; 7].
Proof. reflexivity. Qed.


(** Scenario A, and the input [y] without constraints after the input [x]
    of nine dimensions, whose difference set is iterated as 8, 5, 6, 7. *)
Lemma unconstrained_input_specialized_then_return_witness :
  postprocess_placeholders slots_of_value scenario_A
  = (Ok (Some 0%nat),
     emit [mk_node aten_sym_size [ArgProxy 0; ArgNum (Fin 0)];
           mk_node operator_eq [ArgProxy 2; ArgNum (Fin 3)];
           mk_node aten_scalar_tensor_default [ArgProxy 3];
           mk_node aten__assert_async_msg
             [ArgProxy 4; ArgStr "Input x's dimension #0 size is specialized at 3"];
           mk_node aten_sym_size [ArgProxy 0; ArgNum (Fin 1)];
           mk_node operator_eq [ArgProxy 6; ArgNum (Fin 4)];
           mk_node aten_scalar_tensor_default [ArgProxy 7];
           mk_node aten__assert_async_msg
             [ArgProxy 8; ArgStr "Input x's dimension #1 size is specialized at 4"]]
       scenario_A)
  /\ postprocess_placeholders slots_of_eight scenario_nine
     = (Ok (Some 1%nat),
        emit [mk_node aten_sym_size [ArgProxy 0; ArgNum (Fin 0)];
              mk_node aten_sym_size [ArgProxy 0; ArgNum (Fin 1)];
              mk_node aten_sym_size [ArgProxy 0; ArgNum (Fin 2)];
              mk_node aten_sym_size [ArgProxy 0; ArgNum (Fin 3)];
              mk_node aten_sym_size [ArgProxy 0; ArgNum (Fin 4)];
              mk_node aten_sym_size [ArgProxy 0; ArgNum (Fin 8)];
              mk_node operator_eq [ArgProxy 8; ArgNum (Fin 10)];
              mk_node aten_scalar_tensor_default [ArgProxy 9];
              mk_node aten__assert_async_msg
                [ArgProxy 10; ArgStr "Input x's dimension #8 size is specialized at 10"];
              mk_node aten_sym_size [ArgProxy 0; ArgNum (Fin 5)];
              mk_node operator_eq [ArgProxy 12; ArgNum (Fin 7)];
              mk_node aten_scalar_tensor_default [ArgProxy 13];
              mk_node aten__assert_async_msg
                [ArgProxy 14; ArgStr "Input x's dimension #5 size is specialized at 7"];
              mk_node aten_sym_size [ArgProxy 0; ArgNum (Fin 6)];
              mk_node operator_eq [ArgProxy 16; ArgNum (Fin 8)];
              mk_node aten_scalar_tensor_default [ArgProxy 17];
              mk_node aten__assert_async_msg
                [ArgProxy 18; ArgStr "Input x's dimension #6 size is specialized at 8"];
              mk_node aten_sym_size [ArgProxy 0; ArgNum (Fin 7)];
              mk_node operator_eq [ArgProxy 20; ArgNum (Fin 9)];
              mk_node aten_scalar_tensor_default [ArgProxy 21];
              mk_node aten__assert_async_msg
                [ArgProxy 22; ArgStr "Input x's dimension #7 size is specialized at 9"];
              mk_node aten_sym_size [ArgProxy 1; ArgNum (Fin 0)];
              mk_node operator_eq [ArgProxy 24; ArgNum (Fin 3)];
              mk_node aten_scalar_tensor_default [ArgProxy 25];
              mk_node aten__assert_async_msg
                [ArgProxy 26; ArgStr "Input y's dimension #0 size is specialized at 3"]]
          scenario_nine).
Proof.
  split.
  - exact (unconstrained_input_specialized_then_return slots_of_value scenario_A
             {| gm_nodes := []; export_meta := no_meta |}
             [] "x" 0%nat [("y", 1%nat)] [3; 4]
             eq_refl eq_refl (Forall_nil _) eq_refl eq_refl).
  - refine (unconstrained_input_specialized_then_return slots_of_eight scenario_nine
              {| gm_nodes := []; export_meta := no_meta |}
              [("x", 0%nat)] "y" 1%nat [("z", 2%nat)] [3]
              eq_refl eq_refl _ eq_refl eq_refl).
    constructor; [split; discriminate | constructor].
Defined.

Lemma early_return_skips_equalities_witness :
  inputs_deferred slots_of_value (constraints scenario_C)
    (input_name_to_example_inputs scenario_C)
    (List.length (graph scenario_C)) [("x", 0%nat)]
  = [(EqualityConstraintSpec 0 "y" 0, "x", 2%nat)]
  /\ exists name arg,
       In (name, arg) (input_name_to_args scenario_C)
       /\ dict_get String.eqb name (constraints scenario_C) = None
       /\ postprocess_placeholders slots_of_value scenario_C
          = (Ok (Some arg),
             snd (inputs_loop slots_of_value (input_name_to_args scenario_C) []
                    scenario_C))
       /\ exists nodes,
            snd (postprocess_placeholders slots_of_value scenario_C)
            = emit nodes scenario_C
            /\ Forall (fun n => is_proxy_equality n = false) nodes.
Proof.
  split; [reflexivity |].
  apply (early_return_skips_equalities slots_of_value scenario_C
           {| gm_nodes := []; export_meta := no_meta |} eq_refl).
  - constructor; [discriminate |]. constructor; [discriminate | constructor].
  - apply Exists_cons_tl. apply Exists_cons_hd. reflexivity.
Defined.

Lemma placeholder_without_example_skipped_witness :
  registered_ok scenario_no_example
  /\ dict_get String.eqb "w" (input_name_to_example_inputs scenario_no_example) = None
  /\ placeholder "w" scenario_no_example
     = (Ok 1%nat, emit [mk_node (placeholder_target "w") []] scenario_no_example)
  /\ exists nodes,
       snd (postprocess_placeholders slots_of_value
              (emit [mk_node (placeholder_target "w") []] scenario_no_example))
       = emit nodes (emit [mk_node (placeholder_target "w") []] scenario_no_example)
       /\ Forall (fun n => ~ reads 1%nat n) nodes.
Proof.
  assert (Hreg : registered_ok scenario_no_example).
  { constructor; [split; [discriminate | simpl; lia] | constructor]. }
  split; [exact Hreg |]. split; [reflexivity |].
  destruct (placeholder_without_example_skipped slots_of_value scenario_no_example "w"
              Hreg eq_refl)
    as [H1 [_ [_ [_ [H5 _]]]]].
  split; [exact H1 | exact H5].
Defined.

Lemma malformed_declared_constraint_before_traversal_witness :
  _process_shape_constraints
    (meta_input_shape_constraints (export_meta scenario_inverted))
  = Raise AssertionError
  /\ call slots_of_value scenario_inverted init_self
     = (Raise AssertionError, set_current_gm (Some scenario_inverted) init_self)
  /\ graph (snd (call slots_of_value scenario_inverted init_self)) = graph init_self.
Proof.
  split; [reflexivity |].
  destruct (malformed_declared_constraint_before_traversal slots_of_value
              scenario_inverted init_self AssertionError eq_refl)
    as [_ [H2 [H3 _]]].
  split; [exact H2 | exact H3].
Defined.

(** The input [x] of nine dimensions: its difference set is iterated as
    8, 5, 6, 7. *)
Lemma constrained_input_specializes_free_dims_witness :
  set_difference slots_of_eight (range_set 9) (constrained_dims_of nine_constraints [])
  = [8; 5; 6; 7]
  /\ inputs_loop slots_of_eight [("x", 0%nat)] [] scenario_nine_alone
     = (Ok (inr [(EqualityConstraintSpec 4 "x" 0, "x", 5%nat)]),
        emit [mk_node aten_sym_size [ArgProxy 0; ArgNum (Fin 0)];
              mk_node aten_sym_size [ArgProxy 0; ArgNum (Fin 1)];
              mk_node aten_sym_size [ArgProxy 0; ArgNum (Fin 2)];
              mk_node aten_sym_size [ArgProxy 0; ArgNum (Fin 3)];
              mk_node aten_sym_size [ArgProxy 0; ArgNum (Fin 4)];
              mk_node aten_sym_size [ArgProxy 0; ArgNum (Fin 8)];
              mk_node operator_eq [ArgProxy 6; ArgNum (Fin 10)];
              mk_node aten_scalar_tensor_default [ArgProxy 7];
              mk_node aten__assert_async_msg
                [ArgProxy 8; ArgStr "Input x's dimension #8 size is specialized at 10"];
              mk_node aten_sym_size [ArgProxy 0; ArgNum (Fin 5)];
              mk_node operator_eq [ArgProxy 10; ArgNum (Fin 7)];
              mk_node aten_scalar_tensor_default [ArgProxy 11];
              mk_node aten__assert_async_msg
                [ArgProxy 12; ArgStr "Input x's dimension #5 size is specialized at 7"];
              mk_node aten_sym_size [ArgProxy 0; ArgNum (Fin 6)];
              mk_node operator_eq [ArgProxy 14; ArgNum (Fin 8)];
              mk_node aten_scalar_tensor_default [ArgProxy 15];
              mk_node aten__assert_async_msg
                [ArgProxy 16; ArgStr "Input x's dimension #6 size is specialized at 8"];
              mk_node aten_sym_size [ArgProxy 0; ArgNum (Fin 7)];
              mk_node operator_eq [ArgProxy 18; ArgNum (Fin 9)];
              mk_node aten_scalar_tensor_default [ArgProxy 19];
              mk_node aten__assert_async_msg
                [ArgProxy 20; ArgStr "Input x's dimension #7 size is specialized at 9"]]
          scenario_nine_alone).
Proof.
  split; [reflexivity |].
  exact (proj1 (constrained_input_specializes_free_dims slots_of_eight
                  "x" 0%nat [] scenario_nine_alone [2; 3; 4; 5; 6; 7; 8; 9; 10]
                  nine_constraints eq_refl eq_refl)).
Defined.

Lemma postprocess_placeholders_all_constrained_witness :
  resolvable (input_name_to_args scenario_nine_alone)
    [(EqualityConstraintSpec 4 "x" 0, "x", 5%nat)]
  /\ postprocess_placeholders slots_of_eight scenario_nine_alone
     = (Ok None,
        emit [mk_node aten_sym_size [ArgProxy 0; ArgNum (Fin 0)];
              mk_node aten_sym_size [ArgProxy 0; ArgNum (Fin 1)];
              mk_node aten_sym_size [ArgProxy 0; ArgNum (Fin 2)];
              mk_node aten_sym_size [ArgProxy 0; ArgNum (Fin 3)];
              mk_node aten_sym_size [ArgProxy 0; ArgNum (Fin 4)];
              mk_node aten_sym_size [ArgProxy 0; ArgNum (Fin 8)];
              mk_node operator_eq [ArgProxy 6; ArgNum (Fin 10)];
              mk_node aten_scalar_tensor_default [ArgProxy 7];
              mk_node aten__assert_async_msg
                [ArgProxy 8; ArgStr "Input x's dimension #8 size is specialized at 10"];
              mk_node aten_sym_size [ArgProxy 0; ArgNum (Fin 5)];
              mk_node operator_eq [ArgProxy 10; ArgNum (Fin 7)];
              mk_node aten_scalar_tensor_default [ArgProxy 11];
              mk_node aten__assert_async_msg
                [ArgProxy 12; ArgStr "Input x's dimension #5 size is specialized at 7"];
              mk_node aten_sym_size [ArgProxy 0; ArgNum (Fin 6)];
              mk_node operator_eq [ArgProxy 14; ArgNum (Fin 8)];
              mk_node aten_scalar_tensor_default [ArgProxy 15];
              mk_node aten__assert_async_msg
                [ArgProxy 16; ArgStr "Input x's dimension #6 size is specialized at 8"];
              mk_node aten_sym_size [ArgProxy 0; ArgNum (Fin 7)];
              mk_node operator_eq [ArgProxy 18; ArgNum (Fin 9)];
              mk_node aten_scalar_tensor_default [ArgProxy 19];
              mk_node aten__assert_async_msg
                [ArgProxy 20; ArgStr "Input x's dimension #7 size is specialized at 9"];
              mk_node aten_sym_size [ArgProxy 0; ArgNum (Fin 0)];
              mk_node operator_eq [ArgProxy 5; ArgProxy 22];
              mk_node aten_scalar_tensor_default [ArgProxy 23];
              mk_node aten__assert_async_msg
                [ArgProxy 24;
                 ArgStr "Input x's dimension #4 size is not equal to input x's dimension #0"]]
          scenario_nine_alone).
Proof.
  assert (Hres : resolvable (input_name_to_args scenario_nine_alone)
                   [(EqualityConstraintSpec 4 "x" 0, "x", 5%nat)]).
  { constructor; [simpl; discriminate | constructor]. }
  split; [exact Hres |].
  refine (postprocess_placeholders_all_constrained slots_of_eight scenario_nine_alone
            {| gm_nodes := []; export_meta := no_meta |} eq_refl _ Hres).
  constructor; [split; discriminate | constructor].
Defined.

Lemma unresolved_equality_raises_witness :
  postprocess_placeholders slots_of_eight scenario_nine_unresolved
  = (Raise (KeyError "w"),
     emit [mk_node aten_sym_size [ArgProxy 0; ArgNum (Fin 0)];
           mk_node aten_sym_size [ArgProxy 0; ArgNum (Fin 1)];
           mk_node aten_sym_size [ArgProxy 0; ArgNum (Fin 2)];
           mk_node aten_sym_size [ArgProxy 0; ArgNum (Fin 3)];
           mk_node aten_sym_size [ArgProxy 0; ArgNum (Fin 4)];
           mk_node aten_sym_size [ArgProxy 0; ArgNum (Fin 5)];
           mk_node aten_sym_size [ArgProxy 0; ArgNum (Fin 8)];
           mk_node operator_eq [ArgProxy 7; ArgNum (Fin 10)];
           mk_node aten_scalar_tensor_default [ArgProxy 8];
           mk_node aten__assert_async_msg
             [ArgProxy 9; ArgStr "Input x's dimension #8 size is specialized at 10"];
           mk_node aten_sym_size [ArgProxy 0; ArgNum (Fin 6)];
           mk_node operator_eq [ArgProxy 11; ArgNum (Fin 8)];
           mk_node aten_scalar_tensor_default [ArgProxy 12];
           mk_node aten__assert_async_msg
             [ArgProxy 13; ArgStr "Input x's dimension #6 size is specialized at 8"];
           mk_node aten_sym_size [ArgProxy 0; ArgNum (Fin 7)];
           mk_node operator_eq [ArgProxy 15; ArgNum (Fin 9)];
           mk_node aten_scalar_tensor_default [ArgProxy 16];
           mk_node aten__assert_async_msg
             [ArgProxy 17; ArgStr "Input x's dimension #7 size is specialized at 9"];
           mk_node aten_sym_size [ArgProxy 0; ArgNum (Fin 0)];
           mk_node operator_eq [ArgProxy 5; ArgProxy 19];
           mk_node aten_scalar_tensor_default [ArgProxy 20];
           mk_node aten__assert_async_msg
             [ArgProxy 21;
              ArgStr "Input x's dimension #4 size is not equal to input x's dimension #0"]]
       scenario_nine_unresolved).
Proof.
  refine (unresolved_equality_raises slots_of_eight scenario_nine_unresolved
            {| gm_nodes := []; export_meta := no_meta |}
            [(EqualityConstraintSpec 4 "x" 0, "x", 5%nat)] 5 "w" 0 "x" 6%nat []
            eq_refl _ eq_refl _ eq_refl).
  - constructor; [split; discriminate | constructor].
  - constructor; [simpl; discriminate | constructor].
Defined.

Lemma postprocess_placeholders_adds_scoped_nodes_witness :
  registered_ok scenario_C_both
  /\ scoped_from 0 (graph scenario_C_both)
  /\ scoped_from 0 (graph (snd (postprocess_placeholders slots_of_value scenario_C_both))).
Proof.
  assert (Hreg : registered_ok scenario_C_both).
  { constructor; [split; [discriminate | simpl; lia] |].
    constructor; [split; [discriminate | simpl; lia] | constructor]. }
  assert (Hg : scoped_from 0 (graph scenario_C_both)).
  { simpl. repeat split; intros p []. }
  split; [exact Hreg |]. split; [exact Hg |].
  destruct (postprocess_placeholders_adds_scoped_nodes slots_of_value scenario_C_both Hreg)
    as [nodes [_ [_ H]]].
  exact (H Hg).
Defined.
